(** * AdditiveSynthesizer: the signal-generation core of additive_synth.h

    A shallow embedding of the harmonic spectrum ([HarmonicState]), the sine
    partial ([SineWaveGenerator]), the oscillator bank ([HarmonicOscillator]),
    the ADSR envelope ([EnvelopeProcessor]), the voice ([AdditiveVoice]) and
    the [MorphingEngine], followed by the properties checked on them.

    C++ [float] is IEEE-754 binary32 and [double] is binary64, both with
    round-to-nearest-even and every operation rounded to the type of its
    operands (no extended intermediate precision, no fused multiply-add).
    They are modelled by [spec_float], the executable specification of the
    Standard Library, instantiated at (24,128) and (53,1024).  [int] indices
    are [Z]; the arithmetic done on them in the source stays far from the
    range limits of a 32-bit [int]. *)

From Stdlib Require Import ZArith Bool String Lia.
From Stdlib Require Import SpecFloat.
From stdpp Require Import base list.

Local Open Scope Z_scope.

(* ===================================================================== *)
(** ** Floating point                                                     *)
(* ===================================================================== *)

Definition float : Type := spec_float.
Definition double : Type := spec_float.

(** The IEEE comparisons.  Each one is false as soon as an operand is NaN,
    except [!=] which is then true. *)
Definition flt (x y : spec_float) : bool := SFltb x y.
Definition fgt (x y : spec_float) : bool := SFltb y x.
Definition fle (x y : spec_float) : bool := SFleb x y.
Definition fge (x y : spec_float) : bool := SFleb y x.
Definition feq (x y : spec_float) : bool := SFeqb x y.
Definition fne (x y : spec_float) : bool := negb (SFeqb x y).

(** A value of the format: zero, infinity, NaN, or a finite number whose
    mantissa and exponent are the canonical ones of the format. *)
Definition is_finite (x : spec_float) : bool :=
  match x with
  | S754_zero _ | S754_finite _ _ _ => true
  | S754_infinity _ | S754_nan => false
  end.

Definition is_nan (x : spec_float) : bool :=
  match x with
  | S754_nan => true
  | _ => false
  end.

Module F32.
Definition prec : Z := 24.
Definition emax : Z := 128.

Definition add : float -> float -> float := SFadd prec emax.
Definition sub : float -> float -> float := SFsub prec emax.
Definition mul : float -> float -> float := SFmul prec emax.
Definition div : float -> float -> float := SFdiv prec emax.
Definition neg : float -> float := SFopp.

Definition valid (x : float) : bool := valid_binary prec emax x.

(** [static_cast<float>(n)] for an integer [n]. *)
Definition of_int (n : Z) : float := binary_normalize prec emax n 0 false.

(** Narrowing conversion [double -> float]. *)
Definition of_double (d : double) : float :=
  match d with
  | S754_finite s m e => binary_round prec emax s m e
  | _ => d
  end.

(** The literal [p/q] written in decimal with an [f] suffix, for integers
    [p] and [q] that binary32 holds exactly: the division is correctly
    rounded, so this is the float nearest to the decimal. *)
Definition lit (p q : Z) : float := div (of_int p) (of_int q).

Definition zero : float := S754_zero false.
Definition one : float := Eval vm_compute in of_int 1.
Definition two : float := Eval vm_compute in of_int 2.
Definition half : float := Eval vm_compute in lit 1 2.
Definition thousandth : float := Eval vm_compute in lit 1 1000.
End F32.

Module F64.
Definition prec : Z := 53.
Definition emax : Z := 1024.

Definition add : double -> double -> double := SFadd prec emax.
Definition sub : double -> double -> double := SFsub prec emax.
Definition mul : double -> double -> double := SFmul prec emax.
Definition div : double -> double -> double := SFdiv prec emax.

Definition valid (x : double) : bool := valid_binary prec emax x.

Definition of_int (n : Z) : double := binary_normalize prec emax n 0 false.

(** Widening conversion [float -> double]; it is exact. *)
Definition of_float (f : float) : double :=
  match f with
  | S754_finite s m e => binary_round prec emax s m e
  | _ => f
  end.
End F64.

(** Modelled from the spec: [juce::jlimit (lowerLimit, upperLimit,
    valueToConstrain)] belongs to the JUCE library, which the repository
    does not contain; the spec describes its effect as clamping into
    [lowerLimit, upperLimit].  It is written the way JUCE defines it,
    [v < lo ? lo : (hi < v ? hi : v)], so a NaN passes through unchanged. *)
Definition jlimit (lowerLimit upperLimit valueToConstrain : float) : float :=
  if flt valueToConstrain lowerLimit then lowerLimit
  else if flt upperLimit valueToConstrain then upperLimit
  else valueToConstrain.

(* ===================================================================== *)
(** ** Constants                                                          *)
(* ===================================================================== *)

Module Constants.
Definition MAX_HARMONICS : Z := 128.
Definition MAX_VOICES : Z := 16.
Definition VISIBLE_HARMONICS : Z := 32.
(** [6.28318530717958647692f]: the binary32 value 13176795 * 2^-21, the
    float nearest to the decimal (see [TWO_PI_literal]). *)
Definition TWO_PI : float := S754_finite false 13176795 (-21).
Definition A4_FREQUENCY : float := Eval vm_compute in F32.of_int 440.
End Constants.

(** Loops.  [for (int i = 0; i < n; i += step)] visits [range_step 0 step k]
    with [k] the number of iterations; the body threads the object it
    mutates. *)
Fixpoint range_step (start step count : nat) : list nat :=
  match count with
  | O => []
  | S c => start :: range_step (start + step) step c
  end.

Definition for_each {S : Type} (indices : list nat) (body : nat -> S -> S) (s : S) : S :=
  fold_left (fun acc i => body i acc) indices s.

(** [for (int i = 0; i < n; ++i)] *)
Definition for_upto {S : Type} (n : nat) (body : nat -> S -> S) (s : S) : S :=
  for_each (range_step 0 1 n) body s.

(** [for (int i = 0; i < n; i += 2)] *)
Definition for_upto_by2 {S : Type} (n : nat) (body : nat -> S -> S) (s : S) : S :=
  for_each (range_step 0 2 (Nat.div2 (n + 1))) body s.

(* ===================================================================== *)
(** ** HarmonicData and HarmonicState                                     *)
(* ===================================================================== *)

Module HarmonicData.
Record t : Type := mk {
  amplitude : float;
  phase : float;
  enabled : bool
}.

(** [HarmonicData() = default] with the member initialisers. *)
Definition new : t :=
  {| amplitude := F32.zero; phase := F32.zero; enabled := false |}.

Definition with_amplitude (a : float) (h : t) : t :=
  {| amplitude := a; phase := phase h; enabled := enabled h |}.
Definition with_phase (p : float) (h : t) : t :=
  {| amplitude := amplitude h; phase := p; enabled := enabled h |}.
Definition with_enabled (b : bool) (h : t) : t :=
  {| amplitude := amplitude h; phase := phase h; enabled := b |}.
End HarmonicData.

Module HarmonicState.
Import HarmonicData.

(** [std::array<HarmonicData, MAX_HARMONICS> harmonics]. *)
Record t : Type := mk { harmonics : list HarmonicData.t }.

(** The array has exactly [MAX_HARMONICS] cells. *)
Definition wf (st : t) : Prop :=
  length (harmonics st) = Z.to_nat Constants.MAX_HARMONICS.

Definition in_range (index : Z) : bool :=
  (0 <=? index) && (index <? Constants.MAX_HARMONICS).

(** [harmonics[i]], read and written in place. *)
Definition at_ (st : t) (i : nat) : HarmonicData.t :=
  default HarmonicData.new (harmonics st !! i).
Definition update (i : nat) (f : HarmonicData.t -> HarmonicData.t) (st : t) : t :=
  mk (alter f i (harmonics st)).

Definition clear (st : t) : t :=
  mk ((fun h => with_enabled false (with_phase F32.zero (with_amplitude F32.zero h)))
        <$> harmonics st).

(** [HarmonicState() { clear(); }] *)
Definition new : t :=
  clear (mk (replicate (Z.to_nat Constants.MAX_HARMONICS) HarmonicData.new)).

Definition setHarmonic (index : Z) (amp ph : float) (st : t) : t :=
  if in_range index then
    update (Z.to_nat index)
      (fun h => with_enabled (fgt amp F32.thousandth)
                 (with_phase ph
                   (with_amplitude (jlimit F32.zero F32.one amp) h))) st
  else st.

Definition setHarmonicAmplitude (index : Z) (amp : float) (st : t) : t :=
  if in_range index then
    update (Z.to_nat index)
      (fun h => with_enabled (fgt amp F32.thousandth)
                 (with_amplitude (jlimit F32.zero F32.one amp) h)) st
  else st.

(** [static HarmonicData empty;] is never written. *)
Definition empty : HarmonicData.t := HarmonicData.new.

Definition getHarmonic (index : Z) (st : t) : HarmonicData.t :=
  if in_range index then at_ st (Z.to_nat index) else empty.

Definition getHarmonicAmplitude (index : Z) (st : t) : float :=
  if in_range index then amplitude (at_ st (Z.to_nat index)) else F32.zero.

(** One field of [morphTo]: [self * (1.0f - amount) + target * amount]. *)
Definition blend (self target amount : float) : float :=
  F32.add (F32.mul self (F32.sub F32.one amount)) (F32.mul target amount).

Definition morphTo (target : t) (amount : float) (st : t) : t :=
  let amount := jlimit F32.zero F32.one amount in
  for_upto (Z.to_nat Constants.MAX_HARMONICS)
    (fun i st =>
       let st := update i (fun h =>
                   with_amplitude
                     (blend (amplitude h) (amplitude (at_ target i)) amount) h) st in
       update i (fun h =>
                   with_phase (blend (phase h) (phase (at_ target i)) amount) h) st)
    st.

(** What [morphTo] does to one cell. *)
Definition morph_cell (target : t) (amount : float) (i : nat) (h : HarmonicData.t)
    : HarmonicData.t :=
  with_phase (blend (phase h) (phase (at_ target i)) amount)
    (with_amplitude (blend (amplitude h) (amplitude (at_ target i)) amount) h).

Definition copyFrom (other : t) (st : t) : t := mk (harmonics other).

(** [for (auto& h : harmonics) h.enabled = h.amplitude > 0.001f;] *)
Definition recompute_enabled (st : t) : t :=
  mk ((fun h => with_enabled (fgt (amplitude h) F32.thousandth) h) <$> harmonics st).

Definition loadPreset (presetName : string) (st : t) : t :=
  let st := clear st in
  let st :=
    if String.eqb presetName "Saw" then
      for_upto 32 (fun i =>
        update i (with_amplitude (F32.div F32.one (F32.of_int (Z.of_nat i + 1))))) st
    else if String.eqb presetName "Square" then
      for_upto_by2 32 (fun i =>
        update i (with_amplitude (F32.div F32.one (F32.of_int (Z.of_nat i + 1))))) st
    else if String.eqb presetName "Triangle" then
      for_upto_by2 32 (fun i =>
        let amp := F32.div F32.one
                     (F32.of_int ((Z.of_nat i + 1) * (Z.of_nat i + 1))) in
        update i (with_amplitude
                    (if Z.of_nat i mod 4 =? 0 then amp else F32.neg amp))) st
    else if String.eqb presetName "Sine" then
      update 0 (with_amplitude F32.one) st
    else if String.eqb presetName "Organ" then
      let st := update 0 (with_amplitude F32.one) st in
      let st := update 2 (with_amplitude F32.half) st in
      update 4 (with_amplitude (F32.lit 3 10)) st
    else st in
  recompute_enabled st.

End HarmonicState.

(* ===================================================================== *)
(** ** SineWaveGenerator                                                  *)
(* ===================================================================== *)

Module SineWaveGenerator.
Record t : Type := mk {
  sampleRate : double;
  frequency : float;
  amplitude : float;
  currentPhase : float;
  phaseIncrement : float
}.

Definition new : t :=
  {| sampleRate := F64.of_int 44100;
     frequency := F32.of_int 440;
     amplitude := F32.zero;
     currentPhase := F32.zero;
     phaseIncrement := F32.zero |}.

Definition with_sampleRate (sr : double) (g : t) : t :=
  mk sr (frequency g) (amplitude g) (currentPhase g) (phaseIncrement g).
Definition with_frequency (f : float) (g : t) : t :=
  mk (sampleRate g) f (amplitude g) (currentPhase g) (phaseIncrement g).
Definition with_amplitude (a : float) (g : t) : t :=
  mk (sampleRate g) (frequency g) a (currentPhase g) (phaseIncrement g).
Definition with_currentPhase (p : float) (g : t) : t :=
  mk (sampleRate g) (frequency g) (amplitude g) p (phaseIncrement g).
Definition with_phaseIncrement (d : float) (g : t) : t :=
  mk (sampleRate g) (frequency g) (amplitude g) (currentPhase g) d.

(** [phaseIncrement = TWO_PI * frequency / static_cast<float>(sampleRate)] *)
Definition updatePhaseIncrement (g : t) : t :=
  with_phaseIncrement
    (F32.div (F32.mul Constants.TWO_PI (frequency g)) (F32.of_double (sampleRate g))) g.

Definition prepare (sr : double) (g : t) : t :=
  updatePhaseIncrement (with_sampleRate sr g).
Definition reset (g : t) : t := with_currentPhase F32.zero g.
Definition setFrequency (freq : float) (g : t) : t :=
  updatePhaseIncrement (with_frequency freq g).
Definition setAmplitude (amp : float) (g : t) : t :=
  with_amplitude (jlimit F32.zero F32.one amp) g.

(** [currentPhase += phaseIncrement;
     if (currentPhase >= TWO_PI) currentPhase -= TWO_PI;] *)
Definition advance (g : t) : t :=
  let g := with_currentPhase (F32.add (currentPhase g) (phaseIncrement g)) g in
  if fge (currentPhase g) Constants.TWO_PI
  then with_currentPhase (F32.sub (currentPhase g) Constants.TWO_PI) g
  else g.

Section WithSin.
(** [std::sin] on [float], from the C library. *)
Variable sinf : float -> float.

(** Returns the sample and the generator after the call. *)
Definition getNextSample (g : t) : float * t :=
  if flt (amplitude g) F32.thousandth then (F32.zero, g)
  else
    let sample := F32.mul (amplitude g) (sinf (currentPhase g)) in
    (sample, advance g).
End WithSin.
End SineWaveGenerator.

(* ===================================================================== *)
(** ** HarmonicOscillator                                                 *)
(* ===================================================================== *)

Module HarmonicOscillator.
Record t : Type := mk {
  oscillators : list SineWaveGenerator.t;
  fundamentalFrequency : float;
  masterGain : float
}.

Definition new : t :=
  {| oscillators :=
       replicate (Z.to_nat Constants.MAX_HARMONICS) SineWaveGenerator.new;
     fundamentalFrequency := F32.of_int 440;
     masterGain := F32.half |}.

Definition wf (b : t) : Prop :=
  length (oscillators b) = Z.to_nat Constants.MAX_HARMONICS.

Definition at_ (b : t) (i : nat) : SineWaveGenerator.t :=
  default SineWaveGenerator.new (oscillators b !! i).
Definition update (i : nat) (f : SineWaveGenerator.t -> SineWaveGenerator.t)
    (b : t) : t :=
  mk (alter f i (oscillators b)) (fundamentalFrequency b) (masterGain b).

Definition prepare (sampleRate : double) (b : t) : t :=
  mk (SineWaveGenerator.prepare sampleRate <$> oscillators b)
     (fundamentalFrequency b) (masterGain b).

Definition reset (b : t) : t :=
  mk (SineWaveGenerator.reset <$> oscillators b)
     (fundamentalFrequency b) (masterGain b).

Definition updateOscillatorFrequencies (b : t) : t :=
  for_upto (Z.to_nat Constants.MAX_HARMONICS)
    (fun i b =>
       update i (SineWaveGenerator.setFrequency
                   (F32.mul (fundamentalFrequency b) (F32.of_int (Z.of_nat i + 1)))) b)
    b.

Definition setFrequency (freq : float) (b : t) : t :=
  updateOscillatorFrequencies (mk (oscillators b) freq (masterGain b)).

Definition setHarmonicState (state : HarmonicState.t) (b : t) : t :=
  for_upto (Z.to_nat Constants.MAX_HARMONICS)
    (fun i b =>
       update i (SineWaveGenerator.setAmplitude
                   (HarmonicState.getHarmonicAmplitude (Z.of_nat i) state)) b)
    b.

Definition setGain (gain : float) (b : t) : t :=
  mk (oscillators b) (fundamentalFrequency b) gain.

Section WithSin.
Variable sinf : float -> float.

(** What one turn of the summation loop does to [oscillators[i]]: the
    condition calls [getNextSample] once, and when that sample differs
    from zero the addition calls it again.  Returns the amount added to
    [sample], if any, and the oscillator afterwards. *)
Definition loop_turn (o : SineWaveGenerator.t) : option float * SineWaveGenerator.t :=
  let '(tested, o) := SineWaveGenerator.getNextSample sinf o in
  if fne tested F32.zero then
    let '(added, o) := SineWaveGenerator.getNextSample sinf o in
    (Some added, o)
  else (None, o).

Definition getNextSample (b : t) : float * t :=
  let '(sample, b) :=
    for_upto (Z.to_nat Constants.MAX_HARMONICS)
      (fun i '(sample, b) =>
         let '(added, o) := loop_turn (at_ b i) in
         let b := update i (fun _ => o) b in
         match added with
         | Some x => (F32.add sample x, b)
         | None => (sample, b)
         end)
      (F32.zero, b) in
  (F32.mul sample (masterGain b), b).
End WithSin.
End HarmonicOscillator.

(* ===================================================================== *)
(** ** EnvelopeProcessor                                                  *)
(* ===================================================================== *)

Module EnvelopeProcessor.
Inductive State : Type := Idle | Attack | Decay | Sustain | Release.

Record t : Type := mk {
  currentState : State;
  sampleRate : double;
  currentLevel : float;
  attackTime : float;
  decayTime : float;
  sustainLevel : float;
  releaseTime : float;
  attackRate : float;
  decayRate : float;
  releaseRate : float
}.

Definition new : t :=
  {| currentState := Idle;
     sampleRate := F64.of_int 44100;
     currentLevel := F32.zero;
     attackTime := F32.lit 1 100;
     decayTime := F32.lit 1 10;
     sustainLevel := F32.lit 7 10;
     releaseTime := F32.lit 1 2;
     attackRate := F32.zero;
     decayRate := F32.zero;
     releaseRate := F32.zero |}.

(** The three right-hand sides of [calculateRates].  A [float] meeting the
    [double] [sampleRate] is promoted, the quotient is a [double], and the
    assignment narrows it to [float]; [1.0f - sustainLevel] is a [float]
    difference. *)
Definition attackRate_of (attackT : float) (sr : double) : float :=
  F32.of_double (F64.div (F64.of_float F32.one) (F64.mul (F64.of_float attackT) sr)).
Definition decayRate_of (sustainL decayT : float) (sr : double) : float :=
  F32.of_double (F64.div (F64.of_float (F32.sub F32.one sustainL))
                         (F64.mul (F64.of_float decayT) sr)).
Definition releaseRate_of (sustainL releaseT : float) (sr : double) : float :=
  F32.of_double (F64.div (F64.of_float sustainL) (F64.mul (F64.of_float releaseT) sr)).

Definition calculateRates (e : t) : t :=
  mk (currentState e) (sampleRate e) (currentLevel e)
     (attackTime e) (decayTime e) (sustainLevel e) (releaseTime e)
     (attackRate_of (attackTime e) (sampleRate e))
     (decayRate_of (sustainLevel e) (decayTime e) (sampleRate e))
     (releaseRate_of (sustainLevel e) (releaseTime e) (sampleRate e)).

Definition with_state_level (s : State) (level : float) (e : t) : t :=
  mk s (sampleRate e) level
     (attackTime e) (decayTime e) (sustainLevel e) (releaseTime e)
     (attackRate e) (decayRate e) (releaseRate e).

Definition prepare (sr : double) (e : t) : t :=
  calculateRates
    (mk (currentState e) sr (currentLevel e)
        (attackTime e) (decayTime e) (sustainLevel e) (releaseTime e)
        (attackRate e) (decayRate e) (releaseRate e)).

Definition noteOn (e : t) : t := with_state_level Attack F32.zero e.
Definition noteOff (e : t) : t := with_state_level Release (currentLevel e) e.

Definition setAttack (seconds : float) (e : t) : t :=
  calculateRates
    (mk (currentState e) (sampleRate e) (currentLevel e)
        seconds (decayTime e) (sustainLevel e) (releaseTime e)
        (attackRate e) (decayRate e) (releaseRate e)).
Definition setDecay (seconds : float) (e : t) : t :=
  calculateRates
    (mk (currentState e) (sampleRate e) (currentLevel e)
        (attackTime e) seconds (sustainLevel e) (releaseTime e)
        (attackRate e) (decayRate e) (releaseRate e)).
(** [sustainLevel = juce::jlimit(0.0f, 1.0f, level);] and nothing else. *)
Definition setSustain (level : float) (e : t) : t :=
  mk (currentState e) (sampleRate e) (currentLevel e)
     (attackTime e) (decayTime e) (jlimit F32.zero F32.one level) (releaseTime e)
     (attackRate e) (decayRate e) (releaseRate e).
Definition setRelease (seconds : float) (e : t) : t :=
  calculateRates
    (mk (currentState e) (sampleRate e) (currentLevel e)
        (attackTime e) (decayTime e) (sustainLevel e) seconds
        (attackRate e) (decayRate e) (releaseRate e)).

Definition getNextSample (e : t) : float * t :=
  match currentState e with
  | Idle => (F32.zero, e)
  | Attack =>
      let level := F32.add (currentLevel e) (attackRate e) in
      let e := if fge level F32.one
               then with_state_level Decay F32.one e
               else with_state_level Attack level e in
      (currentLevel e, e)
  | Decay =>
      let level := F32.sub (currentLevel e) (decayRate e) in
      let e := if fle level (sustainLevel e)
               then with_state_level Sustain (sustainLevel e) e
               else with_state_level Decay level e in
      (currentLevel e, e)
  | Sustain =>
      let e := with_state_level Sustain (sustainLevel e) e in
      (currentLevel e, e)
  | Release =>
      let level := F32.sub (currentLevel e) (releaseRate e) in
      let e := if fle level F32.zero
               then with_state_level Idle F32.zero e
               else with_state_level Release level e in
      (currentLevel e, e)
  end.

Definition isActive (e : t) : bool :=
  match currentState e with
  | Idle => false
  | _ => true
  end.
End EnvelopeProcessor.

(* ===================================================================== *)
(** ** AdditiveVoice                                                      *)
(* ===================================================================== *)

Module AdditiveVoice.
(** The members the class declares; the note bookkeeping of the
    [juce::SynthesiserVoice] base class is not part of it. *)
Record t : Type := mk {
  oscillator : HarmonicOscillator.t;
  envelope : EnvelopeProcessor.t;
  currentVelocity : float
}.

Definition new : t :=
  {| oscillator := HarmonicOscillator.new;
     envelope := EnvelopeProcessor.new;
     currentVelocity := F32.one |}.

Definition prepare (sampleRate : double) (v : t) : t :=
  mk (HarmonicOscillator.prepare sampleRate (oscillator v))
     (EnvelopeProcessor.prepare sampleRate (envelope v))
     (currentVelocity v).

Definition setHarmonicState (state : HarmonicState.t) (v : t) : t :=
  mk (HarmonicOscillator.setHarmonicState state (oscillator v))
     (envelope v) (currentVelocity v).

Definition setEnvelope (attack decay sustain release : float) (v : t) : t :=
  mk (oscillator v)
     (EnvelopeProcessor.setRelease release
        (EnvelopeProcessor.setSustain sustain
           (EnvelopeProcessor.setDecay decay
              (EnvelopeProcessor.setAttack attack (envelope v)))))
     (currentVelocity v).

Section WithPow.
(** [std::pow] on [float], from the C library. *)
Variable powf : float -> float -> float.

(** [440.0f * std::pow(2.0f, (midiNoteNumber - 69) / 12.0f)] *)
Definition note_frequency (midiNoteNumber : Z) : float :=
  F32.mul (F32.of_int 440)
    (powf F32.two (F32.div (F32.of_int (midiNoteNumber - 69)) (F32.of_int 12))).

Definition startNote (midiNoteNumber : Z) (velocity : float) (v : t) : t :=
  let v := mk (oscillator v) (envelope v) velocity in
  let freq := note_frequency midiNoteNumber in
  let v := mk (HarmonicOscillator.setFrequency freq (oscillator v))
              (envelope v) (currentVelocity v) in
  mk (oscillator v) (EnvelopeProcessor.noteOn (envelope v)) (currentVelocity v).
End WithPow.
End AdditiveVoice.

(* ===================================================================== *)
(** ** MorphingEngine                                                     *)
(* ===================================================================== *)

Module MorphingEngine.
Record t : Type := mk {
  sourceState : HarmonicState.t;
  targetState : HarmonicState.t;
  morphAmount : float
}.

Definition new : t :=
  {| sourceState := HarmonicState.new;
     targetState := HarmonicState.new;
     morphAmount := F32.zero |}.

Definition setSourceState (source : HarmonicState.t) (m : t) : t :=
  mk (HarmonicState.copyFrom source (sourceState m)) (targetState m) (morphAmount m).
Definition setTargetState (target : HarmonicState.t) (m : t) : t :=
  mk (sourceState m) (HarmonicState.copyFrom target (targetState m)) (morphAmount m).
Definition setMorphAmount (amount : float) (m : t) : t :=
  mk (sourceState m) (targetState m) (jlimit F32.zero F32.one amount).

(** Returns the local [result] and the engine after the call. *)
Definition getCurrentState (m : t) : HarmonicState.t * t :=
  let result := HarmonicState.new in
  let result := HarmonicState.copyFrom (sourceState m) result in
  let result := HarmonicState.morphTo (targetState m) (morphAmount m) result in
  (result, m).

Definition getMorphAmount (m : t) : float := morphAmount m.
End MorphingEngine.

(* ===================================================================== *)
(** ** Inputs used to instantiate the statements                          *)
(* ===================================================================== *)

(** A polynomial stand-in for the C library's sine, and a constant stand-in
    for its power function (exact at exponent 0, the exponent of note 69).
    The statements below hold for every [sinf] and [powf]; these two only
    serve to evaluate them on concrete inputs. *)
Definition sin_poly (x : float) : float :=
  let x2 := F32.mul x x in
  let x3 := F32.mul x2 x in
  let x5 := F32.mul x3 x2 in
  F32.add (F32.sub x (F32.div x3 (F32.of_int 6))) (F32.div x5 (F32.of_int 120)).
Definition pow_unit (base exponent : float) : float := F32.one.

(** A bank prepared at 44100 Hz, tuned to 440 Hz and loaded with the "Sine"
    preset, and the same bank after it has produced its first sample. *)
Definition bank_sine : HarmonicOscillator.t :=
  HarmonicOscillator.setHarmonicState (HarmonicState.loadPreset "Sine" HarmonicState.new)
    (HarmonicOscillator.setFrequency (F32.of_int 440)
       (HarmonicOscillator.prepare (F64.of_int 44100) HarmonicOscillator.new)).
Definition bank_sounding : HarmonicOscillator.t :=
  snd (HarmonicOscillator.getNextSample sin_poly bank_sine).

(** [TWO_PI + TWO_PI], which single precision computes exactly. *)
Definition TWO_PI_twice : float :=
  Eval vm_compute in F32.add Constants.TWO_PI Constants.TWO_PI.

(** A generator prepared at 44100 Hz, set to 100 kHz (the eighth harmonic
    of MIDI note 127 lies above that) at full amplitude; it has produced no
    sample yet. *)
Definition generator_100kHz : SineWaveGenerator.t :=
  SineWaveGenerator.setAmplitude F32.one
    (SineWaveGenerator.setFrequency (F32.of_int 100000)
       (SineWaveGenerator.prepare (F64.of_int 44100) SineWaveGenerator.new)).

(** Two spectra that hold 0.5 in slot 0, the first with an infinite phase. *)
Definition spectrum_inf_phase : HarmonicState.t :=
  HarmonicState.setHarmonic 0 F32.half (S754_infinity false) HarmonicState.new.
Definition spectrum_half : HarmonicState.t :=
  HarmonicState.setHarmonic 0 F32.half F32.zero HarmonicState.new.

(* ===================================================================== *)
(** ** Further definitions: invariants, runs, rendering, the voice pool   *)
(* ===================================================================== *)

(** The reading of binary32 numbers that the facts on rounding are stated
    with. *)
Module Binary32.
(** A non-negative finite binary32 number in units of 2^-298, the weight of
    the last bit of a product of two of them; an integer. *)
Definition value (x : float) : Z :=
  match x with
  | S754_finite false m e => Z.pos m * 2 ^ (e + 298)
  | _ => 0
  end.

(** Non-negative finite numbers: a zero of either sign or a positive number. *)
Definition nonneg (x : float) : bool :=
  match x with
  | S754_zero _ | S754_finite false _ _ => true
  | _ => false
  end.

(** The outcome of a rounding: the float that stands for the integer [q] at
    exponent [e], in canonical form. *)
Definition stands_for (f : float) (q e : Z) : Prop :=
  (q = 0 /\ f = S754_zero false)
  \/ (exists mf ef, f = S754_finite false mf ef /\ bounded 24 128 mf ef = true
                    /\ e <= ef /\ Z.pos mf * 2 ^ (ef - e) = q).

(** A float [R] is the rounding of the integer [m] at exponent [e] onto the
    multiples of 2^e': it stands for a multiple [q'] that is at most [C]
    whenever [m] lies below [C] and a half, and that exceeds [m] by at most
    half a unit. *)
Definition rounded (R : float) (m e e' : Z) : Prop :=
  exists q',
    stands_for R q' e'
    /\ (forall C, 2 * (m * 2 ^ (e + 298)) < (2 * C + 1) * 2 ^ (e' + 298) -> q' <= C)
    /\ 2 * (q' * 2 ^ (e' + 298)) <= 2 * (m * 2 ^ (e + 298)) + 2 ^ (e' + 298).

(** Non-positive numbers: a negative number, minus infinity or the negative
    zero. *)
Definition nonpos (x : float) : bool :=
  match x with
  | S754_zero true | S754_finite true _ _ | S754_infinity true => true
  | _ => false
  end.
End Binary32.

Module HarmonicStateInv.
Import HarmonicData HarmonicState.
Definition enabled_consistent (st : HarmonicState.t) : Prop :=
  Forall (fun h => enabled h = fgt (amplitude h) F32.thousandth) (harmonics st).
Definition in_unit (x : float) : bool := fle F32.zero x && fle x F32.one.
Definition amplitudes_in_unit (st : HarmonicState.t) : Prop :=
  Forall (fun h => in_unit (amplitude h) = true) (harmonics st).
(** A float in the unit interval that is a binary32 number. *)
Definition unit_value (x : float) : Prop := F32.valid x = true /\ in_unit x = true.
(** Every amplitude is a binary32 number: what a C++ [float] always holds. *)
Definition amplitudes_valid (st : HarmonicState.t) : Prop :=
  Forall (fun h => F32.valid (amplitude h) = true) (harmonics st).
End HarmonicStateInv.

(** The cells the "Saw" and "Square" presets put in slot [k]. *)
Definition saw_slot (k : Z) : HarmonicData.t :=
  if k <? 32
  then HarmonicData.mk (F32.div F32.one (F32.of_int (k + 1))) F32.zero true
  else HarmonicData.new.
Definition square_slot (k : Z) : HarmonicData.t :=
  if (k <? 32) && Z.even k
  then HarmonicData.mk (F32.div F32.one (F32.of_int (k + 1))) F32.zero true
  else HarmonicData.new.

Module SineWaveGeneratorRun.
Import SineWaveGenerator.
(** The cached increment agrees with the frequency and the sample rate. *)
Definition increment_consistent (g : t) : Prop :=
  phaseIncrement g
  = F32.div (F32.mul Constants.TWO_PI (frequency g)) (F32.of_double (sampleRate g)).
End SineWaveGeneratorRun.

Module HarmonicOscillatorSum.
Import HarmonicOscillator.
(** The running sum of the summation loop over a list of oscillators. *)
Definition summed (sinf : float -> float) (oscs : list SineWaveGenerator.t) : float :=
  fold_left
    (fun acc o => match fst (loop_turn sinf o) with
                  | Some x => F32.add acc x
                  | None => acc
                  end)
    oscs F32.zero.
End HarmonicOscillatorSum.

Module HarmonicOscillatorInv.
Import HarmonicOscillator.
(** Every oscillator of the bank has its increment in step with its
    frequency and sample rate. *)
Definition increments_consistent (b : t) : Prop :=
  Forall SineWaveGeneratorRun.increment_consistent (oscillators b).
End HarmonicOscillatorInv.

Module EnvelopeRun.
Import EnvelopeProcessor.
(** The three cached rates agree with the stored times, sustain level and
    sample rate. *)
Definition rates_consistent (e : t) : Prop :=
  attackRate e = attackRate_of (attackTime e) (sampleRate e)
  /\ decayRate e = decayRate_of (sustainLevel e) (decayTime e) (sampleRate e)
  /\ releaseRate e = releaseRate_of (sustainLevel e) (releaseTime e) (sampleRate e).

(** An idle envelope rests at level 0. *)
Definition idle_at_zero (e : t) : Prop :=
  currentState e = Idle -> currentLevel e = F32.zero.

(** The level, the sustain level and the three rates are binary32 numbers
    of the unit interval. *)
Definition levels_in_unit (e : t) : Prop :=
  HarmonicStateInv.unit_value (currentLevel e) /\ HarmonicStateInv.unit_value (sustainLevel e)
  /\ HarmonicStateInv.unit_value (attackRate e) /\ HarmonicStateInv.unit_value (decayRate e)
  /\ HarmonicStateInv.unit_value (releaseRate e).

(** [n] successive calls of [getNextSample]. *)
Fixpoint run (n : nat) (e : t) : list float * t :=
  match n with
  | O => ([], e)
  | S n' =>
      let '(x, e) := getNextSample e in
      let '(xs, e) := run n' e in
      (x :: xs, e)
  end.

(** The moves [getNextSample] can make. *)
Definition may_step (s s' : State) : bool :=
  match s, s' with
  | Idle, Idle
  | Attack, Attack | Attack, Decay
  | Decay, Decay | Decay, Sustain
  | Sustain, Sustain
  | Release, Release | Release, Idle => true
  | _, _ => false
  end.
End EnvelopeRun.

(** Modelled from the spec: [juce::AudioBuffer<float>] belongs to the JUCE
    library, which the repository does not contain; the spec calls it a
    caller-owned multi-channel float buffer into which samples are
    accumulated.  A buffer is the list of its channels, and
    [addSample (ch, pos, x)] does [channel[ch][pos] += x].  JUCE asserts
    that [ch] and [pos] are in range; out of range this model leaves the
    buffer as it is. *)
Module AudioBuffer.
Abbreviation t := (list (list float)).
Definition getNumChannels (buf : t) : nat := length buf.
Definition channel_add (pos : Z) (x : float) (chan : list float) : list float :=
  if 0 <=? pos then alter (fun y => F32.add y x) (Z.to_nat pos) chan else chan.
Definition addSample (ch : nat) (pos : Z) (x : float) (buf : t) : t :=
  alter (channel_add pos x) ch buf.
(** A block of samples added into one channel from position [start] on. *)
Fixpoint mix_into (start : Z) (samples : list float) (chan : list float) : list float :=
  match samples with
  | [] => chan
  | x :: xs => mix_into (start + 1) xs (channel_add start x chan)
  end.
End AudioBuffer.

Module AdditiveVoiceRender.
Import AdditiveVoice.

(** [stopNote (velocity, allowTailOff)].  [clearCurrentNote()] belongs to
    the [juce::SynthesiserVoice] base class and touches none of the members
    of [AdditiveVoice]; the boolean returned tells whether it was called. *)
Definition stopNote (allowTailOff : bool) (v : t) : t * bool :=
  if allowTailOff
  then (mk (oscillator v) (EnvelopeProcessor.noteOff (envelope v)) (currentVelocity v),
        false)
  else (v, true).

Section WithSin.
Variable sinf : float -> float.

(** The body of the sample loop of [renderNextBlock], up to the write into
    the buffer: the envelope is stepped first, then the bank. *)
Definition next_sample (v : t) : float * t :=
  let '(envLevel, env) := EnvelopeProcessor.getNextSample (envelope v) in
  let '(out, osc) := HarmonicOscillator.getNextSample sinf (oscillator v) in
  (F32.mul (F32.mul out envLevel) (currentVelocity v),
   mk osc env (currentVelocity v)).

(** Returns the voice, the buffer and whether [clearCurrentNote()] was
    called. *)
Definition renderNextBlock (outputBuffer : AudioBuffer.t) (startSample numSamples : Z)
    (v : t) : t * AudioBuffer.t * bool :=
  if negb (EnvelopeProcessor.isActive (envelope v)) then (v, outputBuffer, true)
  else
    let '(v, outputBuffer) :=
      for_upto (Z.to_nat numSamples)
        (fun i '(v, buf) =>
           let '(sample, v) := next_sample v in
           (v, for_upto (AudioBuffer.getNumChannels buf)
                 (fun ch buf =>
                    AudioBuffer.addSample ch (startSample + Z.of_nat i) sample buf)
                 buf))
        (v, outputBuffer) in
    (v, outputBuffer, false).

(** [n] successive samples of the voice and the voice afterwards. *)
Fixpoint run (n : nat) (v : t) : list float * t :=
  match n with
  | O => ([], v)
  | S n' =>
      let '(x, v) := next_sample v in
      let '(xs, v) := run n' v in
      (x :: xs, v)
  end.
End WithSin.
End AdditiveVoiceRender.

(** Modelled from the spec: [juce::Synthesiser] belongs to the JUCE
    library, which the repository does not contain; the spec describes it as
    a fixed pool of voices.  The processor uses it as the holder of its
    voices ([clearVoices], [addVoice], [getNumVoices], [getVoice]), so it is
    the list of the voices added; all of them are [AdditiveVoice]s, hence
    every [dynamic_cast<AdditiveVoice*>] succeeds. *)
Module AdditiveSynthAudioProcessor.
Record t : Type := mk {
  voices : list AdditiveVoice.t;
  harmonicState : HarmonicState.t;
  morphingEngine : MorphingEngine.t
}.

Definition updateVoicesWithHarmonicState (p : t) : t :=
  mk (for_upto (length (voices p))
        (fun i vs => alter (AdditiveVoice.setHarmonicState (harmonicState p)) i vs)
        (voices p))
     (harmonicState p) (morphingEngine p).

(** The constructor: [MAX_VOICES] voices, the "Saw" preset, pushed to the
    voices. *)
Definition new : t :=
  let p := mk (for_upto (Z.to_nat Constants.MAX_VOICES)
                 (fun _ vs => vs ++ [AdditiveVoice.new]) [])
              HarmonicState.new MorphingEngine.new in
  let p := mk (voices p) (HarmonicState.loadPreset "Saw" (harmonicState p))
              (morphingEngine p) in
  updateVoicesWithHarmonicState p.

Definition prepareToPlay (sampleRate : double) (samplesPerBlock : Z) (p : t) : t :=
  mk (for_upto (length (voices p))
        (fun i vs => alter (AdditiveVoice.prepare sampleRate) i vs) (voices p))
     (harmonicState p) (morphingEngine p).

Definition setHarmonicState (state : HarmonicState.t) (p : t) : t :=
  updateVoicesWithHarmonicState
    (mk (voices p) (HarmonicState.copyFrom state (harmonicState p)) (morphingEngine p)).

Definition setEnvelopeParameters (attack decay sustain release : float) (p : t) : t :=
  mk (for_upto (length (voices p))
        (fun i vs => alter (AdditiveVoice.setEnvelope attack decay sustain release) i vs)
        (voices p))
     (harmonicState p) (morphingEngine p).
End AdditiveSynthAudioProcessor.

(** A voice prepared at 44100 Hz, loaded with the "Sine" preset and started
    on note 69 at velocity 0.5; a silent two-channel buffer of four samples;
    an envelope holding its sustain level. *)
Definition voice_playing : AdditiveVoice.t :=
  AdditiveVoice.startNote pow_unit 69 F32.half
    (AdditiveVoice.setHarmonicState (HarmonicState.loadPreset "Sine" HarmonicState.new)
       (AdditiveVoice.prepare (F64.of_int 44100) AdditiveVoice.new)).
Definition buffer_stereo : AudioBuffer.t :=
  [replicate 4 F32.zero; replicate 4 F32.zero].
Definition envelope_sustaining : EnvelopeProcessor.t :=
  EnvelopeProcessor.with_state_level EnvelopeProcessor.Sustain (F32.lit 7 10)
    (EnvelopeProcessor.prepare (F64.of_int 44100) EnvelopeProcessor.new).

(* ===================================================================== *)
(** ** Facts on binary32 arithmetic                                       *)
(* ===================================================================== *)

(** The literal of [TWO_PI]: a 24-bit mantissa within half a unit in the
    last place of the decimal 6.28318530717958647692. *)
Lemma TWO_PI_literal :
  exists m : positive,
    Constants.TWO_PI = S754_finite false m (-21)
    /\ Z.pos (digits2_pos m) = 24
    /\ 2 * Z.abs (628318530717958647692 * 2 ^ 21 - Z.pos m * 10 ^ 20) < 10 ^ 20.
Proof. exists 13176795%positive. repeat split. Qed.

(** Multiplying a mantissa by 2^23 (the mantissa of 1.0f) appends 23 zero
    bits, which the rounding shift removes again without loss. *)
Lemma digits2_pos_shift23 (m : positive) :
  Z.pos (digits2_pos (Pos.mul m 8388608)) = Z.pos (digits2_pos m) + 23.
Proof.
  rewrite Pos.mul_comm.
  change (8388608 * m)%positive
    with (m~0~0~0~0~0~0~0~0~0~0~0~0~0~0~0~0~0~0~0~0~0~0~0)%positive.
  cbn [digits2_pos].
  repeat (rewrite (Pos2Z.inj_succ _)). lia.
Qed.

Lemma shr_1_shift23 (m : positive) :
  SpecFloat.iter_pos shr_1 23
    (Build_shr_record (Z.pos (Pos.mul m 8388608)) false false)
  = Build_shr_record (Z.pos m) false false.
Proof. rewrite Pos.mul_comm. reflexivity. Qed.

Lemma binary_round_aux_canonical s m e :
  bounded 24 128 m e = true ->
  binary_round_aux 24 128 s (Z.pos m) e loc_Exact = S754_finite s m e.
Proof.
  intros Hb. unfold bounded, canonical_mantissa in Hb.
  apply andb_true_iff in Hb as [Hc He].
  apply Z.eqb_eq in Hc.
  unfold binary_round_aux, shr_fexp.
  cbn [Zdigits2 shr_record_of_loc].
  rewrite Hc, Z.sub_diag. cbn [shr shr_m loc_of_shr_record round_nearest_even].
  cbn [Zdigits2 shr_record_of_loc].
  rewrite Hc, Z.sub_diag. cbn [shr shr_m].
  now rewrite He.
Qed.

Lemma mul_one_finite s m e :
  bounded 24 128 m e = true ->
  F32.mul (S754_finite s m e) F32.one = S754_finite s m e.
Proof.
  intros Hb.
  unfold F32.mul, F32.one, SFmul. rewrite xorb_false_r.
  pose proof Hb as Hb'.
  unfold bounded, canonical_mantissa in Hb.
  apply andb_true_iff in Hb as [Hc He].
  apply Z.eqb_eq in Hc.
  unfold binary_round_aux at 1.
  unfold shr_fexp at 1. cbn [Zdigits2 shr_record_of_loc].
  rewrite digits2_pos_shift23.
  replace (Z.pos (digits2_pos m) + 23 + (e + -23)) with (Z.pos (digits2_pos m) + e) by lia.
  unfold F32.prec, F32.emax. rewrite Hc.
  replace (e - (e + -23)) with 23 by lia.
  cbn [shr]. rewrite shr_1_shift23.
  cbn [shr_m loc_of_shr_record round_nearest_even].
  replace (e + -23 + 23) with e by lia.
  unfold shr_fexp. cbn [Zdigits2 shr_record_of_loc].
  rewrite Hc, Z.sub_diag. cbn [shr shr_m].
  now rewrite He.
Qed.

Lemma fgt_jlimit_thousandth (a : float) :
  fgt (jlimit F32.zero F32.one a) F32.thousandth = fgt a F32.thousandth.
Proof.
  unfold jlimit, fgt, flt, F32.zero, F32.one, F32.thousandth.
  destruct a as [s | s | | s m e]; try (destruct s; reflexivity); try reflexivity.
  destruct s.
  - reflexivity.
  - unfold SFltb, SFcompare.
    destruct (Z.compare_spec (-23) e) as [<- | Hlt | Hgt].
    + destruct (Pos.compare_cont Eq 8388608 m) eqn:Hm; reflexivity.
    + replace (-33 ?= e) with Lt by (symmetry; apply Z.compare_lt_iff; lia).
      reflexivity.
    + reflexivity.
Qed.

Lemma SFcompare_antisym (x y : spec_float) :
  SFcompare y x = option_map CompOpp (SFcompare x y).
Proof.
  destruct x as [sx | sx | | sx mx ex], y as [sy | sy | | sy my ey];
    try reflexivity;
    try (destruct sx; reflexivity);
    try (destruct sy; reflexivity);
    try (destruct sx, sy; reflexivity).
  unfold SFcompare.
  rewrite (Z.compare_antisym ex ey).
  change (Pos.compare_cont Eq my mx) with (Pos.compare my mx).
  change (Pos.compare_cont Eq mx my) with (Pos.compare mx my).
  rewrite (Pos.compare_antisym mx my).
  destruct sx, sy, (ex ?= ey), (mx ?= my)%positive; reflexivity.
Qed.

Lemma fge_not_flt (x y : spec_float) : fge x y = true -> flt x y = false.
Proof.
  unfold fge, flt, SFleb, SFltb. rewrite (SFcompare_antisym y x).
  destruct (SFcompare y x) as [[ | | ] | ]; simpl; congruence.
Qed.

Lemma feq_refl_finite (x : spec_float) : is_finite x = true -> feq x x = true.
Proof.
  destruct x as [s | s | | s m e]; try discriminate; intros _; try reflexivity.
  unfold feq, SFeqb, SFcompare. rewrite Z.compare_refl.
  change (Pos.compare_cont Eq m m) with (Pos.compare m m).
  rewrite Pos.compare_refl. destruct s; reflexivity.
Qed.

Lemma SFcompare_total (x y : spec_float) :
  is_nan x = false -> is_nan y = false -> exists c, SFcompare x y = Some c.
Proof.
  destruct x as [sx | sx | | sx mx ex], y as [sy | sy | | sy my ey];
    try discriminate; intros _ _; cbn; eauto.
Qed.

Lemma not_flt_fge (x y : spec_float) :
  is_nan x = false -> is_nan y = false -> flt x y = false -> fge x y = true.
Proof.
  intros Hx Hy. unfold flt, fge, SFltb, SFleb.
  rewrite (SFcompare_antisym x y).
  destruct (SFcompare_total x y Hx Hy) as [c ->]. now destruct c.
Qed.

(** The number of binary digits of a mantissa brackets it between two
    powers of 2. *)
Lemma digits2_pos_bounds (p : positive) :
  2 ^ (Z.pos (digits2_pos p) - 1) <= Z.pos p < 2 ^ Z.pos (digits2_pos p).
Proof.
  induction p as [p IH | p IH |].
  - cbn [digits2_pos]. rewrite Pos2Z.inj_succ, (Pos2Z.inj_xI p).
    replace (Z.succ (Z.pos (digits2_pos p)) - 1) with (Z.succ (Z.pos (digits2_pos p) - 1)) by lia.
    rewrite !Z.pow_succ_r by lia. lia.
  - cbn [digits2_pos]. rewrite Pos2Z.inj_succ, (Pos2Z.inj_xO p).
    replace (Z.succ (Z.pos (digits2_pos p)) - 1) with (Z.succ (Z.pos (digits2_pos p) - 1)) by lia.
    rewrite !Z.pow_succ_r by lia. lia.
  - cbn. lia.
Qed.

Lemma digits2_pos_iter_xO (p k : positive) :
  Z.pos (digits2_pos (Pos.iter xO p k)) = Z.pos (digits2_pos p) + Z.pos k.
Proof.
  induction k as [| k IH] using Pos.peano_ind.
  - cbn. rewrite Pos2Z.inj_succ. lia.
  - rewrite Pos.iter_succ. cbn [digits2_pos]. rewrite Pos2Z.inj_succ, IH. lia.
Qed.

(** An integer below 2^24 placed at exponent -21 is a binary32 number: rounding
    it only normalises the mantissa. *)
Lemma binary_round_small (q : positive) :
  Z.pos q < 2 ^ 24 ->
  exists q' e',
    binary_round 24 128 false q (-21) = S754_finite false q' e'
    /\ (e' < -21 \/ (e' = -21 /\ q' = q)).
Proof.
  intros Hq.
  pose proof (digits2_pos_bounds q) as Hd.
  assert (Hdig : Z.pos (digits2_pos q) <= 24).
  { destruct (Z.le_gt_cases (Z.pos (digits2_pos q)) 24) as [H | H]; [exact H |].
    exfalso. assert (2 ^ 24 <= 2 ^ (Z.pos (digits2_pos q) - 1)) by (apply Z.pow_le_mono_r; lia).
    lia. }
  unfold binary_round, shl_align.
  assert (Hf : fexp 24 128 (Z.pos (digits2_pos q) + -21) = Z.pos (digits2_pos q) - 45).
  { unfold fexp, emin. lia. }
  rewrite Hf.
  destruct (Z.pos (digits2_pos q) - 45 - -21) as [| k | k] eqn:Hk; try lia.
  - exists q, (-21). split; [| right; split; reflexivity].
    apply binary_round_aux_canonical.
    unfold bounded, canonical_mantissa. rewrite Hf.
    apply andb_true_iff. split; [apply Z.eqb_eq; lia | reflexivity].
  - exists (Pos.iter xO q k), (Z.pos (digits2_pos q) - 45). split; [| left; lia].
    apply binary_round_aux_canonical.
    unfold bounded, canonical_mantissa. rewrite digits2_pos_iter_xO.
    apply andb_true_iff. split; [apply Z.eqb_eq; unfold fexp, emin; lia | apply Z.leb_le; lia].
Qed.

(** A valid binary32 number with exponent -21 or -20 has a full 24-bit
    mantissa. *)
Lemma valid_mantissa_24 (s : bool) (m : positive) (e : Z) :
  F32.valid (S754_finite s m e) = true -> -149 < e ->
  8388608 <= Z.pos m < 16777216.
Proof.
  unfold F32.valid, valid_binary, bounded, canonical_mantissa.
  intros [Hc _]%andb_true_iff He. apply Z.eqb_eq in Hc.
  pose proof (digits2_pos_bounds m) as Hd.
  assert (Hdig : Z.pos (digits2_pos m) = 24)
    by (unfold fexp, emin, F32.prec, F32.emax in Hc; lia).
  rewrite Hdig in Hd. exact Hd.
Qed.

Lemma flt_finite_pos (m1 : positive) (e1 : Z) (m2 : positive) (e2 : Z) :
  flt (S754_finite false m1 e1) (S754_finite false m2 e2) = true
  <-> e1 < e2 \/ (e1 = e2 /\ Z.pos m1 < Z.pos m2).
Proof.
  unfold flt, SFltb, SFcompare.
  destruct (Z.compare_spec e1 e2) as [-> | H | H].
  - change (Pos.compare_cont Eq m1 m2) with (Pos.compare m1 m2).
    destruct (Pos.compare_spec m1 m2) as [-> | H | H];
      (split; [try discriminate; intros _; lia | intros [? | [_ ?]]; lia || reflexivity]).
  - split; [intros _; lia | reflexivity].
  - split; [discriminate | lia].
Qed.

Lemma fle_finite_pos (m1 : positive) (e1 : Z) (m2 : positive) (e2 : Z) :
  fle (S754_finite false m1 e1) (S754_finite false m2 e2) = true
  <-> e1 < e2 \/ (e1 = e2 /\ Z.pos m1 <= Z.pos m2).
Proof.
  unfold fle, SFleb, SFcompare.
  destruct (Z.compare_spec e1 e2) as [-> | H | H].
  - change (Pos.compare_cont Eq m1 m2) with (Pos.compare m1 m2).
    destruct (Pos.compare_spec m1 m2) as [-> | H | H];
      (split; [try discriminate; intros _; lia | intros [? | [_ ?]]; lia || reflexivity]).
  - split; [intros _; lia | reflexivity].
  - split; [discriminate | lia].
Qed.

Lemma sub_TWO_PI_range (p : float) :
  F32.valid p = true ->
  fge p Constants.TWO_PI = true -> flt p TWO_PI_twice = true ->
  fle F32.zero (F32.sub p Constants.TWO_PI) = true
  /\ flt (F32.sub p Constants.TWO_PI) Constants.TWO_PI = true.
Proof.
  destruct p as [s | s | | s m e]; try (destruct s; discriminate); try discriminate.
  destruct s; [discriminate |].
  unfold fge, Constants.TWO_PI, TWO_PI_twice.
  intros Hv Hge Hlt.
  apply (fle_finite_pos 13176795 (-21) m e) in Hge.
  apply (flt_finite_pos m e 13176795 (-20)) in Hlt.
  assert (Hm : 8388608 <= Z.pos m < 16777216).
  { apply (valid_mantissa_24 false m e Hv). lia. }
  assert (Hsub : exists d, 0 <= d < 13176795
             /\ F32.sub (S754_finite false m e) (S754_finite false 13176795 (-21))
                = binary_normalize 24 128 d (-21) false).
  { assert (He : e = -21 \/ e = -20) by lia.
    destruct He as [-> | ->].
    - exists (Z.pos m - 13176795). split; [lia | reflexivity].
    - exists (Z.pos m~0 - 13176795). split; [| reflexivity].
      rewrite (Pos2Z.inj_xO m). lia. }
  destruct Hsub as (d & Hd & ->).
  destruct d as [| q | q]; [split; reflexivity | | lia].
  cbn [binary_normalize].
  destruct (binary_round_small q) as (q' & e' & -> & He'); [lia |].
  split; [reflexivity |].
  apply flt_finite_pos. destruct He' as [He' | [-> ->]]; [left | right]; lia.
Qed.

(** The wrap of [advance] succeeds on a sum below twice [TWO_PI]. *)
Lemma wrap_in_range (p : float) :
  F32.valid p = true ->
  fle F32.zero p = true -> flt p TWO_PI_twice = true ->
  let r := if fge p Constants.TWO_PI then F32.sub p Constants.TWO_PI else p in
  fle F32.zero r = true /\ flt r Constants.TWO_PI = true.
Proof.
  intros Hv H0 H4 r. subst r.
  destruct (fge p Constants.TWO_PI) eqn:Hge.
  - now apply sub_TWO_PI_range.
  - split; [exact H0 |].
    destruct (flt p Constants.TWO_PI) eqn:Hlt; [reflexivity |].
    rewrite not_flt_fge in Hge; [discriminate | | reflexivity | exact Hlt].
    destruct p; [reflexivity | reflexivity | discriminate | reflexivity].
Qed.

(** Unless its argument is NaN, [jlimit 0 1] lands in [0,1]. *)
Lemma jlimit_in_unit_interval (a : float) :
  is_nan a = false ->
  fle F32.zero (jlimit F32.zero F32.one a) = true
  /\ fle (jlimit F32.zero F32.one a) F32.one = true.
Proof.
  intros Hnan. unfold jlimit.
  destruct (flt a F32.zero) eqn:Hlo; [split; reflexivity |].
  destruct (flt F32.one a) eqn:Hhi; [split; reflexivity |].
  split.
  - now apply (not_flt_fge a F32.zero).
  - now apply (not_flt_fge F32.one a).
Qed.

Lemma jlimit_zero : jlimit F32.zero F32.one F32.zero = F32.zero.
Proof. reflexivity. Qed.
Lemma jlimit_one : jlimit F32.zero F32.one F32.one = F32.one.
Proof. reflexivity. Qed.
Lemma jlimit_half : jlimit F32.zero F32.one F32.half = F32.half.
Proof. reflexivity. Qed.

Lemma mul_one (x : float) :
  is_finite x = true -> F32.valid x = true -> F32.mul x F32.one = x.
Proof.
  destruct x as [s | s | | s m e]; try discriminate; intros _ Hv.
  - destruct s; reflexivity.
  - now apply mul_one_finite.
Qed.

Lemma mul_zero (x : float) :
  is_finite x = true -> exists s, F32.mul x F32.zero = S754_zero s.
Proof.
  destruct x as [s | s | | s m e]; try discriminate; intros _; eexists; reflexivity.
Qed.

Lemma add_zero_r (x : float) (s : bool) :
  is_finite x = true -> feq (F32.add x (S754_zero s)) x = true.
Proof.
  destruct x as [sx | sx | | sx m e]; try discriminate; intros _.
  - destruct sx, s; reflexivity.
  - cbn. now apply (feq_refl_finite (S754_finite sx m e)).
Qed.

Lemma add_zero_l (x : float) (s : bool) :
  is_finite x = true -> feq (F32.add (S754_zero s) x) x = true.
Proof.
  destruct x as [sx | sx | | sx m e]; try discriminate; intros _.
  - destruct sx, s; reflexivity.
  - cbn. now apply (feq_refl_finite (S754_finite sx m e)).
Qed.

Lemma blend_zero (a b : float) :
  is_finite a = true -> F32.valid a = true -> is_finite b = true ->
  feq (HarmonicState.blend a b F32.zero) a = true.
Proof.
  intros Ha Hv Hb. unfold HarmonicState.blend.
  change (F32.sub F32.one F32.zero) with F32.one.
  rewrite (mul_one a Ha Hv).
  destruct (mul_zero b Hb) as [s ->].
  now apply add_zero_r.
Qed.

Lemma blend_one (a b : float) :
  is_finite a = true -> is_finite b = true -> F32.valid b = true ->
  feq (HarmonicState.blend a b F32.one) b = true.
Proof.
  intros Ha Hb Hv. unfold HarmonicState.blend.
  change (F32.sub F32.one F32.one) with F32.zero.
  rewrite (mul_one b Hb Hv).
  destruct (mul_zero a Ha) as [s ->].
  now apply add_zero_l.
Qed.

Lemma blend_half (a b : float) :
  HarmonicState.blend a b F32.half = F32.add (F32.mul a F32.half) (F32.mul b F32.half).
Proof. reflexivity. Qed.

(* ===================================================================== *)
(** ** Loops over an array                                                *)
(* ===================================================================== *)

Section Loops.
Context {A : Type}.

Lemma range_step_seq (start count : nat) :
  range_step start 1 count = seq start count.
Proof.
  revert start. induction count as [| c IH]; intros start; [reflexivity |].
  cbn [range_step seq]. rewrite IH. now rewrite Nat.add_1_r.
Qed.

(** A loop whose turn [i] rewrites cell [i] only. *)
Lemma fold_alter_lookup (g : nat -> A -> A) (indices : list nat) (l : list A) (j : nat) :
  NoDup indices ->
  fold_left (fun acc i => alter (g i) i acc) indices l !! j
  = if decide (j ∈ indices) then g j <$> l !! j else l !! j.
Proof.
  revert l. induction indices as [| i indices IH]; intros l Hnd.
  - cbn. rewrite decide_False; [reflexivity | apply not_elem_of_nil].
  - apply NoDup_cons in Hnd as [Hi Hnd]. cbn [fold_left].
    rewrite (IH _ Hnd).
    destruct (decide (j = i)) as [-> | Hne].
    + rewrite (decide_False (P := i ∈ indices)) by assumption.
      rewrite (decide_True (P := i ∈ i :: indices)) by (apply elem_of_cons; now left).
      rewrite list_lookup_alter. now rewrite decide_True.
    + rewrite list_lookup_alter_ne by congruence.
      destruct (decide (j ∈ indices)) as [Hin | Hnin].
      * rewrite decide_True; [reflexivity | apply elem_of_cons; now right].
      * rewrite decide_False; [reflexivity |].
        intros [? | ?]%elem_of_cons; congruence.
Qed.

Lemma fold_alter_length (g : nat -> A -> A) (indices : list nat) (l : list A) :
  length (fold_left (fun acc i => alter (g i) i acc) indices l) = length l.
Proof.
  revert l. induction indices as [| i indices IH]; intros l; [reflexivity |].
  cbn [fold_left]. now rewrite IH, length_alter.
Qed.

Lemma alter_const_at (f : A -> A) (d : A) (i : nat) (l : list A) :
  alter (fun _ => f (default d (l !! i))) i l = alter f i l.
Proof.
  apply list_eq; intros j. destruct (decide (j = i)) as [-> | Hne].
  - rewrite !list_lookup_alter, !decide_True by reflexivity. now destruct (l !! i).
  - now rewrite !list_lookup_alter_ne by congruence.
Qed.
End Loops.

(* ===================================================================== *)
(** ** HarmonicState and MorphingEngine                                   *)
(* ===================================================================== *)

Section HarmonicStateFacts.
Import HarmonicData HarmonicState.

Lemma in_range_spec (index : Z) :
  in_range index = true <-> 0 <= index < Constants.MAX_HARMONICS.
Proof. unfold in_range. rewrite andb_true_iff, Z.leb_le, Z.ltb_lt. tauto. Qed.

Lemma in_range_false (index : Z) :
  index < 0 \/ Constants.MAX_HARMONICS <= index -> in_range index = false.
Proof.
  intros H. apply not_true_is_false. rewrite in_range_spec. lia.
Qed.

Lemma in_range_to_nat (index : Z) (st : t) :
  wf st -> in_range index = true -> (Z.to_nat index < length (harmonics st))%nat.
Proof.
  unfold wf. intros -> H%in_range_spec. unfold Constants.MAX_HARMONICS in *. lia.
Qed.

Lemma at_update_eq (i : nat) f (st : t) :
  (i < length (harmonics st))%nat -> at_ (update i f st) i = f (at_ st i).
Proof.
  intros Hi. unfold at_, update. cbn [harmonics].
  rewrite list_lookup_alter, decide_True by reflexivity.
  destruct (lookup_lt_is_Some_2 _ _ Hi) as [h ->]. reflexivity.
Qed.

Lemma at_update_ne (i j : nat) f (st : t) :
  i <> j -> at_ (update i f st) j = at_ st j.
Proof.
  intros Hne. unfold at_, update. cbn [harmonics].
  now rewrite list_lookup_alter_ne.
Qed.

Lemma update_wf (i : nat) f (st : t) : wf st -> wf (update i f st).
Proof. unfold wf, update. cbn [harmonics]. now rewrite length_alter. Qed.

Lemma new_wf : wf new.
Proof. reflexivity. Qed.

Lemma clear_eq_new (st : t) : wf st -> clear st = new.
Proof.
  unfold wf, clear. intros Hlen.
  rewrite (const_fmap _ (harmonics st) HarmonicData.new) by reflexivity.
  now rewrite Hlen.
Qed.

Lemma loadPreset_from_new (name : string) (st : t) :
  wf st -> loadPreset name st = loadPreset name new.
Proof.
  intros Hwf. unfold loadPreset.
  now rewrite (clear_eq_new st Hwf), (clear_eq_new new new_wf).
Qed.

Lemma copyFrom_eq (other st : t) : copyFrom other st = other.
Proof. now destruct other. Qed.

Lemma for_each_update (g : nat -> HarmonicData.t -> HarmonicData.t)
    (body : nat -> t -> t) (indices : list nat) (st : t) :
  (forall i s, body i s = update i (g i) s) ->
  harmonics (for_each indices body st)
  = fold_left (fun acc i => alter (g i) i acc) indices (harmonics st).
Proof.
  intros Hbody. unfold for_each. revert st.
  induction indices as [| i indices IH]; intros st; [reflexivity |].
  cbn [fold_left]. rewrite IH, Hbody. reflexivity.
Qed.

Lemma morphTo_at (target : t) (amount : float) (st : t) (i : nat) :
  wf st -> (i < Z.to_nat Constants.MAX_HARMONICS)%nat ->
  at_ (morphTo target amount st) i
  = morph_cell target (jlimit F32.zero F32.one amount) i (at_ st i).
Proof.
  intros Hwf Hi. unfold morphTo, for_upto, at_.
  rewrite (for_each_update (morph_cell target (jlimit F32.zero F32.one amount))).
  - rewrite range_step_seq, fold_alter_lookup by apply NoDup_seq.
    rewrite decide_True by (apply elem_of_seq; lia).
    destruct (lookup_lt_is_Some_2 (harmonics st) i) as [h ->]; [| reflexivity].
    rewrite Hwf. exact Hi.
  - intros k s. unfold update, morph_cell. cbn [harmonics].
    f_equal. now rewrite list_alter_alter_eq.
Qed.

Lemma morphTo_wf (target : t) (amount : float) (st : t) :
  wf st -> wf (morphTo target amount st).
Proof.
  intros Hwf. unfold morphTo, for_upto, wf.
  rewrite (for_each_update (morph_cell target (jlimit F32.zero F32.one amount))).
  - now rewrite fold_alter_length.
  - intros k s. unfold update, morph_cell. cbn [harmonics].
    f_equal. now rewrite list_alter_alter_eq.
Qed.

(** [morphTo] never writes [enabled]. *)
Lemma morphTo_keeps_enabled (target : t) (amount : float) (st : t) (i : nat) :
  wf st -> (i < Z.to_nat Constants.MAX_HARMONICS)%nat ->
  enabled (at_ (morphTo target amount st) i) = enabled (at_ st i).
Proof. intros Hwf Hi. now rewrite morphTo_at. Qed.
End HarmonicStateFacts.

Section Claims_HarmonicState.
Import HarmonicData HarmonicState.

(** C3.  [loadPreset("Triangle")] leaves negative amplitudes in slots 2, 6,
    10, ..., 30: whatever the spectrum held before, the amplitude read back
    from slot 2 is -(1/9) rounded to binary32, and in each of these slots
    the amplitude is below 0, so outside [0,1]. *)
Theorem loadPreset_Triangle_negative_amplitude (st : HarmonicState.t) :
  wf st ->
  getHarmonicAmplitude 2 (loadPreset "Triangle" st) = S754_finite true 14913081 (-27)
  /\ fle F32.zero (getHarmonicAmplitude 2 (loadPreset "Triangle" st)) = false
  /\ forallb (fun i => flt (getHarmonicAmplitude i (loadPreset "Triangle" st)) F32.zero)
       [2; 6; 10; 14; 18; 22; 26; 30] = true.
Proof.
  intros Hwf. rewrite (loadPreset_from_new _ st Hwf). now vm_compute.
Qed.

Lemma loadPreset_Triangle_negative_amplitude_witness :
  wf new
  /\ getHarmonicAmplitude 2 (loadPreset "Triangle" new) = S754_finite true 14913081 (-27).
Proof.
  split; [reflexivity |].
  apply (loadPreset_Triangle_negative_amplitude new). reflexivity.
Defined.

(** C4.  [morphTo] writes amplitudes without recomputing [enabled]: morphing
    a cleared spectrum all the way to the "Saw" preset leaves slot 0 with
    amplitude 1.0 > 0.001 and [enabled] still false. *)
Theorem morphTo_leaves_enabled_stale :
  let st := morphTo (loadPreset "Saw" new) F32.one new in
  amplitude (getHarmonic 0 st) = F32.one
  /\ fgt (amplitude (getHarmonic 0 st)) F32.thousandth = true
  /\ enabled (getHarmonic 0 st) = false.
Proof. now vm_compute. Qed.

(** C5.  For an index in [0, MAX_HARMONICS) and any float [a],
    [setHarmonicAmplitude(i, a)] followed by [getHarmonicAmplitude(i)] gives
    [a] clamped to [0,1], and the slot's [enabled] flag is
    (clamped a > 0.001). *)
Theorem setHarmonicAmplitude_then_get (st : HarmonicState.t) (i : Z) (a : float) :
  wf st -> 0 <= i < Constants.MAX_HARMONICS ->
  getHarmonicAmplitude i (setHarmonicAmplitude i a st) = jlimit F32.zero F32.one a
  /\ enabled (getHarmonic i (setHarmonicAmplitude i a st))
     = fgt (jlimit F32.zero F32.one a) F32.thousandth.
Proof.
  intros Hwf Hi. apply in_range_spec in Hi.
  unfold getHarmonicAmplitude, getHarmonic, setHarmonicAmplitude. rewrite Hi.
  rewrite at_update_eq by now apply in_range_to_nat.
  cbn [amplitude enabled with_enabled with_amplitude].
  split; [reflexivity |]. symmetry. apply fgt_jlimit_thousandth.
Qed.

Lemma setHarmonicAmplitude_then_get_witness :
  getHarmonicAmplitude 3 (setHarmonicAmplitude 3 (F32.of_int 7) new) = F32.one
  /\ enabled (getHarmonic 3 (setHarmonicAmplitude 3 (F32.of_int 7) new)) = true.
Proof.
  apply (setHarmonicAmplitude_then_get new 3 (F32.of_int 7)).
  - reflexivity.
  - unfold Constants.MAX_HARMONICS. lia.
Defined.

(** C6, as stated, fails: morphing with amount 0 towards a target whose
    slot 0 holds an infinite phase turns the phase of slot 0 from 0 into
    NaN (0 * 1 + inf * 0), so the slot is not unchanged. *)
Lemma morphTo_amount_zero_changes_phase :
  phase (getHarmonic 0 spectrum_half) = F32.zero
  /\ phase (getHarmonic 0 (morphTo spectrum_inf_phase F32.zero spectrum_half)) = S754_nan
  /\ feq (phase (getHarmonic 0 (morphTo spectrum_inf_phase F32.zero spectrum_half)))
         (phase (getHarmonic 0 spectrum_half)) = false.
Proof. now vm_compute. Qed.

(** C6, amended.  [morphTo(target, t)] clamps [t] to [0,1] and replaces, in
    every slot, amplitude and phase by self*(1-t) + target*t computed in
    single precision.  With t = 0 a field is unchanged and with t = 1 it
    equals the target's (both as compared by [==]) provided the field is
    finite in self and in target; with t = 0.5 it is self*0.5 + target*0.5. *)
Theorem morphTo_blend (target : HarmonicState.t) (t : float) (st : HarmonicState.t) (i : Z) :
  wf st -> 0 <= i < Constants.MAX_HARMONICS ->
  let self := getHarmonic i st in
  let goal := getHarmonic i target in
  let after amount := getHarmonic i (morphTo target amount st) in
  (amplitude (after t)
     = blend (amplitude self) (amplitude goal) (jlimit F32.zero F32.one t)
   /\ phase (after t)
     = blend (phase self) (phase goal) (jlimit F32.zero F32.one t))
  /\ (is_finite (amplitude self) = true -> F32.valid (amplitude self) = true ->
      is_finite (amplitude goal) = true -> F32.valid (amplitude goal) = true ->
      feq (amplitude (after F32.zero)) (amplitude self) = true
      /\ feq (amplitude (after F32.one)) (amplitude goal) = true)
  /\ (is_finite (phase self) = true -> F32.valid (phase self) = true ->
      is_finite (phase goal) = true -> F32.valid (phase goal) = true ->
      feq (phase (after F32.zero)) (phase self) = true
      /\ feq (phase (after F32.one)) (phase goal) = true)
  /\ amplitude (after F32.half)
     = F32.add (F32.mul (amplitude self) F32.half) (F32.mul (amplitude goal) F32.half)
  /\ phase (after F32.half)
     = F32.add (F32.mul (phase self) F32.half) (F32.mul (phase goal) F32.half).
Proof.
  intros Hwf Hi self goal after.
  assert (Hafter : forall amount,
             after amount
             = morph_cell target (jlimit F32.zero F32.one amount) (Z.to_nat i) self).
  { intros amount. subst after self. cbv beta. unfold getHarmonic.
    apply in_range_spec in Hi. rewrite Hi.
    apply morphTo_at; [exact Hwf |].
    apply in_range_spec in Hi. unfold Constants.MAX_HARMONICS in *. lia. }
  assert (Hgoal : at_ target (Z.to_nat i) = goal).
  { subst goal. unfold getHarmonic. apply in_range_spec in Hi. now rewrite Hi. }
  rewrite !Hafter. unfold morph_cell. rewrite Hgoal.
  cbn [amplitude phase with_amplitude with_phase].
  rewrite jlimit_zero, jlimit_one, jlimit_half.
  repeat split; auto using blend_zero, blend_one.
Qed.

Lemma morphTo_blend_witness :
  feq (amplitude (getHarmonic 0 (morphTo (loadPreset "Saw" new) F32.zero spectrum_half)))
      F32.half = true
  /\ feq (amplitude (getHarmonic 0 (morphTo (loadPreset "Saw" new) F32.one spectrum_half)))
      F32.one = true.
Proof.
  assert (Hwf : wf spectrum_half) by reflexivity.
  assert (Hi : 0 <= 0 < Constants.MAX_HARMONICS) by (unfold Constants.MAX_HARMONICS; lia).
  destruct (morphTo_blend (loadPreset "Saw" new) F32.zero spectrum_half 0 Hwf Hi)
    as (_ & Hamp & _).
  apply Hamp; reflexivity.
Defined.

(** C7.  An index below 0 or at least [MAX_HARMONICS] reads as the
    sentinel (amplitude 0, phase 0, disabled) from [getHarmonic], reads as 0
    from [getHarmonicAmplitude], and makes [setHarmonic] and
    [setHarmonicAmplitude] return the spectrum as it was. *)
Theorem out_of_range_index (st : HarmonicState.t) (i : Z) :
  i < 0 \/ Constants.MAX_HARMONICS <= i ->
  getHarmonic i st = HarmonicData.mk F32.zero F32.zero false
  /\ getHarmonicAmplitude i st = F32.zero
  /\ (forall amp ph, setHarmonic i amp ph st = st)
  /\ (forall amp, setHarmonicAmplitude i amp st = st).
Proof.
  intros Hi%in_range_false.
  unfold getHarmonic, getHarmonicAmplitude, setHarmonic, setHarmonicAmplitude.
  rewrite Hi. repeat split; reflexivity.
Qed.

Lemma out_of_range_index_witness :
  getHarmonic (-1) (loadPreset "Saw" new) = HarmonicData.mk F32.zero F32.zero false
  /\ getHarmonicAmplitude 128 (loadPreset "Saw" new) = F32.zero
  /\ setHarmonic 128 F32.one F32.one (loadPreset "Saw" new) = loadPreset "Saw" new
  /\ setHarmonicAmplitude (-1) F32.one (loadPreset "Saw" new) = loadPreset "Saw" new.
Proof.
  destruct (out_of_range_index (loadPreset "Saw" new) (-1)) as (Hg & _ & _ & Hsa);
    [lia |].
  destruct (out_of_range_index (loadPreset "Saw" new) 128) as (_ & Hga & Hs & _);
    [unfold Constants.MAX_HARMONICS; lia |].
  split; [exact Hg | split; [exact Hga | split; [apply Hs | apply Hsa]]].
Defined.

End Claims_HarmonicState.

(** C8.  [getCurrentState] returns the engine as it found it (source,
    target and amount untouched), and its result is a copy of the source
    state to which [morphTo(targetState, morphAmount)] has been applied. *)
Theorem getCurrentState_pure_query (m : MorphingEngine.t) :
  snd (MorphingEngine.getCurrentState m) = m
  /\ fst (MorphingEngine.getCurrentState m)
     = HarmonicState.morphTo (MorphingEngine.targetState m) (MorphingEngine.morphAmount m)
         (HarmonicState.copyFrom (MorphingEngine.sourceState m) HarmonicState.new)
  /\ HarmonicState.copyFrom (MorphingEngine.sourceState m) HarmonicState.new
     = MorphingEngine.sourceState m.
Proof.
  unfold MorphingEngine.getCurrentState. cbn [fst snd].
  repeat split. apply copyFrom_eq.
Qed.

(* ===================================================================== *)
(** ** SineWaveGenerator                                                  *)
(* ===================================================================== *)

Section SineWaveGeneratorFacts.
Import SineWaveGenerator.
Variable sinf : float -> float.

Lemma getNextSample_silent (g : t) :
  flt (amplitude g) F32.thousandth = true -> getNextSample sinf g = (F32.zero, g).
Proof. intros H. unfold getNextSample. now rewrite H. Qed.

Lemma getNextSample_audible (g : t) :
  flt (amplitude g) F32.thousandth = false ->
  getNextSample sinf g = (F32.mul (amplitude g) (sinf (currentPhase g)), advance g).
Proof. intros H. unfold getNextSample. now rewrite H. Qed.

Lemma advance_frame (g : t) :
  sampleRate (advance g) = sampleRate g /\ frequency (advance g) = frequency g
  /\ amplitude (advance g) = amplitude g /\ phaseIncrement (advance g) = phaseIncrement g.
Proof.
  unfold advance. cbn [currentPhase with_currentPhase].
  destruct (fge _ _); repeat split.
Qed.

Lemma advance_phase (g : t) :
  currentPhase (advance g)
  = (let p := F32.add (currentPhase g) (phaseIncrement g) in
     if fge p Constants.TWO_PI then F32.sub p Constants.TWO_PI else p).
Proof.
  unfold advance. cbn [currentPhase with_currentPhase].
  now destruct (fge _ _).
Qed.

Lemma nonzero_sample_audible (g : t) :
  fne (fst (getNextSample sinf g)) F32.zero = true ->
  flt (amplitude g) F32.thousandth = false.
Proof.
  unfold getNextSample. destruct (flt _ _); [discriminate | reflexivity].
Qed.
End SineWaveGeneratorFacts.

(** C9, as stated, fails: one subtraction of 2 pi does not always wrap the
    phase into [0, 2 pi).  A generator at 100 kHz and 44100 Hz sample rate
    has a phase increment of about 14.25; its first sample, taken at phase
    0, leaves [currentPhase] at about 7.96, which is not below [TWO_PI]. *)
Lemma getNextSample_phase_not_wrapped :
  let g := generator_100kHz in
  let after := snd (SineWaveGenerator.getNextSample sin_poly g) in
  SineWaveGenerator.currentPhase g = F32.zero
  /\ fge (SineWaveGenerator.amplitude g) F32.thousandth = true
  /\ SineWaveGenerator.currentPhase after = S754_finite false 16702559 (-21)
  /\ flt (SineWaveGenerator.currentPhase after) Constants.TWO_PI = false
  /\ fge (SineWaveGenerator.currentPhase after) Constants.TWO_PI = true.
Proof. now vm_compute. Qed.

(** C9, amended.  When the amplitude is below 0.001, [getNextSample] returns
    0.0 and the generator is left exactly as it was.  When the amplitude is
    at least 0.001, the sample is amplitude * sin(currentPhase) with the
    phase read before the advance, [currentPhase] becomes
    currentPhase + phaseIncrement less [TWO_PI] once if that sum is at least
    [TWO_PI], and no other field changes; the new phase lies in
    [0, TWO_PI) whenever that sum lies in [0, 2 * TWO_PI).  [currentPhase]
    changes only when the test [amplitude < 0.001f] fails, which for an
    amplitude that is not NaN means that the amplitude is at least 0.001. *)
Theorem SineWaveGenerator_getNextSample_frame
    (sinf : float -> float) (g : SineWaveGenerator.t) :
  let after := snd (SineWaveGenerator.getNextSample sinf g) in
  let sample := fst (SineWaveGenerator.getNextSample sinf g) in
  (flt (SineWaveGenerator.amplitude g) F32.thousandth = true ->
     sample = F32.zero /\ after = g)
  /\ (fge (SineWaveGenerator.amplitude g) F32.thousandth = true ->
     sample = F32.mul (SineWaveGenerator.amplitude g)
                      (sinf (SineWaveGenerator.currentPhase g))
     /\ SineWaveGenerator.currentPhase after
        = (let p := F32.add (SineWaveGenerator.currentPhase g)
                            (SineWaveGenerator.phaseIncrement g) in
           if fge p Constants.TWO_PI then F32.sub p Constants.TWO_PI else p)
     /\ SineWaveGenerator.sampleRate after = SineWaveGenerator.sampleRate g
     /\ SineWaveGenerator.frequency after = SineWaveGenerator.frequency g
     /\ SineWaveGenerator.amplitude after = SineWaveGenerator.amplitude g
     /\ SineWaveGenerator.phaseIncrement after = SineWaveGenerator.phaseIncrement g
     /\ (let p := F32.add (SineWaveGenerator.currentPhase g)
                          (SineWaveGenerator.phaseIncrement g) in
         F32.valid p = true -> fle F32.zero p = true -> flt p TWO_PI_twice = true ->
         fle F32.zero (SineWaveGenerator.currentPhase after) = true
         /\ flt (SineWaveGenerator.currentPhase after) Constants.TWO_PI = true))
  /\ (SineWaveGenerator.currentPhase after <> SineWaveGenerator.currentPhase g ->
     flt (SineWaveGenerator.amplitude g) F32.thousandth = false
     /\ (is_nan (SineWaveGenerator.amplitude g) = false ->
         fge (SineWaveGenerator.amplitude g) F32.thousandth = true)).
Proof.
  intros after sample. subst after sample. split; [| split].
  - intros H. now rewrite (getNextSample_silent sinf g H).
  - intros H%fge_not_flt. rewrite (getNextSample_audible sinf g H). cbn [fst snd].
    split; [reflexivity |]. split; [apply advance_phase |].
    destruct (advance_frame g) as (Hsr & Hf & Ha & Hd).
    split; [exact Hsr |]. split; [exact Hf |]. split; [exact Ha |].
    split; [exact Hd |].
    intros Hv H0 H4. rewrite advance_phase. now apply wrap_in_range.
  - intros Hch.
    destruct (flt (SineWaveGenerator.amplitude g) F32.thousandth) eqn:Hlt.
    + rewrite (getNextSample_silent sinf g Hlt) in Hch. now contradiction Hch.
    + split; [reflexivity |]. intros Hnan. now apply not_flt_fge.
Qed.

Lemma SineWaveGenerator_getNextSample_frame_witness :
  (SineWaveGenerator.getNextSample sin_poly (HarmonicOscillator.at_ bank_sounding 1)
     = (F32.zero, HarmonicOscillator.at_ bank_sounding 1))
  /\ SineWaveGenerator.currentPhase
       (snd (SineWaveGenerator.getNextSample sin_poly (HarmonicOscillator.at_ bank_sounding 0)))
     = S754_finite false 8414026 (-26)
  /\ flt (SineWaveGenerator.currentPhase
            (snd (SineWaveGenerator.getNextSample sin_poly
                    (HarmonicOscillator.at_ bank_sounding 0))))
         Constants.TWO_PI = true.
Proof.
  split; [| split].
  - destruct (SineWaveGenerator_getNextSample_frame sin_poly
                (HarmonicOscillator.at_ bank_sounding 1)) as (Hsilent & _).
    destruct Hsilent as [Hs Hg]; [reflexivity |].
    rewrite (surjective_pairing (SineWaveGenerator.getNextSample _ _)).
    now rewrite Hs, Hg.
  - destruct (SineWaveGenerator_getNextSample_frame sin_poly
                (HarmonicOscillator.at_ bank_sounding 0)) as (_ & Haudible & _).
    destruct Haudible as (_ & Hp & _); [reflexivity |].
    rewrite Hp. reflexivity.
  - destruct (SineWaveGenerator_getNextSample_frame sin_poly
                (HarmonicOscillator.at_ bank_sounding 0)) as (_ & Haudible & _).
    destruct Haudible as (_ & _ & _ & _ & _ & _ & Hrange); [now vm_compute |].
    apply Hrange; now vm_compute.
Defined.

(* ===================================================================== *)
(** ** HarmonicOscillator, EnvelopeProcessor and AdditiveVoice            *)
(* ===================================================================== *)

Section HarmonicOscillatorFacts.
Import HarmonicOscillator.
Variable sinf : float -> float.

(** A loop of the bank whose turn [i] rewrites [oscillators[i]] by a
    function of the fundamental frequency, which it leaves alone. *)
Lemma for_each_update_osc
    (g : float -> nat -> SineWaveGenerator.t -> SineWaveGenerator.t)
    (body : nat -> t -> t) (indices : list nat) (b : t) :
  (forall i s, body i s = update i (g (fundamentalFrequency s) i) s) ->
  for_each indices body b
  = mk (fold_left (fun acc i => alter (g (fundamentalFrequency b) i) i acc)
          indices (oscillators b))
       (fundamentalFrequency b) (masterGain b).
Proof.
  intros Hbody. unfold for_each. revert b.
  induction indices as [| i indices IH]; intros b; [now destruct b |].
  cbn [fold_left]. rewrite IH, Hbody. reflexivity.
Qed.

Lemma setFrequency_lookup (freq : float) (b : t) (i : nat) :
  (i < Z.to_nat Constants.MAX_HARMONICS)%nat ->
  oscillators (setFrequency freq b) !! i
  = SineWaveGenerator.setFrequency (F32.mul freq (F32.of_int (Z.of_nat i + 1)))
      <$> oscillators b !! i.
Proof.
  intros Hi. unfold setFrequency, updateOscillatorFrequencies, for_upto.
  rewrite (for_each_update_osc
             (fun f k => SineWaveGenerator.setFrequency
                           (F32.mul f (F32.of_int (Z.of_nat k + 1)))))
    by reflexivity.
  cbn [oscillators fundamentalFrequency].
  rewrite range_step_seq, fold_alter_lookup by apply NoDup_seq.
  rewrite decide_True by (apply elem_of_seq; lia). reflexivity.
Qed.

Lemma setFrequency_fundamental (freq : float) (b : t) :
  fundamentalFrequency (setFrequency freq b) = freq.
Proof.
  unfold setFrequency, updateOscillatorFrequencies, for_upto.
  rewrite (for_each_update_osc
             (fun f k => SineWaveGenerator.setFrequency
                           (F32.mul f (F32.of_int (Z.of_nat k + 1)))))
    by reflexivity.
  reflexivity.
Qed.

Lemma summation_oscillators (indices : list nat) (sample : float) (b : t) :
  oscillators
    (snd (for_each indices
            (fun i '(sample, b) =>
               let '(added, o) := loop_turn sinf (at_ b i) in
               let b := update i (fun _ => o) b in
               match added with
               | Some x => (F32.add sample x, b)
               | None => (sample, b)
               end)
            (sample, b)))
  = fold_left (fun acc i => alter (fun o => snd (loop_turn sinf o)) i acc)
      indices (oscillators b).
Proof.
  unfold for_each. revert sample b.
  induction indices as [| i indices IH]; intros sample b; [reflexivity |].
  cbn [fold_left].
  destruct (loop_turn sinf (at_ b i)) as [added o] eqn:Hturn.
  assert (Ho : alter (fun _ => o) i (oscillators b)
               = alter (fun o => snd (loop_turn sinf o)) i (oscillators b)).
  { rewrite <- (alter_const_at (fun o => snd (loop_turn sinf o))
                  SineWaveGenerator.new i (oscillators b)).
    unfold at_ in Hturn. now rewrite Hturn. }
  destruct added as [x |]; rewrite IH; unfold update; cbn [oscillators];
    now rewrite Ho.
Qed.

Lemma getNextSample_lookup (b : t) (i : nat) :
  (i < Z.to_nat Constants.MAX_HARMONICS)%nat ->
  oscillators (snd (getNextSample sinf b)) !! i
  = (fun o => snd (loop_turn sinf o)) <$> oscillators b !! i.
Proof.
  intros Hi. unfold getNextSample, for_upto.
  pose proof (summation_oscillators
                (range_step 0 1 (Z.to_nat Constants.MAX_HARMONICS)) F32.zero b) as H.
  destruct (for_each _ _ (F32.zero, b)) as [sample b'].
  cbn [snd] in *. rewrite H.
  rewrite range_step_seq, fold_alter_lookup by apply NoDup_seq.
  rewrite decide_True by (apply elem_of_seq; lia). reflexivity.
Qed.

Lemma loop_turn_nonzero (o : SineWaveGenerator.t) :
  fne (fst (SineWaveGenerator.getNextSample sinf o)) F32.zero = true ->
  snd (loop_turn sinf o) = SineWaveGenerator.advance (SineWaveGenerator.advance o).
Proof.
  intros Hne. pose proof (nonzero_sample_audible sinf o Hne) as Haud.
  unfold loop_turn.
  rewrite (getNextSample_audible sinf o Haud) in *. cbn [fst] in Hne.
  rewrite Hne.
  rewrite getNextSample_audible; [reflexivity |].
  destruct (advance_frame o) as (_ & _ & -> & _). exact Haud.
Qed.
End HarmonicOscillatorFacts.

(** C1.  The summation loop of [HarmonicOscillator::getNextSample] calls an
    oscillator's [getNextSample] a second time whenever the first call
    returned a sample different from zero: after one output sample such an
    oscillator has been advanced twice, not once. *)
Theorem HarmonicOscillator_getNextSample_advances_twice
    (sinf : float -> float) (b : HarmonicOscillator.t) (i : nat)
    (o : SineWaveGenerator.t) :
  HarmonicOscillator.wf b ->
  HarmonicOscillator.oscillators b !! i = Some o ->
  fne (fst (SineWaveGenerator.getNextSample sinf o)) F32.zero = true ->
  HarmonicOscillator.oscillators (snd (HarmonicOscillator.getNextSample sinf b)) !! i
  = Some (SineWaveGenerator.advance (SineWaveGenerator.advance o)).
Proof.
  intros Hwf Ho Hne.
  rewrite getNextSample_lookup.
  - rewrite Ho. cbn. now rewrite loop_turn_nonzero.
  - rewrite <- Hwf. now apply lookup_lt_Some with o.
Qed.

Lemma HarmonicOscillator_getNextSample_advances_twice_witness :
  let o := HarmonicOscillator.at_ bank_sounding 0 in
  HarmonicOscillator.oscillators
    (snd (HarmonicOscillator.getNextSample sin_poly bank_sounding)) !! 0%nat
  = Some (SineWaveGenerator.advance (SineWaveGenerator.advance o))
  /\ SineWaveGenerator.currentPhase o = S754_finite false 8414026 (-27)
  /\ SineWaveGenerator.phaseIncrement o = S754_finite false 8414026 (-27)
  /\ SineWaveGenerator.currentPhase (SineWaveGenerator.advance o)
     = S754_finite false 8414026 (-26)
  /\ SineWaveGenerator.currentPhase (SineWaveGenerator.advance (SineWaveGenerator.advance o))
     = S754_finite false 12621039 (-26)
  /\ fst (HarmonicOscillator.getNextSample sin_poly bank_sounding)
     = F32.mul (fst (SineWaveGenerator.getNextSample sin_poly (SineWaveGenerator.advance o)))
               (HarmonicOscillator.masterGain bank_sounding).
Proof.
  split; [| now vm_compute].
  apply (HarmonicOscillator_getNextSample_advances_twice sin_poly bank_sounding 0).
  - reflexivity.
  - reflexivity.
  - reflexivity.
Defined.

(** C2.  [setSustain] stores the clamped level and does not recompute the
    rates: on an envelope prepared at 44100 Hz with the default times,
    [setSustain(0.5f)] leaves [decayRate] and [releaseRate] at the values
    computed for the former sustain level 0.7, which differ from
    (1 - sustainLevel)/(decayTime*sampleRate) and
    sustainLevel/(releaseTime*sampleRate) for the new level. *)
Theorem setSustain_leaves_rates_stale :
  let e := EnvelopeProcessor.prepare (F64.of_int 44100) EnvelopeProcessor.new in
  let e' := EnvelopeProcessor.setSustain F32.half e in
  EnvelopeProcessor.sustainLevel e' = F32.half
  /\ EnvelopeProcessor.decayRate e' = EnvelopeProcessor.decayRate e
  /\ EnvelopeProcessor.releaseRate e' = EnvelopeProcessor.releaseRate e
  /\ feq (EnvelopeProcessor.decayRate e')
         (EnvelopeProcessor.decayRate_of (EnvelopeProcessor.sustainLevel e')
            (EnvelopeProcessor.decayTime e') (EnvelopeProcessor.sampleRate e')) = false
  /\ feq (EnvelopeProcessor.releaseRate e')
         (EnvelopeProcessor.releaseRate_of (EnvelopeProcessor.sustainLevel e')
            (EnvelopeProcessor.releaseTime e') (EnvelopeProcessor.sampleRate e')) = false.
Proof. now vm_compute. Qed.

(** C10.  [startNote] sets the bank's fundamental to
    440 * 2^((midiNote - 69)/12), stores the velocity and restarts the
    envelope in Attack at level 0.  Every oscillator keeps its
    [currentPhase] and its [amplitude]; only its frequency (fundamental
    times harmonic number) and the phase increment derived from it are
    rewritten. *)
Theorem startNote_keeps_phase_and_amplitude
    (powf : float -> float -> float) (v : AdditiveVoice.t)
    (midiNoteNumber : Z) (velocity : float) (i : nat) (o : SineWaveGenerator.t) :
  HarmonicOscillator.wf (AdditiveVoice.oscillator v) ->
  HarmonicOscillator.oscillators (AdditiveVoice.oscillator v) !! i = Some o ->
  let v' := AdditiveVoice.startNote powf midiNoteNumber velocity v in
  let freq := F32.mul (F32.of_int 440)
                (powf F32.two (F32.div (F32.of_int (midiNoteNumber - 69)) (F32.of_int 12))) in
  HarmonicOscillator.fundamentalFrequency (AdditiveVoice.oscillator v') = freq
  /\ AdditiveVoice.currentVelocity v' = velocity
  /\ EnvelopeProcessor.currentState (AdditiveVoice.envelope v') = EnvelopeProcessor.Attack
  /\ EnvelopeProcessor.currentLevel (AdditiveVoice.envelope v') = F32.zero
  /\ exists o',
       HarmonicOscillator.oscillators (AdditiveVoice.oscillator v') !! i = Some o'
       /\ SineWaveGenerator.currentPhase o' = SineWaveGenerator.currentPhase o
       /\ SineWaveGenerator.amplitude o' = SineWaveGenerator.amplitude o
       /\ SineWaveGenerator.frequency o' = F32.mul freq (F32.of_int (Z.of_nat i + 1)).
Proof.
  intros Hwf Ho v' freq. subst v' freq.
  unfold AdditiveVoice.startNote, AdditiveVoice.note_frequency.
  cbn [AdditiveVoice.oscillator AdditiveVoice.envelope AdditiveVoice.currentVelocity].
  rewrite setFrequency_fundamental.
  repeat split.
  eexists. rewrite setFrequency_lookup, Ho.
  - split; [reflexivity |]. repeat split.
  - rewrite <- Hwf. now apply lookup_lt_Some with o.
Qed.

Lemma startNote_keeps_phase_and_amplitude_witness :
  let v := AdditiveVoice.mk bank_sounding EnvelopeProcessor.new F32.one in
  let v' := AdditiveVoice.startNote pow_unit 69 F32.half v in
  AdditiveVoice.currentVelocity v' = F32.half
  /\ exists o',
       HarmonicOscillator.oscillators (AdditiveVoice.oscillator v') !! 0%nat = Some o'
       /\ SineWaveGenerator.currentPhase o' = S754_finite false 8414026 (-27)
       /\ SineWaveGenerator.amplitude o' = F32.one.
Proof.
  intros v v'. subst v'.
  destruct (startNote_keeps_phase_and_amplitude pow_unit v 69 F32.half 0
              (HarmonicOscillator.at_ bank_sounding 0))
    as (_ & Hvel & _ & _ & o' & Ho' & Hphase & Hamp & _).
  - reflexivity.
  - reflexivity.
  - split; [exact Hvel |]. exists o'. split; [exact Ho' |].
    split; [rewrite Hphase | rewrite Hamp]; reflexivity.
Defined.

(* ===================================================================== *)
(** ** Further properties                                                 *)
(* ===================================================================== *)

Section LoopsExtra.
(** A loop that applies [f] to cell [i] at turn [i], over the whole array,
    maps [f] over it. *)
Lemma for_upto_alter_all {A : Type} (f : A -> A) (l : list A) :
  for_upto (length l) (fun i acc => alter f i acc) l = f <$> l.
Proof.
  unfold for_upto, for_each. rewrite range_step_seq. cbv beta.
  apply list_eq. intros j.
  rewrite (fold_alter_lookup (fun _ => f)) by apply NoDup_seq.
  rewrite list_lookup_fmap.
  destruct (decide (j ∈ seq 0 (length l))) as [_ | Hout]; [reflexivity |].
  rewrite elem_of_seq in Hout.
  rewrite (proj2 (lookup_ge_None l j)) by lia. reflexivity.
Qed.
End LoopsExtra.

Section HarmonicStateExtra.
Import HarmonicData HarmonicState HarmonicStateInv.

Lemma jlimit_idempotent (a : float) :
  jlimit F32.zero F32.one (jlimit F32.zero F32.one a) = jlimit F32.zero F32.one a.
Proof.
  unfold jlimit.
  destruct (flt a F32.zero) eqn:Hlo; [reflexivity |].
  destruct (flt F32.one a) eqn:Hhi; [reflexivity |].
  now rewrite Hlo, Hhi.
Qed.

Lemma getHarmonic_update_eq (i : Z) f (st : t) :
  wf st -> in_range i = true ->
  getHarmonic i (update (Z.to_nat i) f st) = f (getHarmonic i st).
Proof.
  intros Hwf Hi. unfold getHarmonic. rewrite Hi.
  apply at_update_eq. now apply in_range_to_nat.
Qed.

Lemma getHarmonic_update_ne (i j : Z) f (st : t) :
  in_range i = true -> i <> j ->
  getHarmonic j (update (Z.to_nat i) f st) = getHarmonic j st.
Proof.
  intros Hi Hne. unfold getHarmonic.
  destruct (in_range j) eqn:Hj; [| reflexivity].
  apply at_update_ne. apply in_range_spec in Hi, Hj. lia.
Qed.

(** X1.  For an index in [0, MAX_HARMONICS), [setHarmonic(i, a, ph)] followed by
    [getHarmonic(i)] gives the amplitude clamped to [0,1], the phase [ph]
    exactly as passed (it is not clamped), and the flag
    (clamped amplitude > 0.001). *)
Theorem setHarmonic_then_get (st : HarmonicState.t) (i : Z) (a ph : float) :
  wf st -> 0 <= i < Constants.MAX_HARMONICS ->
  getHarmonic i (setHarmonic i a ph st)
  = HarmonicData.mk (jlimit F32.zero F32.one a) ph
      (fgt (jlimit F32.zero F32.one a) F32.thousandth).
Proof.
  intros Hwf Hi%in_range_spec. unfold setHarmonic. rewrite Hi.
  rewrite getHarmonic_update_eq by assumption.
  unfold with_enabled, with_phase, with_amplitude. cbn [amplitude phase enabled].
  now rewrite fgt_jlimit_thousandth.
Qed.

(** X2.  [setHarmonicAmplitude(i, a)] keeps the phase of slot [i], and both
    setters leave every slot other than [i] as it was. *)
Theorem setters_touch_one_slot (st : HarmonicState.t) (i j : Z) (a ph : float) :
  wf st -> 0 <= i < Constants.MAX_HARMONICS ->
  phase (getHarmonic i (setHarmonicAmplitude i a st)) = phase (getHarmonic i st)
  /\ (i <> j ->
      getHarmonic j (setHarmonicAmplitude i a st) = getHarmonic j st
      /\ getHarmonic j (setHarmonic i a ph st) = getHarmonic j st).
Proof.
  intros Hwf Hi%in_range_spec. unfold setHarmonicAmplitude, setHarmonic. rewrite Hi.
  split.
  - now rewrite getHarmonic_update_eq by assumption.
  - intros Hne. split; now apply getHarmonic_update_ne.
Qed.
End HarmonicStateExtra.

Section PresetExtra.
Import HarmonicData HarmonicState HarmonicStateInv.

Lemma forallb_Forall {A : Type} (P : A -> bool) (l : list A) :
  forallb P l = true -> Forall (fun x => P x = true) l.
Proof.
  induction l as [| x l IH]; cbn; [constructor |].
  intros [Hx Hl]%andb_true_iff. constructor; auto.
Qed.

Lemma getHarmonic_of_table (st : HarmonicState.t) (slot : Z -> HarmonicData.t) (k : Z) :
  harmonics st = (fun n => slot (Z.of_nat n)) <$> seq 0 (Z.to_nat Constants.MAX_HARMONICS) ->
  0 <= k < Constants.MAX_HARMONICS ->
  getHarmonic k st = slot k.
Proof.
  intros Htab Hk. unfold getHarmonic, at_.
  apply in_range_spec in Hk as Hr. rewrite Hr, Htab, list_lookup_fmap.
  rewrite lookup_seq_lt by (unfold Constants.MAX_HARMONICS in *; lia).
  cbn. f_equal. lia.
Qed.

(** X3.  Whatever the spectrum held, after [loadPreset("Saw")] slot [k] holds
    amplitude 1/(k+1), phase 0 and [enabled] for k < 32, and is cleared for
    32 <= k < 128. *)
Theorem loadPreset_Saw (st : HarmonicState.t) (k : Z) :
  wf st -> 0 <= k < Constants.MAX_HARMONICS ->
  getHarmonic k (loadPreset "Saw" st) = saw_slot k.
Proof.
  intros Hwf Hk. rewrite (loadPreset_from_new _ st Hwf).
  apply getHarmonic_of_table; [now vm_compute | exact Hk].
Qed.

(** X4.  Whatever the spectrum held, after [loadPreset("Square")] slot [k]
    holds amplitude 1/(k+1), phase 0 and [enabled] for even k < 32, and is
    cleared for every other k. *)
Theorem loadPreset_Square (st : HarmonicState.t) (k : Z) :
  wf st -> 0 <= k < Constants.MAX_HARMONICS ->
  getHarmonic k (loadPreset "Square" st) = square_slot k.
Proof.
  intros Hwf Hk. rewrite (loadPreset_from_new _ st Hwf).
  apply getHarmonic_of_table; [now vm_compute | exact Hk].
Qed.

(** X5.  A preset name other than the five known ones yields the cleared
    spectrum, whatever the spectrum held. *)
Theorem loadPreset_unknown_name (name : string) (st : HarmonicState.t) :
  wf st ->
  name <> "Saw"%string -> name <> "Square"%string -> name <> "Triangle"%string ->
  name <> "Sine"%string -> name <> "Organ"%string ->
  loadPreset name st = HarmonicState.new.
Proof.
  intros Hwf H1 H2 H3 H4 H5. rewrite (loadPreset_from_new _ st Hwf).
  unfold loadPreset.
  apply String.eqb_neq in H1, H2, H3, H4, H5. rewrite H1, H2, H3, H4, H5.
  now vm_compute.
Qed.
End PresetExtra.

Section InvariantExtra.
Import HarmonicData HarmonicState HarmonicStateInv.

Lemma recompute_enabled_consistent (st : HarmonicState.t) :
  enabled_consistent (recompute_enabled st).
Proof.
  unfold enabled_consistent, recompute_enabled. cbn [harmonics].
  apply Forall_fmap, Forall_true. intros h. reflexivity.
Qed.

(** X6.  [enabled] == (amplitude > 0.001) in every slot holds after [clear] and
    after [loadPreset] with any name, and is kept by [setHarmonic] and
    [setHarmonicAmplitude] for any index and value, and by [copyFrom] from
    a spectrum that has it. *)
Theorem enabled_consistent_preserved (st other : HarmonicState.t) (i : Z) (a ph : float)
    (name : string) :
  enabled_consistent (clear st)
  /\ enabled_consistent (loadPreset name st)
  /\ (enabled_consistent st ->
      enabled_consistent (setHarmonic i a ph st)
      /\ enabled_consistent (setHarmonicAmplitude i a st))
  /\ (enabled_consistent other -> enabled_consistent (copyFrom other st)).
Proof.
  split; [| split; [| split]].
  - unfold enabled_consistent, clear. cbn [harmonics].
    apply Forall_fmap, Forall_true. intros h. reflexivity.
  - unfold loadPreset. apply recompute_enabled_consistent.
  - intros Hst. unfold setHarmonic, setHarmonicAmplitude.
    destruct (in_range i); [| split; exact Hst].
    split; unfold enabled_consistent, update; cbn [harmonics];
      (apply Forall_alter; [exact Hst |]); intros h _ _;
      unfold with_enabled, with_phase, with_amplitude; cbn [amplitude enabled];
      symmetry; apply fgt_jlimit_thousandth.
  - intros Ho. now rewrite copyFrom_eq.
Qed.

Lemma in_unit_jlimit (a : float) :
  is_nan a = false -> in_unit (jlimit F32.zero F32.one a) = true.
Proof.
  intros Ha. destruct (jlimit_in_unit_interval a Ha) as [H0 H1].
  unfold in_unit. now rewrite H0, H1.
Qed.

Lemma loadPreset_in_unit_new (name : string) :
  String.eqb name "Triangle" = false ->
  forallb (fun h => in_unit (amplitude h)) (harmonics (loadPreset name HarmonicState.new))
  = true.
Proof.
  intros Ht. unfold loadPreset.
  destruct (String.eqb name "Saw"); [now vm_compute |].
  destruct (String.eqb name "Square"); [now vm_compute |].
  rewrite Ht.
  destruct (String.eqb name "Sine"); [now vm_compute |].
  destruct (String.eqb name "Organ"); now vm_compute.
Qed.

(** X7.  Every amplitude lies in [0,1] after [clear] and after [loadPreset]
    with any name other than "Triangle"; [setHarmonic] and
    [setHarmonicAmplitude] with an amplitude that is not NaN keep it so, and
    so does [copyFrom] from a spectrum that has it. *)
Theorem amplitudes_in_unit_preserved (st other : HarmonicState.t) (i : Z) (a ph : float)
    (name : string) :
  amplitudes_in_unit (clear st)
  /\ (wf st -> name <> "Triangle"%string -> amplitudes_in_unit (loadPreset name st))
  /\ (amplitudes_in_unit st -> is_nan a = false ->
      amplitudes_in_unit (setHarmonic i a ph st)
      /\ amplitudes_in_unit (setHarmonicAmplitude i a st))
  /\ (amplitudes_in_unit other -> amplitudes_in_unit (copyFrom other st)).
Proof.
  split; [| split; [| split]].
  - unfold amplitudes_in_unit, clear. cbn [harmonics].
    apply Forall_fmap, Forall_true. intros h. reflexivity.
  - intros Hwf Hname%String.eqb_neq. rewrite (loadPreset_from_new _ st Hwf).
    apply (forallb_Forall (fun h => in_unit (amplitude h))).
    now apply loadPreset_in_unit_new.
  - intros Hst Ha. unfold setHarmonic, setHarmonicAmplitude.
    destruct (in_range i); [| split; exact Hst].
    split; unfold amplitudes_in_unit, update; cbn [harmonics];
      (apply Forall_alter; [exact Hst |]); intros h _ _;
      unfold with_enabled, with_phase, with_amplitude; cbn [amplitude];
      now apply in_unit_jlimit.
  - intros Ho. now rewrite copyFrom_eq.
Qed.

End InvariantExtra.

Lemma flt_jlimit_thousandth (a : float) :
  flt (jlimit F32.zero F32.one a) F32.thousandth = flt a F32.thousandth.
Proof.
  unfold jlimit, flt, F32.zero, F32.one, F32.thousandth.
  destruct a as [s | s | | s m e]; try (destruct s; reflexivity); try reflexivity.
  destruct s.
  - reflexivity.
  - unfold SFltb, SFcompare.
    destruct (Z.compare_spec (-23) e) as [<- | Hlt | Hgt].
    + destruct (Pos.compare_cont Eq 8388608 m) eqn:Hm; reflexivity.
    + replace (e ?= -33) with Gt by (symmetry; apply Z.compare_gt_iff; lia).
      reflexivity.
    + reflexivity.
Qed.

Section SineWaveGeneratorExtra.
Import SineWaveGenerator SineWaveGeneratorRun.
Variable sinf : float -> float.

Lemma generator_increment_invariant (g : t) (sr : double) (freq amp : float) :
  increment_consistent (prepare sr g)
  /\ increment_consistent (setFrequency freq g)
  /\ (increment_consistent g ->
      increment_consistent (setAmplitude amp g)
      /\ increment_consistent (reset g)
      /\ increment_consistent (snd (getNextSample sinf g))).
Proof.
  split; [reflexivity |]. split; [reflexivity |].
  intros Hg. split; [exact Hg |]. split; [exact Hg |].
  unfold getNextSample. destruct (flt _ _); cbn [snd]; [exact Hg |].
  unfold increment_consistent.
  destruct (advance_frame g) as (-> & -> & _ & ->). exact Hg.
Qed.

(** X9.  Clamping in [setAmplitude] never changes on which side of the 0.001
    threshold the amplitude lies; a generator given an amplitude below
    0.001 (a negative one, say) returns 0.0 and does not move. *)
Theorem setAmplitude_audibility (g : t) (amp : float) :
  flt (amplitude (setAmplitude amp g)) F32.thousandth = flt amp F32.thousandth
  /\ (flt amp F32.thousandth = true ->
      getNextSample sinf (setAmplitude amp g) = (F32.zero, setAmplitude amp g)).
Proof.
  assert (H : flt (amplitude (setAmplitude amp g)) F32.thousandth
              = flt amp F32.thousandth) by apply flt_jlimit_thousandth.
  split; [exact H |]. intros Ha. apply getNextSample_silent. now rewrite H.
Qed.
End SineWaveGeneratorExtra.

Section HarmonicOscillatorExtra.
Import HarmonicOscillator HarmonicOscillatorSum SineWaveGeneratorRun.
Variable sinf : float -> float.

Lemma summation_spec (rest pre : list SineWaveGenerator.t) (sample fund gain : float) :
  for_each (seq (length pre) (length rest))
    (fun i '(sample, b) =>
       let '(added, o) := loop_turn sinf (at_ b i) in
       let b := update i (fun _ => o) b in
       match added with
       | Some x => (F32.add sample x, b)
       | None => (sample, b)
       end)
    (sample, mk (pre ++ rest) fund gain)
  = (fold_left
       (fun acc o => match fst (loop_turn sinf o) with
                     | Some x => F32.add acc x
                     | None => acc
                     end) rest sample,
     mk (pre ++ ((fun o => snd (loop_turn sinf o)) <$> rest)) fund gain).
Proof.
  unfold for_each. revert pre sample.
  induction rest as [| o rest IH]; intros pre sample; [reflexivity |].
  cbn [length seq fold_left fmap list_fmap].
  assert (Hat : at_ (mk (pre ++ o :: rest) fund gain) (length pre) = o).
  { unfold at_. cbn [oscillators]. now rewrite list_lookup_middle. }
  rewrite Hat. destruct (loop_turn sinf o) as [added o'] eqn:Hturn.
  assert (Hup : update (length pre) (fun _ => o') (mk (pre ++ o :: rest) fund gain)
                = mk ((pre ++ [o']) ++ rest) fund gain).
  { unfold update. cbn [oscillators fundamentalFrequency masterGain].
    replace (length pre) with (length pre + 0)%nat at 1 by lia.
    rewrite alter_app_r. cbn. now rewrite <- app_assoc. }
  assert (Hlen : S (length pre) = length (pre ++ [o'])).
  { rewrite length_app. cbn. lia. }
  cbn [fst snd].
  destruct added as [x |]; rewrite Hup, Hlen, IH, <- app_assoc; reflexivity.
Qed.

(** X11.  One output sample of the bank: the oscillators are visited in index
    order, each one independently of the others; the value returned is the
    running sum, started at 0.0, times [masterGain]. *)
Theorem HarmonicOscillator_getNextSample_spec (b : HarmonicOscillator.t) :
  wf b ->
  getNextSample sinf b
  = (F32.mul (summed sinf (oscillators b)) (masterGain b),
     mk ((fun o => snd (loop_turn sinf o)) <$> oscillators b)
        (fundamentalFrequency b) (masterGain b)).
Proof.
  intros Hwf. unfold getNextSample, for_upto. rewrite range_step_seq.
  destruct b as [oscs fund gain]. unfold wf in Hwf. cbn [oscillators] in Hwf.
  rewrite <- Hwf.
  pose proof (summation_spec oscs [] F32.zero fund gain) as H.
  cbn [length app] in H. rewrite H. reflexivity.
Qed.
End HarmonicOscillatorExtra.

Section HarmonicOscillatorExtra2.
Import HarmonicOscillator HarmonicOscillatorSum SineWaveGeneratorRun.
Variable sinf : float -> float.

Lemma loop_turn_silent (o : SineWaveGenerator.t) :
  flt (SineWaveGenerator.amplitude o) F32.thousandth = true ->
  loop_turn sinf o = (None, o).
Proof.
  intros H. unfold loop_turn. now rewrite (getNextSample_silent sinf o H).
Qed.

Lemma loop_turn_zero_sample (o : SineWaveGenerator.t) :
  flt (SineWaveGenerator.amplitude o) F32.thousandth = false ->
  feq (F32.mul (SineWaveGenerator.amplitude o) (sinf (SineWaveGenerator.currentPhase o)))
      F32.zero = true ->
  loop_turn sinf o = (None, SineWaveGenerator.advance o).
Proof.
  intros Ha Hz. unfold loop_turn. rewrite (getNextSample_audible sinf o Ha).
  unfold fne. unfold feq in Hz. now rewrite Hz.
Qed.

Lemma loop_turn_nonzero_sample (o : SineWaveGenerator.t) :
  flt (SineWaveGenerator.amplitude o) F32.thousandth = false ->
  feq (F32.mul (SineWaveGenerator.amplitude o) (sinf (SineWaveGenerator.currentPhase o)))
      F32.zero = false ->
  loop_turn sinf o
  = (Some (F32.mul (SineWaveGenerator.amplitude o)
             (sinf (SineWaveGenerator.currentPhase (SineWaveGenerator.advance o)))),
     SineWaveGenerator.advance (SineWaveGenerator.advance o)).
Proof.
  intros Ha Hz. unfold loop_turn. rewrite (getNextSample_audible sinf o Ha).
  unfold fne. unfold feq in Hz. rewrite Hz. cbn [negb].
  destruct (advance_frame o) as (_ & _ & Hamp & _).
  rewrite getNextSample_audible by now rewrite Hamp.
  now rewrite Hamp.
Qed.

(** X12.  In one output sample of the bank, an oscillator whose amplitude is
    below 0.001 is left as it was, and an audible oscillator whose sample is
    exactly zero is advanced once. *)
Theorem oscillator_turn_without_contribution
    (b : HarmonicOscillator.t) (i : nat) (o : SineWaveGenerator.t) :
  wf b -> oscillators b !! i = Some o ->
  (flt (SineWaveGenerator.amplitude o) F32.thousandth = true ->
     oscillators (snd (getNextSample sinf b)) !! i = Some o)
  /\ (flt (SineWaveGenerator.amplitude o) F32.thousandth = false ->
      feq (F32.mul (SineWaveGenerator.amplitude o)
             (sinf (SineWaveGenerator.currentPhase o))) F32.zero = true ->
      oscillators (snd (getNextSample sinf b)) !! i
      = Some (SineWaveGenerator.advance o)).
Proof.
  intros Hwf Ho. rewrite (HarmonicOscillator_getNextSample_spec sinf b Hwf).
  cbn [snd oscillators]. rewrite list_lookup_fmap, Ho. cbn.
  split.
  - intros Hs. now rewrite loop_turn_silent.
  - intros Ha Hz. now rewrite loop_turn_zero_sample.
Qed.

Lemma summed_silent (oscs : list SineWaveGenerator.t) :
  Forall (fun o => flt (SineWaveGenerator.amplitude o) F32.thousandth = true) oscs ->
  summed sinf oscs = F32.zero
  /\ (fun o => snd (loop_turn sinf o)) <$> oscs = oscs.
Proof.
  intros Hs. unfold summed. generalize F32.zero as acc.
  induction Hs as [| o oscs Ho _ IH]; intros acc; [split; reflexivity |].
  cbn [fold_left]. rewrite fmap_cons, (loop_turn_silent o Ho). cbn [fst snd].
  destruct (IH acc) as [-> ->]. split; reflexivity.
Qed.

(** X13.  A bank none of whose oscillators is audible returns 0 * masterGain
    and is left exactly as it was. *)
Theorem silent_bank_unchanged (b : HarmonicOscillator.t) :
  wf b ->
  Forall (fun o => flt (SineWaveGenerator.amplitude o) F32.thousandth = true)
         (oscillators b) ->
  getNextSample sinf b = (F32.mul F32.zero (masterGain b), b).
Proof.
  intros Hwf Hs. rewrite (HarmonicOscillator_getNextSample_spec sinf b Hwf).
  destruct (summed_silent (oscillators b) Hs) as [-> ->]. now destruct b.
Qed.

Lemma loop_turn_frame (o : SineWaveGenerator.t) :
  let o' := snd (loop_turn sinf o) in
  SineWaveGenerator.sampleRate o' = SineWaveGenerator.sampleRate o
  /\ SineWaveGenerator.frequency o' = SineWaveGenerator.frequency o
  /\ SineWaveGenerator.amplitude o' = SineWaveGenerator.amplitude o
  /\ SineWaveGenerator.phaseIncrement o' = SineWaveGenerator.phaseIncrement o.
Proof.
  cbv zeta.
  destruct (flt (SineWaveGenerator.amplitude o) F32.thousandth) eqn:Ha.
  - now rewrite loop_turn_silent.
  - destruct (feq (F32.mul (SineWaveGenerator.amplitude o)
                     (sinf (SineWaveGenerator.currentPhase o))) F32.zero) eqn:Hz.
    + rewrite loop_turn_zero_sample by assumption. apply advance_frame.
    + rewrite loop_turn_nonzero_sample by assumption. cbn [snd].
      destruct (advance_frame (SineWaveGenerator.advance o)) as (-> & -> & -> & ->).
      apply advance_frame.
Qed.

(** X14.  Producing a sample changes nothing but the phases: the number of
    oscillators, the fundamental, the gain, and every oscillator's sample
    rate, frequency, amplitude and increment are as before. *)
Theorem HarmonicOscillator_getNextSample_frame
    (b : HarmonicOscillator.t) (i : nat) (o : SineWaveGenerator.t) :
  wf b -> oscillators b !! i = Some o ->
  let b' := snd (getNextSample sinf b) in
  wf b'
  /\ fundamentalFrequency b' = fundamentalFrequency b
  /\ masterGain b' = masterGain b
  /\ exists o', oscillators b' !! i = Some o'
       /\ SineWaveGenerator.sampleRate o' = SineWaveGenerator.sampleRate o
       /\ SineWaveGenerator.frequency o' = SineWaveGenerator.frequency o
       /\ SineWaveGenerator.amplitude o' = SineWaveGenerator.amplitude o
       /\ SineWaveGenerator.phaseIncrement o' = SineWaveGenerator.phaseIncrement o.
Proof.
  intros Hwf Ho b'. subst b'.
  rewrite (HarmonicOscillator_getNextSample_spec sinf b Hwf). cbn [snd].
  split; [unfold wf; cbn [oscillators]; now rewrite length_fmap |].
  split; [reflexivity |]. split; [reflexivity |].
  exists (snd (loop_turn sinf o)). cbn [oscillators].
  rewrite list_lookup_fmap, Ho. split; [reflexivity |]. apply loop_turn_frame.
Qed.
End HarmonicOscillatorExtra2.

Section HarmonicOscillatorExtra3.
Import HarmonicOscillator HarmonicOscillatorInv SineWaveGeneratorRun.
Variable sinf : float -> float.

Lemma setHarmonicState_unfold (state : HarmonicState.t) (b : t) :
  setHarmonicState state b
  = mk (fold_left
          (fun acc i =>
             alter (SineWaveGenerator.setAmplitude
                      (HarmonicState.getHarmonicAmplitude (Z.of_nat i) state)) i acc)
          (seq 0 (Z.to_nat Constants.MAX_HARMONICS)) (oscillators b))
       (fundamentalFrequency b) (masterGain b).
Proof.
  unfold setHarmonicState, for_upto. rewrite range_step_seq.
  now rewrite (for_each_update_osc
                 (fun _ k => SineWaveGenerator.setAmplitude
                               (HarmonicState.getHarmonicAmplitude (Z.of_nat k) state))).
Qed.

Lemma setHarmonicState_lookup (state : HarmonicState.t) (b : t) (i : nat) :
  (i < Z.to_nat Constants.MAX_HARMONICS)%nat ->
  oscillators (setHarmonicState state b) !! i
  = SineWaveGenerator.setAmplitude
      (HarmonicState.getHarmonicAmplitude (Z.of_nat i) state) <$> oscillators b !! i.
Proof.
  intros Hi. rewrite setHarmonicState_unfold. cbn [oscillators].
  rewrite fold_alter_lookup by apply NoDup_seq.
  now rewrite decide_True by (apply elem_of_seq; lia).
Qed.

(** X15.  [setHarmonicState] copies the clamped amplitude of slot [i] into
    oscillator [i] and leaves the oscillator's phase, frequency, increment
    and sample rate alone; a slot below 0.001 (a negative one, say)
    silences its oscillator. *)
Theorem setHarmonicState_oscillator
    (state : HarmonicState.t) (b : t) (i : nat) (o : SineWaveGenerator.t) :
  wf b -> oscillators b !! i = Some o ->
  let a := HarmonicState.getHarmonicAmplitude (Z.of_nat i) state in
  exists o', oscillators (setHarmonicState state b) !! i = Some o'
    /\ SineWaveGenerator.amplitude o' = jlimit F32.zero F32.one a
    /\ SineWaveGenerator.currentPhase o' = SineWaveGenerator.currentPhase o
    /\ SineWaveGenerator.frequency o' = SineWaveGenerator.frequency o
    /\ SineWaveGenerator.phaseIncrement o' = SineWaveGenerator.phaseIncrement o
    /\ SineWaveGenerator.sampleRate o' = SineWaveGenerator.sampleRate o
    /\ (flt a F32.thousandth = true ->
        SineWaveGenerator.getNextSample sinf o' = (F32.zero, o')).
Proof.
  intros Hwf Ho a. eexists. rewrite setHarmonicState_lookup, Ho.
  - split; [reflexivity |]. repeat (split; [reflexivity |]).
    intros Ha. now apply setAmplitude_audibility.
  - rewrite <- Hwf. now apply lookup_lt_Some with o.
Qed.

Lemma getHarmonicAmplitude_ignores_phase (st : HarmonicState.t) (i j : Z) (a p1 p2 : float) :
  HarmonicState.getHarmonicAmplitude j (HarmonicState.setHarmonic i a p1 st)
  = HarmonicState.getHarmonicAmplitude j (HarmonicState.setHarmonic i a p2 st).
Proof.
  unfold HarmonicState.getHarmonicAmplitude, HarmonicState.setHarmonic.
  destruct (HarmonicState.in_range j); [| reflexivity].
  destruct (HarmonicState.in_range i); [| reflexivity].
  unfold HarmonicState.at_, HarmonicState.update. cbn [HarmonicState.harmonics].
  rewrite !list_lookup_alter.
  destruct (decide (Z.to_nat i = Z.to_nat j)); [| reflexivity].
  now destruct (HarmonicState.harmonics st !! Z.to_nat i).
Qed.

(** X16.  The bank reads nothing of a spectrum but its amplitudes: two spectra
    with the same amplitudes, whatever their phases and [enabled] flags,
    configure the bank identically. *)
Theorem setHarmonicState_reads_amplitudes_only (s1 s2 : HarmonicState.t) (b : t) :
  (forall i, 0 <= i < Constants.MAX_HARMONICS ->
     HarmonicState.getHarmonicAmplitude i s1 = HarmonicState.getHarmonicAmplitude i s2) ->
  setHarmonicState s1 b = setHarmonicState s2 b.
Proof.
  intros Hamp. rewrite !setHarmonicState_unfold. f_equal.
  apply list_eq. intros j. rewrite !fold_alter_lookup by apply NoDup_seq.
  destruct (decide (j ∈ seq 0 (Z.to_nat Constants.MAX_HARMONICS))) as [Hin | _];
    [| reflexivity].
  apply elem_of_seq in Hin. rewrite Hamp; [reflexivity |].
  unfold Constants.MAX_HARMONICS in *. lia.
Qed.

Lemma setFrequency_length (freq : float) (b : t) :
  length (oscillators (setFrequency freq b)) = length (oscillators b).
Proof.
  unfold setFrequency, updateOscillatorFrequencies, for_upto.
  rewrite (for_each_update_osc
             (fun f k => SineWaveGenerator.setFrequency
                           (F32.mul f (F32.of_int (Z.of_nat k + 1)))))
    by reflexivity.
  cbn [oscillators]. apply fold_alter_length.
Qed.

(** X17.  [setFrequency] tunes oscillator [i] to freq * (i+1), recomputes its
    increment as TWO_PI * frequency / sample rate, and keeps its phase,
    amplitude and sample rate; the gain is unchanged. *)
Theorem setFrequency_harmonic_series
    (freq : float) (b : t) (i : nat) (o : SineWaveGenerator.t) :
  wf b -> oscillators b !! i = Some o ->
  let f_i := F32.mul freq (F32.of_int (Z.of_nat i + 1)) in
  fundamentalFrequency (setFrequency freq b) = freq
  /\ masterGain (setFrequency freq b) = masterGain b
  /\ exists o', oscillators (setFrequency freq b) !! i = Some o'
       /\ SineWaveGenerator.frequency o' = f_i
       /\ SineWaveGenerator.phaseIncrement o'
          = F32.div (F32.mul Constants.TWO_PI f_i)
                    (F32.of_double (SineWaveGenerator.sampleRate o))
       /\ SineWaveGenerator.currentPhase o' = SineWaveGenerator.currentPhase o
       /\ SineWaveGenerator.amplitude o' = SineWaveGenerator.amplitude o
       /\ SineWaveGenerator.sampleRate o' = SineWaveGenerator.sampleRate o.
Proof.
  intros Hwf Ho f_i. split; [apply setFrequency_fundamental |].
  split.
  { unfold setFrequency, updateOscillatorFrequencies, for_upto.
    now rewrite (for_each_update_osc
                   (fun f k => SineWaveGenerator.setFrequency
                                 (F32.mul f (F32.of_int (Z.of_nat k + 1))))). }
  eexists. rewrite setFrequency_lookup, Ho.
  - split; [reflexivity |]. repeat split.
  - rewrite <- Hwf. now apply lookup_lt_Some with o.
Qed.

(** X18.  Once the bank has been prepared or tuned, every oscillator's
    increment equals TWO_PI * frequency / sample rate, and
    [setHarmonicState], [reset], [setGain] and [getNextSample] keep it so. *)
Theorem increments_consistent_invariant
    (b : t) (sr : double) (freq gain : float) (state : HarmonicState.t) :
  wf b ->
  increments_consistent (prepare sr b)
  /\ increments_consistent (setFrequency freq b)
  /\ (increments_consistent b ->
      increments_consistent (setHarmonicState state b)
      /\ increments_consistent (reset b)
      /\ increments_consistent (setGain gain b)
      /\ increments_consistent (snd (getNextSample sinf b))).
Proof.
  intros Hwf. unfold increments_consistent. split; [| split].
  - unfold prepare. cbn [oscillators]. apply Forall_fmap, Forall_true.
    intros o. reflexivity.
  - apply Forall_lookup_2. intros i o' Ho'.
    assert (Hi : (i < Z.to_nat Constants.MAX_HARMONICS)%nat).
    { rewrite <- Hwf, <- (setFrequency_length freq b). now apply lookup_lt_Some with o'. }
    rewrite setFrequency_lookup in Ho' by exact Hi.
    destruct (oscillators b !! i) as [o |]; [| discriminate].
    injection Ho' as <-. reflexivity.
  - intros Hb. split; [| split; [| split]].
    + apply Forall_lookup_2. intros i o' Ho'.
      assert (Hi : (i < Z.to_nat Constants.MAX_HARMONICS)%nat).
      { rewrite <- Hwf. apply lookup_lt_Some in Ho'.
        rewrite setHarmonicState_unfold in Ho'. cbn [oscillators] in Ho'.
        now rewrite fold_alter_length in Ho'. }
      rewrite setHarmonicState_lookup in Ho' by exact Hi.
      destruct (oscillators b !! i) as [o |] eqn:Ho; [| discriminate].
      injection Ho' as <-. exact (Forall_lookup_1 _ _ _ _ Hb Ho).
    + unfold reset. cbn [oscillators]. apply Forall_fmap.
      eapply Forall_impl; [exact Hb |]. intros o Ho. exact Ho.
    + exact Hb.
    + rewrite (HarmonicOscillator_getNextSample_spec sinf b Hwf). cbn [snd oscillators].
      apply Forall_fmap. eapply Forall_impl; [exact Hb |]. intros o Ho.
      unfold increment_consistent, compose.
      destruct (loop_turn_frame sinf o) as (-> & -> & _ & ->). exact Ho.
Qed.
End HarmonicOscillatorExtra3.

Lemma flt_fle (x y : spec_float) : flt x y = true -> fle x y = true.
Proof.
  unfold flt, fle, SFltb, SFleb. destruct (SFcompare x y) as [[ | | ] | ]; congruence.
Qed.

Lemma flt_irrefl (x : spec_float) : flt x x = false.
Proof.
  unfold flt, SFltb. pose proof (SFcompare_antisym x x) as H.
  destruct (SFcompare x x) as [[ | | ] | ]; try reflexivity. discriminate.
Qed.

Lemma sub_zero_nonneg (r : float) :
  fle F32.zero r = true -> fle (F32.sub F32.zero r) F32.zero = true.
Proof.
  destruct r as [s | s | | s m e]; try destruct s; try discriminate; reflexivity.
Qed.

Section EnvelopeExtra.
Import EnvelopeProcessor EnvelopeRun.

Lemma getNextSample_parameters (e : t) :
  let e' := snd (getNextSample e) in
  sampleRate e' = sampleRate e
  /\ attackTime e' = attackTime e /\ decayTime e' = decayTime e
  /\ sustainLevel e' = sustainLevel e /\ releaseTime e' = releaseTime e
  /\ attackRate e' = attackRate e /\ decayRate e' = decayRate e
  /\ releaseRate e' = releaseRate e.
Proof.
  unfold getNextSample.
  destruct (currentState e); cbn [snd]; repeat match goal with
    | |- context [if ?c then _ else _] => destruct c
    end; repeat split.
Qed.

(** X19.  The three rates agree with the stored times, sustain level and sample
    rate after [prepare], [setAttack], [setDecay] and [setRelease], and
    [noteOn], [noteOff] and [getNextSample] keep them so. *)
Theorem rates_consistent_invariant (e : t) (sr : double) (seconds : float) :
  rates_consistent (prepare sr e)
  /\ rates_consistent (setAttack seconds e)
  /\ rates_consistent (setDecay seconds e)
  /\ rates_consistent (setRelease seconds e)
  /\ (rates_consistent e ->
      rates_consistent (noteOn e) /\ rates_consistent (noteOff e)
      /\ rates_consistent (snd (getNextSample e))).
Proof.
  do 4 (split; [repeat split |]).
  intros He. split; [exact He |]. split; [exact He |].
  unfold rates_consistent.
  destruct (getNextSample_parameters e) as (-> & -> & -> & -> & -> & -> & -> & ->).
  exact He.
Qed.

(** X20.  [AdditiveVoice::setEnvelope] ends with [setRelease], which recomputes
    the rates after [setSustain] has stored the new level: the envelope ends
    with the four values given (sustain clamped) and rates in step with
    them; its state and level, and the oscillator bank, are untouched. *)
Theorem setEnvelope_rates_consistent (attack decay sustain release : float)
    (v : AdditiveVoice.t) :
  let e := AdditiveVoice.envelope (AdditiveVoice.setEnvelope attack decay sustain release v) in
  rates_consistent e
  /\ attackTime e = attack /\ decayTime e = decay
  /\ sustainLevel e = jlimit F32.zero F32.one sustain /\ releaseTime e = release
  /\ currentState e = currentState (AdditiveVoice.envelope v)
  /\ currentLevel e = currentLevel (AdditiveVoice.envelope v)
  /\ AdditiveVoice.oscillator (AdditiveVoice.setEnvelope attack decay sustain release v)
     = AdditiveVoice.oscillator v.
Proof. repeat split. Qed.

(** X21.  One call of the envelope's [getNextSample]: only the moves
    Idle-Idle, Attack-Attack/Decay, Decay-Decay/Sustain, Sustain-Sustain and
    Release-Release/Idle occur; the value returned is the level stored
    (0.0 and no change when idle); it never exceeds 1 in Attack, never
    falls below the sustain level in Decay nor below 0 in Release, and is
    exactly the bound when the state moves on. *)
Theorem envelope_step (e : t) :
  let e' := snd (getNextSample e) in
  let out := fst (getNextSample e) in
  may_step (currentState e) (currentState e') = true
  /\ (currentState e <> Idle -> out = currentLevel e')
  /\ (currentState e = Idle -> out = F32.zero /\ e' = e)
  /\ (currentState e = Attack ->
      fgt out F32.one = false /\ (currentState e' = Decay -> out = F32.one))
  /\ (currentState e = Decay ->
      flt out (sustainLevel e) = false
      /\ (currentState e' = Sustain -> out = sustainLevel e))
  /\ (currentState e = Sustain -> out = sustainLevel e)
  /\ (currentState e = Release ->
      flt out F32.zero = false /\ (currentState e' = Idle -> out = F32.zero)).
Proof.
  unfold getNextSample.
  destruct (currentState e) eqn:Hs; cbn [fst snd].
  - rewrite Hs. repeat split; try discriminate; congruence.
  - destruct (fge _ _) eqn:Hc; cbn [currentState currentLevel with_state_level];
      repeat split; try discriminate; try congruence.
    unfold fgt. unfold fge in Hc.
    destruct (SFltb F32.one _) eqn:Hlt; [| reflexivity].
    apply flt_fle in Hlt. unfold fle in Hlt. congruence.
  - destruct (fle _ _) eqn:Hc; cbn [currentState currentLevel with_state_level];
      repeat split; try discriminate; try congruence.
    + apply flt_irrefl.
    + destruct (flt _ _) eqn:Hlt; [| reflexivity].
      apply flt_fle in Hlt. congruence.
  - cbn [currentState currentLevel with_state_level].
    repeat split; try discriminate; congruence.
  - destruct (fle _ _) eqn:Hc; cbn [currentState currentLevel with_state_level];
      repeat split; try discriminate; try congruence.
    destruct (flt _ _) eqn:Hlt; [| reflexivity].
    apply flt_fle in Hlt. congruence.
Qed.
End EnvelopeExtra.

Section EnvelopeExtra2.
Import EnvelopeProcessor EnvelopeRun.

(** X22.  A fresh envelope is idle at level 0, and every operation keeps an
    idle envelope at level 0. *)
Theorem idle_at_zero_invariant (e : t) (sr : double) (x : float) :
  idle_at_zero new
  /\ (idle_at_zero e ->
      idle_at_zero (prepare sr e) /\ idle_at_zero (setAttack x e)
      /\ idle_at_zero (setDecay x e) /\ idle_at_zero (setSustain x e)
      /\ idle_at_zero (setRelease x e)
      /\ idle_at_zero (noteOn e) /\ idle_at_zero (noteOff e)
      /\ idle_at_zero (snd (getNextSample e))).
Proof.
  split; [intros _; reflexivity |]. intros He.
  do 5 (split; [exact He |]).
  split; [discriminate |]. split; [discriminate |].
  unfold idle_at_zero, getNextSample.
  destruct (currentState e) eqn:Hs; cbn [snd];
    repeat match goal with
      | |- context [if ?c then _ else _] => destruct c
      end;
    cbn [currentState currentLevel with_state_level]; try discriminate; auto.
Qed.

(** X24.  [noteOff] on an idle envelope makes it active; with a release rate
    that is not negative it is idle again, unchanged, after one sample of
    0.0. *)
Theorem noteOff_while_idle (e : t) :
  currentState e = Idle -> currentLevel e = F32.zero ->
  fle F32.zero (releaseRate e) = true ->
  isActive (noteOff e) = true
  /\ getNextSample (noteOff e) = (F32.zero, e).
Proof.
  intros Hs Hl Hr. split; [reflexivity |].
  unfold getNextSample, noteOff.
  cbn [currentState currentLevel releaseRate with_state_level].
  rewrite Hl, (sub_zero_nonneg _ Hr). cbn [currentLevel with_state_level].
  f_equal. destruct e. cbn in Hs, Hl. subst. reflexivity.
Qed.

(** X25.  In [Sustain] the envelope returns the sustain level at every call and
    stays there; the level is re-read at each call, so a value set by
    [setSustain] is, clamped, the very next output. *)
Theorem sustain_holds_level (n : nat) (level : float) (e : t) :
  currentState e = Sustain ->
  run (S n) e
  = (replicate (S n) (sustainLevel e), with_state_level Sustain (sustainLevel e) e)
  /\ fst (getNextSample (setSustain level e)) = jlimit F32.zero F32.one level
  /\ currentState (snd (getNextSample (setSustain level e))) = Sustain.
Proof.
  intros Hs. split; [| split].
  - revert e Hs. induction n as [| n IH]; intros e Hs.
    + cbn [run replicate]. unfold getNextSample. rewrite Hs. reflexivity.
    + change (run (S (S n)) e)
        with (let '(x, e1) := getNextSample e in
              let '(xs, e2) := run (S n) e1 in (x :: xs, e2)).
      unfold getNextSample at 1. rewrite Hs.
      rewrite IH by reflexivity.
      cbn [sustainLevel currentLevel with_state_level replicate]. reflexivity.
  - unfold getNextSample, setSustain. cbn [currentState]. now rewrite Hs.
  - unfold getNextSample, setSustain. cbn [currentState]. now rewrite Hs.
Qed.

End EnvelopeExtra2.

Section RenderExtra.
Import AdditiveVoice AdditiveVoiceRender AudioBuffer.
Variable sinf : float -> float.

Lemma addSample_all_channels (pos : Z) (x : float) (buf : AudioBuffer.t) :
  for_upto (getNumChannels buf) (fun ch buf => addSample ch pos x buf) buf
  = channel_add pos x <$> buf.
Proof. apply for_upto_alter_all. Qed.

Lemma render_loop (n k : nat) (start : Z) (v : AdditiveVoice.t) (buf : AudioBuffer.t) :
  for_each (seq k n)
    (fun i '(v, buf) =>
       let '(sample, v) := next_sample sinf v in
       (v, for_upto (getNumChannels buf)
             (fun ch buf => addSample ch (start + Z.of_nat i) sample buf) buf))
    (v, buf)
  = (snd (run sinf n v),
     mix_into (start + Z.of_nat k) (fst (run sinf n v)) <$> buf).
Proof.
  unfold for_each. revert k v buf. induction n as [| n IH]; intros k v buf.
  - cbn. now rewrite list_fmap_id.
  - cbn [seq fold_left run].
    destruct (next_sample sinf v) as [x v1] eqn:Hx.
    rewrite addSample_all_channels, IH. destruct (run sinf n v1) as [xs v2]. cbn [fst snd mix_into].
    f_equal. rewrite <- list_fmap_compose. apply list_fmap_ext. intros chan.
    unfold compose.
    now replace (start + Z.of_nat (S k)) with (start + Z.of_nat k + 1) by lia.
Qed.

(** X26.  A voice whose envelope is idle renders nothing: buffer and voice are
    untouched and the note is cleared.  A voice whose envelope is active
    adds the same block of samples into every channel and does not clear
    the note in this call, even if the envelope turns idle on the way; the
    voice afterwards does not depend on the buffer. *)
Theorem renderNextBlock_spec (buf : AudioBuffer.t) (start n : Z) (v : AdditiveVoice.t) :
  (EnvelopeProcessor.isActive (envelope v) = false ->
     renderNextBlock sinf buf start n v = (v, buf, true))
  /\ (EnvelopeProcessor.isActive (envelope v) = true ->
      renderNextBlock sinf buf start n v
      = (snd (run sinf (Z.to_nat n) v),
         mix_into start (fst (run sinf (Z.to_nat n) v)) <$> buf,
         false)).
Proof.
  unfold renderNextBlock. split; intros ->; cbn [negb]; [reflexivity |].
  unfold for_upto at 1. rewrite range_step_seq, render_loop.
  now rewrite Z.add_0_r.
Qed.
End RenderExtra.

Section MixExtra.
Import AudioBuffer.

Lemma channel_add_length (pos : Z) (x : float) (chan : list float) :
  length (channel_add pos x chan) = length chan.
Proof. unfold channel_add. destruct (0 <=? pos); [apply length_alter | reflexivity]. Qed.

Lemma channel_add_lookup_ne (pos : Z) (x : float) (chan : list float) (j : nat) :
  Z.of_nat j <> pos -> channel_add pos x chan !! j = chan !! j.
Proof.
  intros Hne. unfold channel_add. destruct (0 <=? pos) eqn:Hp; [| reflexivity].
  apply list_lookup_alter_ne. apply Z.leb_le in Hp. lia.
Qed.

Lemma channel_add_lookup_eq (pos : Z) (x y : float) (chan : list float) :
  0 <= pos -> chan !! Z.to_nat pos = Some y ->
  channel_add pos x chan !! Z.to_nat pos = Some (F32.add y x).
Proof.
  intros Hp Hy. unfold channel_add.
  rewrite (proj2 (Z.leb_le 0 pos) Hp), list_lookup_alter_eq, Hy. reflexivity.
Qed.

Lemma mix_into_length (samples : list float) (start : Z) (chan : list float) :
  length (mix_into start samples chan) = length chan.
Proof.
  revert start chan. induction samples as [| x xs IH]; intros start chan; [reflexivity |].
  cbn [mix_into]. now rewrite IH, channel_add_length.
Qed.

Lemma mix_into_lookup_outside (samples : list float) (start : Z) (chan : list float)
    (j : nat) :
  Z.of_nat j < start \/ start + Z.of_nat (length samples) <= Z.of_nat j ->
  mix_into start samples chan !! j = chan !! j.
Proof.
  revert start chan. induction samples as [| x xs IH]; intros start chan Hj;
    [reflexivity |].
  cbn [mix_into]. cbn [length] in Hj.
  rewrite IH by lia. apply channel_add_lookup_ne. lia.
Qed.

Lemma mix_into_lookup_inside (samples : list float) (start : Z) (chan : list float)
    (i : nat) (x y : float) :
  0 <= start -> samples !! i = Some x -> chan !! (Z.to_nat start + i)%nat = Some y ->
  mix_into start samples chan !! (Z.to_nat start + i)%nat = Some (F32.add y x).
Proof.
  revert start chan i. induction samples as [| x0 xs IH]; intros start chan i Hs Hx Hy;
    [discriminate |].
  cbn [mix_into]. destruct i as [| i].
  - injection Hx as ->. rewrite Nat.add_0_r in *.
    rewrite mix_into_lookup_outside by lia.
    now apply channel_add_lookup_eq.
  - cbn in Hx.
    replace (Z.to_nat start + S i)%nat with (Z.to_nat (start + 1) + i)%nat in * by lia.
    apply IH; [lia | exact Hx |].
    rewrite channel_add_lookup_ne by lia. exact Hy.
Qed.
End MixExtra.

Section RenderExtra2.
Import AdditiveVoice AdditiveVoiceRender AudioBuffer.
Variable sinf : float -> float.

Lemma run_length (n : nat) (v : AdditiveVoice.t) : length (fst (run sinf n v)) = n.
Proof.
  revert v. induction n as [| n IH]; intros v; [reflexivity |].
  cbn [run]. destruct (next_sample sinf v) as [x v1].
  specialize (IH v1). destruct (run sinf n v1) as [xs v2]. cbn in *. now rewrite IH.
Qed.

(** X27.  Rendering accumulates: inside the window
    [start, start + numSamples) each cell of each channel gets the voice's
    sample added to what it held; outside the window, and in its length,
    the channel is as before. *)
Theorem renderNextBlock_accumulates
    (buf : AudioBuffer.t) (start n : Z) (v : AdditiveVoice.t)
    (ch : nat) (chan : list float) :
  EnvelopeProcessor.isActive (envelope v) = true ->
  0 <= start -> buf !! ch = Some chan ->
  let samples := fst (run sinf (Z.to_nat n) v) in
  exists chan',
    snd (fst (renderNextBlock sinf buf start n v)) !! ch = Some chan'
    /\ length chan' = length chan
    /\ length samples = Z.to_nat n
    /\ (forall i x y, samples !! i = Some x ->
          chan !! (Z.to_nat start + i)%nat = Some y ->
          chan' !! (Z.to_nat start + i)%nat = Some (F32.add y x))
    /\ (forall j, (j < Z.to_nat start)%nat \/ (Z.to_nat start + Z.to_nat n <= j)%nat ->
          chan' !! j = chan !! j).
Proof.
  intros Hact Hs Hch samples.
  destruct (renderNextBlock_spec sinf buf start n v) as [_ Hspec].
  rewrite (Hspec Hact). cbn [fst snd].
  exists (mix_into start samples chan). rewrite list_lookup_fmap, Hch.
  split; [reflexivity |]. split; [apply mix_into_length |].
  split; [apply run_length |]. split.
  - intros i x y Hx Hy. now apply mix_into_lookup_inside.
  - intros j Hj. apply mix_into_lookup_outside.
    subst samples. rewrite run_length. lia.
Qed.

(** X28.  [stopNote] with tail-off puts the envelope in Release at its current
    level and touches nothing else.  Without tail-off it only clears the
    note: the voice's own state is untouched, so an envelope that was active
    stays active and the next [renderNextBlock] renders exactly as if
    [stopNote] had not been called. *)
Theorem stopNote_spec (v : AdditiveVoice.t) (buf : AudioBuffer.t) (start n : Z) :
  (let '(v', cleared) := stopNote true v in
   cleared = false
   /\ oscillator v' = oscillator v /\ currentVelocity v' = currentVelocity v
   /\ EnvelopeProcessor.currentState (envelope v') = EnvelopeProcessor.Release
   /\ EnvelopeProcessor.currentLevel (envelope v')
      = EnvelopeProcessor.currentLevel (envelope v))
  /\ (let '(v', cleared) := stopNote false v in
      cleared = true /\ v' = v
      /\ (EnvelopeProcessor.isActive (envelope v) = true ->
          renderNextBlock sinf buf start n v'
          = (snd (run sinf (Z.to_nat n) v),
             mix_into start (fst (run sinf (Z.to_nat n) v)) <$> buf, false))).
Proof.
  split; [cbn; repeat split |].
  cbn [stopNote]. split; [reflexivity |]. split; [reflexivity |].
  apply renderNextBlock_spec.
Qed.
End RenderExtra2.

Section MorphingEngineExtra.
Import HarmonicData HarmonicState HarmonicStateInv.

(** X8.  The engine after the three setters: the stored amount is the clamped
    one (in [0,1] unless NaN was passed), a query blends slot by slot with
    it, and the [enabled] flags of the result are those of the source. *)
Theorem MorphingEngine_query_after_setters
    (m : MorphingEngine.t) (src tgt : HarmonicState.t) (t : float) (i : Z) :
  wf src -> 0 <= i < Constants.MAX_HARMONICS ->
  let m' := MorphingEngine.setMorphAmount t
              (MorphingEngine.setTargetState tgt (MorphingEngine.setSourceState src m)) in
  let result := getHarmonic i (fst (MorphingEngine.getCurrentState m')) in
  let amount := jlimit F32.zero F32.one t in
  MorphingEngine.getMorphAmount m' = amount
  /\ (is_nan t = false -> in_unit (MorphingEngine.getMorphAmount m') = true)
  /\ amplitude result
     = blend (amplitude (getHarmonic i src)) (amplitude (getHarmonic i tgt)) amount
  /\ phase result = blend (phase (getHarmonic i src)) (phase (getHarmonic i tgt)) amount
  /\ enabled result = enabled (getHarmonic i src).
Proof.
  intros Hwf Hi m' result amount. subst m' result amount.
  split; [reflexivity |]. split; [apply in_unit_jlimit |].
  unfold MorphingEngine.getCurrentState, MorphingEngine.setMorphAmount,
    MorphingEngine.setTargetState, MorphingEngine.setSourceState.
  cbn [fst MorphingEngine.sourceState MorphingEngine.targetState
       MorphingEngine.morphAmount].
  rewrite !copyFrom_eq.
  apply in_range_spec in Hi as Hr.
  unfold getHarmonic. rewrite Hr.
  rewrite morphTo_at; [| exact Hwf | unfold Constants.MAX_HARMONICS in *; lia].
  rewrite jlimit_idempotent. unfold morph_cell.
  cbn [amplitude phase enabled with_phase with_amplitude]. repeat split.
Qed.
End MorphingEngineExtra.

Section ProcessorExtra.
Import AdditiveSynthAudioProcessor.
Variable sinf : float -> float.

(** X29.  The processor's [setHarmonicState] stores a copy of the spectrum and
    pushes its clamped amplitudes into every voice of the pool; the number
    of voices, the oscillators' phases and frequencies, the envelopes and
    the velocities are left alone. *)
Theorem processor_setHarmonicState
    (state : HarmonicState.t) (p : t) (k : nat) (v : AdditiveVoice.t)
    (i : nat) (o : SineWaveGenerator.t) :
  voices p !! k = Some v ->
  HarmonicOscillator.wf (AdditiveVoice.oscillator v) ->
  HarmonicOscillator.oscillators (AdditiveVoice.oscillator v) !! i = Some o ->
  let p' := setHarmonicState state p in
  harmonicState p' = state
  /\ length (voices p') = length (voices p)
  /\ exists v' o',
       voices p' !! k = Some v'
       /\ AdditiveVoice.envelope v' = AdditiveVoice.envelope v
       /\ AdditiveVoice.currentVelocity v' = AdditiveVoice.currentVelocity v
       /\ HarmonicOscillator.oscillators (AdditiveVoice.oscillator v') !! i = Some o'
       /\ SineWaveGenerator.amplitude o'
          = jlimit F32.zero F32.one
              (HarmonicState.getHarmonicAmplitude (Z.of_nat i) state)
       /\ SineWaveGenerator.currentPhase o' = SineWaveGenerator.currentPhase o
       /\ SineWaveGenerator.frequency o' = SineWaveGenerator.frequency o.
Proof.
  intros Hv Hwf Ho p'. subst p'.
  unfold setHarmonicState, updateVoicesWithHarmonicState.
  cbn [voices harmonicState morphingEngine]. rewrite for_upto_alter_all, copyFrom_eq.
  split; [reflexivity |]. split; [apply length_fmap |].
  destruct (setHarmonicState_oscillator sinf state (AdditiveVoice.oscillator v) i o Hwf Ho)
    as (o' & Ho' & Hamp & Hph & Hfr & _).
  exists (AdditiveVoice.setHarmonicState state v), o'.
  rewrite list_lookup_fmap, Hv. repeat split; assumption.
Qed.

(** X30.  After [prepareToPlay] every voice has its oscillator increments and
    its envelope rates in step with the sample rate; after
    [setEnvelopeParameters] every envelope holds the four values given
    (sustain clamped) with rates computed from them, and the oscillators are
    untouched. *)
Theorem processor_derived_values
    (p : t) (sr : double) (block : Z) (attack decay sustain release : float)
    (k : nat) (v : AdditiveVoice.t) :
  voices p !! k = Some v ->
  HarmonicOscillator.wf (AdditiveVoice.oscillator v) ->
  (exists v', voices (prepareToPlay sr block p) !! k = Some v'
     /\ HarmonicOscillatorInv.increments_consistent (AdditiveVoice.oscillator v')
     /\ EnvelopeRun.rates_consistent (AdditiveVoice.envelope v')
     /\ EnvelopeProcessor.sampleRate (AdditiveVoice.envelope v') = sr)
  /\ (exists v', voices (setEnvelopeParameters attack decay sustain release p) !! k = Some v'
       /\ EnvelopeRun.rates_consistent (AdditiveVoice.envelope v')
       /\ EnvelopeProcessor.attackTime (AdditiveVoice.envelope v') = attack
       /\ EnvelopeProcessor.decayTime (AdditiveVoice.envelope v') = decay
       /\ EnvelopeProcessor.sustainLevel (AdditiveVoice.envelope v')
          = jlimit F32.zero F32.one sustain
       /\ EnvelopeProcessor.releaseTime (AdditiveVoice.envelope v') = release
       /\ AdditiveVoice.oscillator v' = AdditiveVoice.oscillator v).
Proof.
  intros Hv Hwf. split.
  - exists (AdditiveVoice.prepare sr v).
    unfold prepareToPlay. cbn [voices]. rewrite for_upto_alter_all, list_lookup_fmap, Hv.
    split; [reflexivity |]. split; [| split; [| reflexivity]].
    + apply (increments_consistent_invariant sinf _ sr F32.zero F32.zero HarmonicState.new Hwf).
    + apply (rates_consistent_invariant (AdditiveVoice.envelope v) sr F32.zero).
  - exists (AdditiveVoice.setEnvelope attack decay sustain release v).
    unfold setEnvelopeParameters. cbn [voices].
    rewrite for_upto_alter_all, list_lookup_fmap, Hv.
    split; [reflexivity |].
    destruct (setEnvelope_rates_consistent attack decay sustain release v)
      as (H1 & H2 & H3 & H4 & H5 & _ & _ & H8).
    repeat split; assumption.
Qed.

End ProcessorExtra.

(* ===================================================================== *)
(** ** Rounding to binary32, and the unit interval                        *)
(* ===================================================================== *)

Section Binary32Rounding.
Import Binary32.

Lemma shr_1_nonneg (m : Z) (r s : bool) :
  0 <= m ->
  shr_1 (Build_shr_record m r s) = Build_shr_record (m / 2) (Z.odd m) (r || s).
Proof.
  intros Hm. destruct m as [| p | p]; [reflexivity | | lia].
  destruct p as [p | p |]; cbn [shr_1].
  - rewrite Pos2Z.inj_xI. f_equal.
    apply Z.div_unique with 1; lia.
  - rewrite Pos2Z.inj_xO. f_equal.
    apply Z.div_unique with 0; lia.
  - reflexivity.
Qed.

Lemma iter_pos_nat {A : Type} (f : A -> A) (p : positive) (x : A) :
  SpecFloat.iter_pos f p x = Nat.iter (Pos.to_nat p) f x.
Proof.
  revert x. induction p as [p IH | p IH |]; intros x; cbn [SpecFloat.iter_pos].
  - rewrite !IH.
    replace (Pos.to_nat p~1) with (Pos.to_nat p + (Pos.to_nat p + 1))%nat by lia.
    rewrite !Nat.iter_add. reflexivity.
  - rewrite !IH.
    replace (Pos.to_nat p~0) with (Pos.to_nat p + Pos.to_nat p)%nat by lia.
    rewrite Nat.iter_add. reflexivity.
  - reflexivity.
Qed.

Lemma mod_pow2_succ (m k : Z) :
  0 <= k ->
  m mod 2 ^ (k + 1)
  = m mod 2 ^ k + 2 ^ k * (if Z.odd (m / 2 ^ k) then 1 else 0).
Proof.
  intros Hk. rewrite Z.pow_add_r, Z.pow_1_r by lia.
  rewrite Z.rem_mul_r by lia. f_equal. f_equal.
  rewrite Zmod_odd. reflexivity.
Qed.

Lemma iter_shr_1 (m : Z) (k : nat) :
  0 <= m ->
  Nat.iter (S k) shr_1 (Build_shr_record m false false)
  = Build_shr_record (m / 2 ^ Z.of_nat (S k)) (Z.odd (m / 2 ^ Z.of_nat k))
      (negb (m mod 2 ^ Z.of_nat k =? 0)).
Proof.
  intros Hm. induction k as [| k IH].
  - cbn [Nat.iter nat_rect]. rewrite shr_1_nonneg by assumption.
    change (Z.of_nat 1) with 1. change (Z.of_nat 0) with 0.
    rewrite Z.pow_1_r, Z.pow_0_r, Z.div_1_r, Z.mod_1_r. reflexivity.
  - change (Nat.iter (S (S k)) shr_1 ?x) with (shr_1 (Nat.iter (S k) shr_1 x)).
    rewrite IH. rewrite shr_1_nonneg by (apply Z.div_pos; lia).
    assert (Hp : 0 < 2 ^ Z.of_nat k) by (apply Z.pow_pos_nonneg; lia).
    f_equal.
    + rewrite Z.div_div by lia. f_equal.
      rewrite (Nat2Z.inj_succ (S k)), Z.pow_succ_r by lia. lia.
    + rewrite (Nat2Z.inj_succ k). replace (Z.succ (Z.of_nat k)) with (Z.of_nat k + 1) by lia.
      rewrite (mod_pow2_succ m (Z.of_nat k)) by lia.
      pose proof (Z.mod_pos_bound m (2 ^ Z.of_nat k) Hp) as Hb.
      destruct (Z.odd (m / 2 ^ Z.of_nat k)); cbn [orb].
      * symmetry. apply negb_true_iff, Z.eqb_neq. lia.
      * f_equal. f_equal. lia.
Qed.

Lemma shr_positive (m e n : Z) :
  0 <= m -> 0 < n ->
  shr (Build_shr_record m false false) e n
  = (Build_shr_record (m / 2 ^ n) (Z.odd (m / 2 ^ (n - 1)))
       (negb (m mod 2 ^ (n - 1) =? 0)), e + n).
Proof.
  intros Hm Hn. destruct n as [| p | p]; try lia.
  cbn [shr]. rewrite iter_pos_nat.
  destruct (Pos.to_nat p) as [| k] eqn:Hk; [lia |].
  rewrite iter_shr_1 by assumption.
  replace (Z.of_nat (S k)) with (Z.pos p) by lia.
  replace (Z.of_nat k) with (Z.pos p - 1) by lia. reflexivity.
Qed.

(** What rounding to nearest even does to a mantissa [m] cut by [n] bits:
    the quotient or its successor, the quotient when less than half a unit
    is cut off, the successor only from half a unit on. *)
Lemma round_nearest_even_shr (m n : Z) :
  0 <= m -> 0 < n ->
  let q := m / 2 ^ n in
  let q' := round_nearest_even q
              (loc_of_shr_record
                 (Build_shr_record q (Z.odd (m / 2 ^ (n - 1)))
                    (negb (m mod 2 ^ (n - 1) =? 0)))) in
  (q' = q \/ q' = q + 1)
  /\ (2 * (m mod 2 ^ n) < 2 ^ n -> q' = q)
  /\ (q' = q + 1 -> 2 ^ n <= 2 * (m mod 2 ^ n)).
Proof.
  intros Hm Hn q q'. subst q'.
  assert (Hp : 0 < 2 ^ (n - 1)) by (apply Z.pow_pos_nonneg; lia).
  assert (H2 : 2 ^ n = 2 * 2 ^ (n - 1)).
  { replace n with (n - 1 + 1) at 1 by lia. rewrite Z.pow_add_r, Z.pow_1_r by lia. lia. }
  pose proof (mod_pow2_succ m (n - 1) ltac:(lia)) as Hs.
  replace (n - 1 + 1) with n in Hs by lia.
  pose proof (Z.mod_pos_bound m (2 ^ (n - 1)) Hp) as Hb.
  cbn [loc_of_shr_record shr_r shr_s].
  destruct (Z.odd (m / 2 ^ (n - 1))); destruct (Z.eqb_spec (m mod 2 ^ (n - 1)) 0) as [Hz | Hz];
    cbn [negb round_nearest_even].
  - destruct (Z.even q); repeat split; try lia; auto.
  - repeat split; try lia; auto.
  - repeat split; try lia; auto.
  - repeat split; try lia; auto.
Qed.

Lemma Zdigits2_bounds (q : Z) :
  0 < q -> 2 ^ (Zdigits2 q - 1) <= q < 2 ^ Zdigits2 q.
Proof.
  intros Hq. destruct q as [| p | p]; try lia.
  cbn [Zdigits2]. apply digits2_pos_bounds.
Qed.

Lemma Zdigits2_unique (q k : Z) :
  2 ^ (k - 1) <= q < 2 ^ k -> 0 < q -> Zdigits2 q = k.
Proof.
  intros Hk Hq. pose proof (Zdigits2_bounds q Hq) as Hd.
  assert (Hdp : 0 < Zdigits2 q) by (destruct q; cbn; lia).
  assert (Hkp : 0 < k).
  { destruct (Z.lt_ge_cases 0 k) as [H | H]; [exact H |].
    destruct (Z.eq_dec k 0) as [-> | Hne]; [cbn in Hk; lia |].
    rewrite (Z.pow_neg_r 2 k) in Hk by lia. lia. }
  destruct (Z.lt_total (Zdigits2 q) k) as [H | [H | H]]; [| exact H |].
  - assert (2 ^ Zdigits2 q <= 2 ^ (k - 1)) by (apply Z.pow_le_mono_r; lia). lia.
  - assert (2 ^ k <= 2 ^ (Zdigits2 q - 1)) by (apply Z.pow_le_mono_r; lia). lia.
Qed.

Lemma pow2_split (a b : Z) : 0 <= a -> 0 <= b -> 2 ^ (a + b) = 2 ^ a * 2 ^ b.
Proof. intros. apply Z.pow_add_r; assumption. Qed.

Lemma pow2_pos (a : Z) : 0 <= a -> 0 < 2 ^ a.
Proof. intros. apply Z.pow_pos_nonneg; lia. Qed.

(** The quotient of a [d]-digit mantissa by 2^n has [d - n] digits. *)
Lemma quotient_bounds (m d n : Z) :
  2 ^ (d - 1) <= m < 2 ^ d -> 0 < n < d ->
  2 ^ (d - n - 1) <= m / 2 ^ n < 2 ^ (d - n).
Proof.
  intros Hm Hn.
  pose proof (pow2_pos n ltac:(lia)) as Hp.
  split.
  - apply Z.div_le_lower_bound; [exact Hp |].
    rewrite <- pow2_split by lia. replace (n + (d - n - 1)) with (d - 1) by lia. lia.
  - apply Z.div_lt_upper_bound; [exact Hp |].
    rewrite <- pow2_split by lia. replace (n + (d - n)) with d by lia. lia.
Qed.

Lemma fexp_alt (x : Z) : fexp 24 128 x = Z.max (x - 24) (-149).
Proof. reflexivity. Qed.

Lemma bounded_alt (m : positive) (e : Z) :
  bounded 24 128 m e = true
  <-> fexp 24 128 (Z.pos (digits2_pos m) + e) = e /\ e <= 104.
Proof.
  unfold bounded, canonical_mantissa. rewrite andb_true_iff, Z.eqb_eq, Z.leb_le.
  reflexivity.
Qed.

(** The second stage of [binary_round_aux]: a rounded mantissa [q] with as many
    digits as the exponent allows, or one more when the rounding carried into
    a power of 2. *)
Lemma round_second_stage (q e k : Z) :
  0 < q -> 2 ^ (k - 1) <= q <= 2 ^ k -> 0 < k ->
  fexp 24 128 (k + e) = e -> e < 104 ->
  stands_for
    (let '(mrs, e'') := shr_fexp 24 128 q e loc_Exact in
     match shr_m mrs with
     | Z0 => S754_zero false
     | Z.pos m => if e'' <=? 128 - 24 then S754_finite false m e'' else S754_infinity false
     | Z.neg _ => S754_nan
     end) q e.
Proof.
  intros Hq Hk Hkp Hf He.
  destruct (Z.eq_dec q (2 ^ k)) as [Hc | Hc].
  - (* the rounding carried *)
    assert (Hd : Zdigits2 q = k + 1).
    { apply Zdigits2_unique; [| exact Hq]. replace (k + 1 - 1) with k by lia.
      rewrite pow2_split, Z.pow_1_r by lia. lia. }
    unfold shr_fexp. rewrite Hd.
    assert (Hn : fexp 24 128 (k + 1 + e) - e = 0 \/ fexp 24 128 (k + 1 + e) - e = 1)
      by (rewrite fexp_alt in *; lia).
    destruct Hn as [Hn | Hn]; rewrite Hn.
    + cbn [shr shr_record_of_loc shr_m]. destruct q as [| p | p]; try lia.
      replace (e <=? 128 - 24) with true by (symmetry; apply Z.leb_le; lia).
      right. exists p, e. repeat split; try lia.
      * apply bounded_alt. cbn [Zdigits2] in Hd. rewrite Hd. split; lia.
      * rewrite Z.sub_diag. lia.
    + cbn [shr_record_of_loc]. rewrite shr_positive by lia.
      cbn [shr_m]. rewrite Z.pow_1_r.
      assert (Hq2 : q = 2 * 2 ^ (k - 1)).
      { rewrite Hc. replace k with (k - 1 + 1) at 1 by lia.
        rewrite pow2_split, Z.pow_1_r by lia. lia. }
      assert (Hdiv : q / 2 = 2 ^ (k - 1)).
      { rewrite Hq2. rewrite Z.mul_comm, Z.div_mul by lia. reflexivity. }
      rewrite Hdiv.
      pose proof (pow2_pos (k - 1) ltac:(lia)) as Hp.
      assert (Hdp : Zdigits2 (2 ^ (k - 1)) = k).
      { apply Zdigits2_unique; [| lia]. lia. }
      destruct (2 ^ (k - 1)) as [| p | p] eqn:Hpk; try lia.
      replace (e + 1 <=? 128 - 24) with true by (symmetry; apply Z.leb_le; lia).
      right. exists p, (e + 1). repeat split; try lia.
      * apply bounded_alt.
        cbn [Zdigits2] in Hdp. rewrite Hdp.
        replace (k + (e + 1)) with (k + 1 + e) by lia. split; lia.
      * replace (e + 1 - e) with 1 by lia. rewrite Z.pow_1_r. lia.
  - assert (Hd : Zdigits2 q = k) by (apply Zdigits2_unique; lia).
    unfold shr_fexp. rewrite Hd, Hf, Z.sub_diag.
    cbn [shr shr_record_of_loc shr_m]. destruct q as [| p | p]; try lia.
    replace (e <=? 128 - 24) with true by (symmetry; apply Z.leb_le; lia).
    right. exists p, e. repeat split; try lia.
    + apply bounded_alt. cbn [Zdigits2] in Hd. rewrite Hd. split; lia.
    + rewrite Z.sub_diag. lia.
Qed.

(** [binary_round_aux] on an exact mantissa that has to lose [n > 0] bits:
    the result stands for the quotient rounded to nearest even, at the
    exponent binary32 gives numbers of that magnitude. *)
Lemma binary_round_aux_shift (m : positive) (e : Z) :
  let e' := fexp 24 128 (Z.pos (digits2_pos m) + e) in
  let n := e' - e in
  let q := Z.pos m / 2 ^ n in
  e < e' -> e' < 104 ->
  exists q',
    (q' = q \/ q' = q + 1)
    /\ (2 * (Z.pos m mod 2 ^ n) < 2 ^ n -> q' = q)
    /\ (q' = q + 1 -> 2 ^ n <= 2 * (Z.pos m mod 2 ^ n))
    /\ stands_for (binary_round_aux 24 128 false (Z.pos m) e loc_Exact) q' e'.
Proof.
  intros e' n q Hn He.
  pose proof (round_nearest_even_shr (Z.pos m) n ltac:(lia) ltac:(lia)) as Hr.
  cbv zeta in Hr. fold q in Hr.
  set (q' := round_nearest_even q _) in Hr.
  exists q'. destruct Hr as (Hq' & Hlow & Hhigh).
  split; [exact Hq' |]. split; [exact Hlow |]. split; [exact Hhigh |].
  unfold binary_round_aux. unfold shr_fexp at 1.
  cbn [shr_record_of_loc Zdigits2]. fold e'. fold n.
  rewrite shr_positive by lia. fold q. cbn [shr_m]. fold q'.
  replace (e + n) with e' by lia.
  pose proof (digits2_pos_bounds m) as Hd.
  set (d := Z.pos (digits2_pos m)) in *.
  assert (Hdp : 0 < d) by (unfold d; lia).
  destruct (Z.lt_ge_cases n d) as [Hnd | Hnd].
  - pose proof (quotient_bounds (Z.pos m) d n Hd ltac:(lia)) as Hq. fold q in Hq.
    assert (H2 : 2 ^ (d - n) = 2 * 2 ^ (d - n - 1)).
    { replace (d - n) with (d - n - 1 + 1) at 1 by lia.
      rewrite pow2_split, Z.pow_1_r by lia. lia. }
    pose proof (pow2_pos (d - n - 1) ltac:(lia)) as Hp.
    apply round_second_stage with (k := d - n); try lia.
    replace (d - n + e') with (d + e) by lia. reflexivity.
  - assert (Hq : q = 0).
    { unfold q. apply Z.div_small. split; [lia |].
      assert (2 ^ d <= 2 ^ n) by (apply Z.pow_le_mono_r; lia). lia. }
    assert (He' : e' = -149).
    { assert (Hm : e' = Z.max (d + e - 24) (-149)) by reflexivity.
      unfold n in Hnd. lia. }
    destruct Hq' as [Hq' | Hq']; rewrite Hq' , Hq, He'.
    + left. split; reflexivity.
    + right. exists 1%positive, (-149). repeat split; reflexivity.
Qed.

Lemma bounded_range (m : positive) (e : Z) :
  bounded 24 128 m e = true ->
  -149 <= e <= 104 /\ Z.pos m < 2 ^ 24 /\ (-149 < e -> 2 ^ 23 <= Z.pos m).
Proof.
  intros [Hf He]%bounded_alt. rewrite fexp_alt in Hf.
  pose proof (digits2_pos_bounds m) as Hd.
  set (d := Z.pos (digits2_pos m)) in *.
  assert (Hdp : 0 < d) by (unfold d; lia). clearbody d.
  assert (Hd24 : d <= 24) by (clear Hd; lia).
  split; [clear Hd; lia |]. split.
  - assert (2 ^ d <= 2 ^ 24) by (apply Z.pow_le_mono_r; lia). lia.
  - intros Hn. assert (d = 24) by (clear Hd; lia). replace (d - 1) with 23 in Hd by lia. lia.
Qed.

Lemma value_lt_exponent (m1 : positive) (e1 : Z) (m2 : positive) (e2 : Z) :
  bounded 24 128 m1 e1 = true -> bounded 24 128 m2 e2 = true -> e1 < e2 ->
  Z.pos m1 * 2 ^ (e1 + 298) < Z.pos m2 * 2 ^ (e2 + 298).
Proof.
  intros (He1 & Hm1 & _)%bounded_range (He2 & _ & Hm2)%bounded_range Hlt.
  specialize (Hm2 ltac:(lia)).
  replace (e2 + 298) with (e1 + 298 + (e2 - e1)) by lia.
  rewrite (pow2_split (e1 + 298) (e2 - e1)) by lia.
  pose proof (pow2_pos (e1 + 298) ltac:(lia)) as HA.
  assert (HP : 2 ^ 1 <= 2 ^ (e2 - e1)) by (apply Z.pow_le_mono_r; lia).
  change (2 ^ 1) with 2 in HP. change (2 ^ 24) with 16777216 in Hm1.
  change (2 ^ 23) with 8388608 in Hm2.
  set (A := 2 ^ (e1 + 298)) in *. set (P := 2 ^ (e2 - e1)) in *.
  assert (H1 : A * 2 <= A * P) by (apply Z.mul_le_mono_nonneg_l; lia).
  assert (H2 : 8388608 * (A * P) <= Z.pos m2 * (A * P))
    by (apply Z.mul_le_mono_nonneg_r; lia).
  assert (H3 : Z.pos m1 * A < 16777216 * A) by (apply Z.mul_lt_mono_pos_r; lia).
  lia.
Qed.

Lemma fle_value_finite (m1 : positive) (e1 : Z) (m2 : positive) (e2 : Z) :
  bounded 24 128 m1 e1 = true -> bounded 24 128 m2 e2 = true ->
  fle (S754_finite false m1 e1) (S754_finite false m2 e2) = true
  <-> Z.pos m1 * 2 ^ (e1 + 298) <= Z.pos m2 * 2 ^ (e2 + 298).
Proof.
  intros Hb1 Hb2. rewrite fle_finite_pos.
  pose proof (bounded_range _ _ Hb1) as (He1 & _).
  split.
  - intros [Hlt | [-> Hle]].
    + apply Z.lt_le_incl. now apply value_lt_exponent.
    + apply Z.mul_le_mono_nonneg_r; [apply Z.pow_nonneg; lia | exact Hle].
  - intros Hle. destruct (Z.lt_total e1 e2) as [H | [H | H]].
    + left. exact H.
    + right. split; [exact H |]. subst e2.
      pose proof (pow2_pos (e1 + 298) ltac:(lia)) as HA. nia.
    + pose proof (value_lt_exponent _ _ _ _ Hb2 Hb1 H). lia.
Qed.

Lemma value_nonneg (x : float) : 0 <= value x.
Proof.
  destruct x as [s | s | | [|] m e]; cbn [value]; lia.
Qed.

Lemma value_positive (m : positive) (e : Z) :
  -298 <= e -> 0 < value (S754_finite false m e).
Proof.
  intros He. cbn [value]. pose proof (pow2_pos (e + 298) ltac:(lia)). lia.
Qed.

(** On valid non-negative numbers, [<=] compares values. *)
Lemma fle_value (x y : float) :
  F32.valid x = true -> F32.valid y = true -> nonneg x = true -> nonneg y = true ->
  fle x y = true <-> value x <= value y.
Proof.
  intros Hx Hy Nx Ny.
  destruct x as [sx | sx | | [|] mx ex]; try discriminate;
    destruct y as [sy | sy | | [|] my ey]; try discriminate.
  - cbn [value]. split; [lia | reflexivity].
  - pose proof (bounded_range _ _ Hy) as (He & _).
    pose proof (value_positive my ey ltac:(lia)). cbn [value] in *.
    split; [lia | reflexivity].
  - pose proof (bounded_range _ _ Hx) as (He & _).
    pose proof (value_positive mx ex ltac:(lia)) as Hp. split; [discriminate |].
    cbn [value] in *. lia.
  - apply fle_value_finite; assumption.
Qed.

Lemma stands_for_valid (f : float) (q e : Z) :
  stands_for f q e -> F32.valid f = true /\ nonneg f = true.
Proof.
  intros [[_ ->] | (mf & ef & -> & Hb & _)]; split; try reflexivity. exact Hb.
Qed.

Lemma stands_for_value (f : float) (q e : Z) :
  stands_for f q e -> -298 <= e -> value f = q * 2 ^ (e + 298).
Proof.
  intros [[-> ->] | (mf & ef & -> & Hb & He & <-)] Hlo.
  - reflexivity.
  - cbn [value]. replace (ef + 298) with (ef - e + (e + 298)) by lia.
    rewrite (pow2_split (ef - e) (e + 298)) by lia. lia.
Qed.

(** [binary_round_aux] on a mantissa that has to lose bits. *)
Lemma binary_round_aux_value (m : positive) (e : Z) :
  let e' := fexp 24 128 (Z.pos (digits2_pos m) + e) in
  -298 <= e -> e < e' -> e' < 104 ->
  rounded (binary_round_aux 24 128 false (Z.pos m) e loc_Exact) (Z.pos m) e e'.
Proof.
  intros e' Hlo Hn He.
  destruct (binary_round_aux_shift m e Hn He) as (q' & Hq' & _ & Hhigh & Hs).
  fold e' in Hq', Hhigh, Hs.
  exists q'. split; [exact Hs |].
  set (n := e' - e) in *.
  pose proof (pow2_pos n ltac:(lia)) as HP.
  pose proof (pow2_pos (e + 298) ltac:(lia)) as HA.
  assert (He' : 2 ^ (e' + 298) = 2 ^ (e + 298) * 2 ^ n).
  { replace (e' + 298) with (e + 298 + n) by lia. apply pow2_split; lia. }
  rewrite He'.
  pose proof (Z.div_mod (Z.pos m) (2 ^ n) ltac:(lia)) as Hdm.
  pose proof (Z.mod_pos_bound (Z.pos m) (2 ^ n) HP) as Hrem.
  set (q := Z.pos m / 2 ^ n) in *. set (r := Z.pos m mod 2 ^ n) in *.
  set (P := 2 ^ n) in *. set (A := 2 ^ (e + 298)) in *.
  split.
  - intros C HC.
    assert (H2 : 2 * Z.pos m < (2 * C + 1) * P) by nia.
    destruct Hq' as [-> | ->].
    + nia.
    + specialize (Hhigh eq_refl). nia.
  - destruct Hq' as [-> | Hq1].
    + nia.
    + specialize (Hhigh Hq1). rewrite Hq1. nia.
Qed.

Lemma iter_xO_value (m k : positive) :
  Z.pos (Pos.iter xO m k) = Z.pos m * 2 ^ Z.pos k.
Proof.
  induction k as [| k IH] using Pos.peano_ind.
  - cbn [Pos.iter]. rewrite Z.pow_1_r. lia.
  - rewrite Pos.iter_succ, Pos2Z.inj_xO, IH, Pos2Z.inj_succ, Z.pow_succ_r by lia. lia.
Qed.

(** [binary_round], which first aligns a short mantissa and then rounds. *)
Lemma binary_round_value (m : positive) (e : Z) :
  let e' := fexp 24 128 (Z.pos (digits2_pos m) + e) in
  -298 <= e -> e' < 104 ->
  rounded (binary_round 24 128 false m e) (Z.pos m) e e'.
Proof.
  intros e' Hlo He.
  assert (He'lo : -149 <= e') by (unfold e'; rewrite fexp_alt; lia).
  unfold binary_round, shl_align. fold e'.
  destruct (e' - e) as [| p | p] eqn:Hp.
  - assert (e' = e) by lia.
    rewrite binary_round_aux_canonical by (apply bounded_alt; fold e'; lia).
    exists (Z.pos m). replace e' with e by lia.
    pose proof (pow2_pos (e + 298) ltac:(lia)) as HA.
    split; [| split].
    + right. exists m, e. repeat split; try lia.
      * apply bounded_alt. fold e'. lia.
      * rewrite Z.sub_diag. lia.
    + intros C HC. nia.
    + lia.
  - apply binary_round_aux_value; fold e'; lia.
  - assert (Hb : bounded 24 128 (Pos.iter xO m p) e' = true).
    { apply bounded_alt. rewrite digits2_pos_iter_xO.
      replace (Z.pos (digits2_pos m) + Z.pos p + e') with (Z.pos (digits2_pos m) + e) by lia.
      fold e'. lia. }
    rewrite binary_round_aux_canonical by exact Hb.
    exists (Z.pos m * 2 ^ Z.pos p).
    pose proof (pow2_pos (e' + 298) ltac:(lia)) as HA.
    assert (Hs : 2 ^ (e + 298) = 2 ^ Z.pos p * 2 ^ (e' + 298)).
    { replace (e + 298) with (Z.pos p + (e' + 298)) by lia. apply pow2_split; lia. }
    split; [| split].
    + right. exists (Pos.iter xO m p), e'. repeat split; try lia; [exact Hb |].
      rewrite Z.sub_diag, iter_xO_value. lia.
    + intros C HC. rewrite Hs in HC. nia.
    + rewrite Hs. lia.
Qed.

(** The digits of a mantissa whose value stays below a power of 2. *)
Lemma digits_exponent_le (m : positive) (e k : Z) :
  -298 <= e -> -298 <= k ->
  Z.pos m * 2 ^ (e + 298) < 2 ^ (k + 298) ->
  Z.pos (digits2_pos m) + e <= k.
Proof.
  intros He Hk Hlt.
  pose proof (digits2_pos_bounds m) as Hd.
  set (d := Z.pos (digits2_pos m)) in *.
  assert (Hdp : 0 < d) by (unfold d; lia). clearbody d.
  pose proof (pow2_pos (e + 298) ltac:(lia)) as HA.
  assert (H1 : 2 ^ (d - 1 + (e + 298)) < 2 ^ (k + 298)).
  { rewrite (pow2_split (d - 1) (e + 298)) by lia.
    apply Z.le_lt_trans with (Z.pos m * 2 ^ (e + 298)); [| exact Hlt].
    apply Z.mul_le_mono_nonneg_r; lia. }
  apply Z.pow_lt_mono_r_iff in H1; lia.
Qed.

Lemma value_below_digits (m : positive) (e : Z) :
  -298 <= e ->
  Z.pos m * 2 ^ (e + 298) < 2 ^ (Z.pos (digits2_pos m) + e + 298).
Proof.
  intros He. pose proof (digits2_pos_bounds m) as [_ Hd].
  replace (Z.pos (digits2_pos m) + e + 298) with (Z.pos (digits2_pos m) + (e + 298)) by lia.
  rewrite (pow2_split (Z.pos (digits2_pos m)) (e + 298)) by lia.
  pose proof (pow2_pos (e + 298) ltac:(lia)).
  apply Z.mul_lt_mono_pos_r; assumption.
Qed.

(** Rounding against a representable bound: what lies below a binary32
    number and half a unit rounds to at most that number. *)
Lemma rounded_below (R : float) (m e e' : Z) (mc : positive) (ec : Z) :
  rounded R m e e' -> -149 <= e' <= ec -> bounded 24 128 mc ec = true ->
  2 * (m * 2 ^ (e + 298)) < 2 * (Z.pos mc * 2 ^ (ec + 298)) + 2 ^ (e' + 298) ->
  F32.valid R = true /\ nonneg R = true
  /\ value R <= value (S754_finite false mc ec).
Proof.
  intros (q' & Hs & HP & _) He' Hb Hlt.
  destruct (stands_for_valid _ _ _ Hs) as [Hv Hn].
  split; [exact Hv |]. split; [exact Hn |].
  rewrite (stands_for_value _ _ _ Hs) by lia. cbn [value].
  assert (Hc : 2 ^ (ec + 298) = 2 ^ (ec - e') * 2 ^ (e' + 298)).
  { replace (ec + 298) with (ec - e' + (e' + 298)) by lia. apply pow2_split; lia. }
  pose proof (pow2_pos (e' + 298) ltac:(lia)) as HA.
  pose proof (pow2_pos (ec - e') ltac:(lia)) as HB.
  specialize (HP (Z.pos mc * 2 ^ (ec - e'))).
  rewrite Hc in Hlt |- *.
  assert (q' <= Z.pos mc * 2 ^ (ec - e')) by (apply HP; nia).
  nia.
Qed.

(** Rounding is monotone against a representable bound. *)
Lemma rounded_le (R : float) (m : positive) (e : Z) (mc : positive) (ec : Z) :
  rounded R (Z.pos m) e (fexp 24 128 (Z.pos (digits2_pos m) + e)) ->
  -298 <= e -> bounded 24 128 mc ec = true ->
  Z.pos m * 2 ^ (e + 298) <= Z.pos mc * 2 ^ (ec + 298) ->
  F32.valid R = true /\ nonneg R = true
  /\ value R <= value (S754_finite false mc ec).
Proof.
  intros HR He Hb Hle.
  pose proof (bounded_range _ _ Hb) as (Hec & _).
  pose proof Hb as [Hfc _]%bounded_alt.
  set (e' := fexp 24 128 (Z.pos (digits2_pos m) + e)) in *.
  assert (He' : -149 <= e' <= ec).
  { pose proof (value_below_digits mc ec ltac:(lia)) as Hc.
    pose proof (digits_exponent_le m e (Z.pos (digits2_pos mc) + ec) He ltac:(lia) ltac:(lia)) as Hd.
    unfold e'. rewrite fexp_alt in *. lia. }
  apply (rounded_below R (Z.pos m) e e'); try assumption.
  pose proof (pow2_pos (e' + 298) ltac:(lia)). lia.
Qed.

Lemma rounded_half (R : float) (m e e' : Z) :
  rounded R m e e' -> -298 <= e' ->
  2 * value R <= 2 * (m * 2 ^ (e + 298)) + 2 ^ (e' + 298).
Proof.
  intros (q' & Hs & _ & Hh) He'. rewrite (stands_for_value _ _ _ Hs) by lia. exact Hh.
Qed.
End Binary32Rounding.

Section UnitInterval.
Import Binary32 HarmonicData HarmonicState HarmonicStateInv.

Lemma value_one : value F32.one = 2 ^ 298.
Proof. reflexivity. Qed.

Lemma in_unit_inv (x : float) :
  F32.valid x = true -> in_unit x = true ->
  nonneg x = true /\ value x <= 2 ^ 298.
Proof.
  intros Hv Hu. unfold in_unit in Hu. apply andb_true_iff in Hu as [H0 H1].
  destruct x as [s | s | | [|] m e]; try discriminate.
  - split; [reflexivity |]. cbn [value]. lia.
  - destruct s; discriminate.
  - split; [reflexivity |]. rewrite <- value_one.
    apply fle_value; [exact Hv | reflexivity | reflexivity | reflexivity | exact H1].
Qed.

Lemma in_unit_exponent (m : positive) (e : Z) :
  in_unit (S754_finite false m e) = true -> e <= -23.
Proof.
  unfold in_unit. intros [_ H1]%andb_true_iff.
  apply fle_finite_pos in H1. lia.
Qed.

Lemma in_unit_of_value (x : float) :
  F32.valid x = true -> nonneg x = true -> value x <= 2 ^ 298 -> in_unit x = true.
Proof.
  intros Hv Hn Hle. unfold in_unit. apply andb_true_iff. split.
  - destruct x as [s | s | | [|] m e]; try discriminate; reflexivity.
  - apply fle_value; [exact Hv | reflexivity | exact Hn | reflexivity |].
    rewrite value_one. exact Hle.
Qed.

(** The product of two numbers of the unit interval is at most the second
    factor, rounding included. *)
Lemma mul_le_factor (a u : float) :
  F32.valid a = true -> in_unit a = true ->
  F32.valid u = true -> in_unit u = true ->
  F32.valid (F32.mul a u) = true /\ nonneg (F32.mul a u) = true
  /\ value (F32.mul a u) <= value u.
Proof.
  intros Hva Hua Hvu Huu.
  destruct (in_unit_inv a Hva Hua) as [Hna Hla].
  destruct (in_unit_inv u Hvu Huu) as [Hnu Hlu].
  destruct a as [sa | sa | | [|] ma ea]; try discriminate;
    destruct u as [su | su | | [|] mu eu]; try discriminate.
  - repeat split. cbn. lia.
  - repeat split. apply value_nonneg.
  - repeat split. cbn. lia.
  - pose proof (in_unit_exponent _ _ Hua) as Hea.
    pose proof (in_unit_exponent _ _ Huu) as Heu.
    pose proof (bounded_range _ _ Hva) as (Hra & Hma & Hma').
    pose proof (bounded_range _ _ Hvu) as (Hru & Hmu & Hmu').
    cbn [value] in Hla, Hlu.
    unfold F32.mul, SFmul. cbn [xorb].
    pose proof (digits2_pos_bounds (ma * mu)) as Hd.
    rewrite Pos2Z.inj_mul in Hd.
    set (d := Z.pos (digits2_pos (ma * mu))) in *.
    assert (Hdp : 0 < d) by (unfold d; lia).
    assert (Hd48 : d <= 48).
    { assert (Z.pos ma * Z.pos mu < 2 ^ 24 * 2 ^ 24) by nia.
      change (2 ^ 24 * 2 ^ 24) with (2 ^ 48) in *.
      assert (H1 : 2 ^ (d - 1) < 2 ^ 48) by lia.
      apply Z.pow_lt_mono_r_iff in H1; lia. }
    assert (He' : fexp 24 128 (d + (ea + eu)) = Z.max (d + (ea + eu) - 24) (-149))
      by reflexivity.
    assert (Hsh : ea + eu < fexp 24 128 (d + (ea + eu))).
    { destruct (Z.eq_dec ea (-149)) as [Ha | Ha]; [lia |].
      destruct (Z.eq_dec eu (-149)) as [Hu | Hu]; [lia |].
      specialize (Hma' ltac:(lia)). specialize (Hmu' ltac:(lia)).
      assert (2 ^ 23 * 2 ^ 23 <= Z.pos ma * Z.pos mu) by nia.
      change (2 ^ 23 * 2 ^ 23) with (2 ^ 46) in *.
      assert (H1 : 2 ^ 46 < 2 ^ d) by lia.
      apply Z.pow_lt_mono_r_iff in H1; lia. }
    apply (rounded_le _ (ma * mu)%positive (ea + eu)).
    + apply binary_round_aux_value; fold d; lia.
    + lia.
    + exact Hvu.
    + rewrite Pos2Z.inj_mul.
      set (K := 2 ^ 298) in *.
      assert (HK : 0 < K) by (unfold K; apply pow2_pos; lia).
      assert (HE : 2 ^ (ea + eu + 298) * K = 2 ^ (ea + 298) * 2 ^ (eu + 298)).
      { unfold K. rewrite <- !pow2_split by lia. f_equal. lia. }
      pose proof (pow2_pos (eu + 298) ltac:(lia)) as HU.
      set (E := 2 ^ (ea + eu + 298)) in *. set (A := 2 ^ (ea + 298)) in *.
      set (U := 2 ^ (eu + 298)) in *.
      assert (H1 : Z.pos ma * A * (Z.pos mu * U) <= K * (Z.pos mu * U))
        by (apply Z.mul_le_mono_nonneg_r; lia).
      apply (Z.mul_le_mono_pos_r _ _ K HK).
      replace (Z.pos ma * Z.pos mu * E * K) with (Z.pos ma * Z.pos mu * (E * K)) by ring.
      rewrite HE. lia.
Qed.

Lemma shl_align_same (m : positive) (e : Z) : shl_align m e e = (m, e).
Proof. unfold shl_align. now rewrite Z.sub_diag. Qed.

Lemma shl_align_value (m : positive) (e e' : Z) :
  e' <= e -> Z.pos (fst (shl_align m e e')) = Z.pos m * 2 ^ (e - e').
Proof.
  intros He. unfold shl_align.
  destruct (e' - e) as [| p | p] eqn:Hp; cbn [fst].
  - replace (e - e') with 0 by lia. lia.
  - lia.
  - rewrite iter_xO_value. f_equal. f_equal. lia.
Qed.

(** [1.0f - t] for [t] in the unit interval: in the unit interval, and above
    the exact difference by at most 2^-25, half a unit of the last place of
    the numbers below 1. *)
Lemma sub_one_complement (t : float) :
  F32.valid t = true -> in_unit t = true ->
  F32.valid (F32.sub F32.one t) = true /\ nonneg (F32.sub F32.one t) = true
  /\ value (F32.sub F32.one t) <= 2 ^ 298
  /\ value (F32.sub F32.one t) + value t <= 2 ^ 298 + 2 ^ 273.
Proof.
  intros Hv Hu.
  destruct (in_unit_inv t Hv Hu) as [Hn Hl].
  destruct t as [s | s | | [|] mt et]; try discriminate.
  - repeat split; cbn; lia.
  - pose proof (in_unit_exponent _ _ Hu) as Het.
    pose proof (bounded_range _ _ Hv) as (Hr & Hm & Hm').
    cbn [value] in Hl |- *.
    unfold F32.sub, F32.one, SFsub, F32.prec, F32.emax. cbn [cond_Zopp].
    rewrite Z.min_r by lia. rewrite shl_align_same. cbn [fst].
    rewrite shl_align_value by lia.
    pose proof (pow2_pos (et + 298) ltac:(lia)) as HA.
    assert (HK : 2 ^ 298 = 8388608 * 2 ^ (-23 - et) * 2 ^ (et + 298)).
    { change 8388608 with (2 ^ 23). rewrite <- !pow2_split by lia. f_equal. lia. }
    set (A := 2 ^ (et + 298)) in *. set (M := 8388608 * 2 ^ (-23 - et)) in *.
    destruct (M - Z.pos mt) as [| D | D] eqn:HD.
    + cbn [binary_normalize]. repeat split; cbn [value]; try lia.
    + cbn [binary_normalize].
      set (e' := fexp 24 128 (Z.pos (digits2_pos D) + et)).
      assert (HDv : Z.pos D * A = 2 ^ 298 - Z.pos mt * A) by nia.
      assert (He' : -149 <= e' <= -24).
      { pose proof (digits_exponent_le D et 0 ltac:(lia) ltac:(lia)) as Hd.
        fold A in Hd. specialize (Hd ltac:(change (2 ^ (0 + 298)) with (2 ^ 298); lia)).
        unfold e'. rewrite fexp_alt. lia. }
      pose proof (binary_round_value D et ltac:(lia) ltac:(fold e'; lia)) as HR.
      fold e' in HR.
      destruct (rounded_le _ D et 8388608 (-23) HR ltac:(lia) eq_refl) as (HvR & HnR & HlR).
      { fold A. change (Z.pos 8388608 * 2 ^ (-23 + 298)) with (2 ^ 298). lia. }
      pose proof (rounded_half _ _ _ _ HR ltac:(lia)) as Hh. fold A in Hh.
      assert (Hp : 2 ^ (e' + 298) <= 2 ^ 274) by (apply Z.pow_le_mono_r; lia).
      change (2 ^ 274) with (2 * 2 ^ 273) in Hp.
      change (value (S754_finite false 8388608 (-23))) with (2 ^ 298) in HlR.
      repeat split; try assumption. lia.
    + exfalso. assert (Z.pos mt * A <= M * A) by lia.
      assert (Z.pos mt <= M) by nia. lia.
Qed.

(** The sum of two numbers of the unit interval whose exact sum exceeds 1 by
    at most 2^-25 is in the unit interval: the excess is rounded away. *)
Lemma add_unit (x y : float) :
  F32.valid x = true -> in_unit x = true ->
  F32.valid y = true -> in_unit y = true ->
  value x + value y <= 2 ^ 298 + 2 ^ 273 ->
  F32.valid (F32.add x y) = true /\ in_unit (F32.add x y) = true.
Proof.
  intros Hvx Hux Hvy Huy Hsum.
  destruct (in_unit_inv x Hvx Hux) as [Hnx Hlx].
  destruct (in_unit_inv y Hvy Huy) as [Hny Hly].
  destruct x as [sx | sx | | [|] mx ex]; try discriminate;
    destruct y as [sy | sy | | [|] my ey]; try discriminate.
  - destruct sx, sy; split; reflexivity.
  - split; assumption.
  - split; assumption.
  - pose proof (bounded_range _ _ Hvx) as (Hrx & _).
    pose proof (bounded_range _ _ Hvy) as (Hry & _).
    cbn [value] in Hsum, Hlx, Hly.
    unfold F32.add, SFadd, F32.prec, F32.emax. cbn [cond_Zopp].
    set (ez := Z.min ex ey).
    rewrite !shl_align_value by (unfold ez; lia).
    pose proof (pow2_pos (ez + 298) ltac:(unfold ez; lia)) as HA.
    pose proof (pow2_pos (ex - ez) ltac:(unfold ez; lia)) as HX.
    pose proof (pow2_pos (ey - ez) ltac:(unfold ez; lia)) as HY.
    assert (Hex : 2 ^ (ex + 298) = 2 ^ (ex - ez) * 2 ^ (ez + 298)).
    { rewrite <- pow2_split by (unfold ez; lia). f_equal. lia. }
    assert (Hey : 2 ^ (ey + 298) = 2 ^ (ey - ez) * 2 ^ (ez + 298)).
    { rewrite <- pow2_split by (unfold ez; lia). f_equal. lia. }
    rewrite Hex, Hey in Hsum.
    destruct (Z.pos mx * 2 ^ (ex - ez) + Z.pos my * 2 ^ (ey - ez)) as [| S | S] eqn:HS;
      try lia.
    cbn [binary_normalize].
    assert (HSv : Z.pos S * 2 ^ (ez + 298) <= 2 ^ 298 + 2 ^ 273) by (rewrite <- HS; lia).
    set (e' := fexp 24 128 (Z.pos (digits2_pos S) + ez)).
    assert (Hez : -149 <= ez) by (unfold ez; lia).
    assert (He' : -149 <= e' <= -23).
    { pose proof (digits_exponent_le S ez 1 ltac:(lia) ltac:(lia)) as Hd.
      specialize (Hd ltac:(change (2 ^ (1 + 298)) with (2 * 2 ^ 298);
                           change (2 ^ 298) with (2 ^ 25 * 2 ^ 273) in *; lia)).
      unfold e'. rewrite fexp_alt. lia. }
    pose proof (binary_round_value S ez ltac:(lia) ltac:(fold e'; lia)) as HR.
    fold e' in HR.
    assert (Hlt : 2 * (Z.pos S * 2 ^ (ez + 298))
                  < 2 * (Z.pos 8388608 * 2 ^ (-23 + 298)) + 2 ^ (e' + 298)).
    { change (Z.pos 8388608 * 2 ^ (-23 + 298)) with (2 ^ 298).
      pose proof (pow2_pos (e' + 298) ltac:(lia)) as HE.
      destruct (Z.le_gt_cases (Z.pos S * 2 ^ (ez + 298)) (2 ^ 298)) as [Hle | Hgt]; [lia |].
      assert (He1 : e' = -23).
      { pose proof (value_below_digits S ez ltac:(lia)) as Hb.
        assert (H1 : 2 ^ 298 < 2 ^ (Z.pos (digits2_pos S) + ez + 298)) by lia.
        apply Z.pow_lt_mono_r_iff in H1; [| lia | lia].
        unfold e' in *. rewrite fexp_alt in *. lia. }
      rewrite He1. change (2 ^ (-23 + 298)) with (4 * 2 ^ 273).
      lia. }
    destruct (rounded_below _ _ _ _ 8388608 (-23) HR ltac:(lia) eq_refl Hlt)
      as (HvR & HnR & HlR).
    split; [exact HvR |].
    apply in_unit_of_value; assumption.
Qed.

(** One blended field stays in the unit interval: [a * (1 - t) + b * t] for
    binary32 numbers [a], [b] and [t] of the unit interval, with the four
    roundings of the expression. *)
Lemma blend_in_unit (a b t : float) :
  F32.valid a = true -> in_unit a = true ->
  F32.valid b = true -> in_unit b = true ->
  F32.valid t = true -> in_unit t = true ->
  F32.valid (blend a b t) = true /\ in_unit (blend a b t) = true.
Proof.
  intros Hva Hua Hvb Hub Hvt Hut.
  destruct (sub_one_complement t Hvt Hut) as (Hvu & Hnu & Hlu & Hsum).
  pose proof (in_unit_of_value _ Hvu Hnu Hlu) as Huu.
  destruct (mul_le_factor a _ Hva Hua Hvu Huu) as (Hvx & Hnx & Hlx).
  destruct (mul_le_factor b t Hvb Hub Hvt Hut) as (Hvy & Hny & Hly).
  destruct (in_unit_inv t Hvt Hut) as [_ Hlt].
  unfold blend. apply add_unit.
  - exact Hvx.
  - apply in_unit_of_value; [exact Hvx | exact Hnx | lia].
  - exact Hvy.
  - apply in_unit_of_value; [exact Hvy | exact Hny | lia].
  - lia.
Qed.

Lemma jlimit_valid (a : float) :
  F32.valid a = true -> F32.valid (jlimit F32.zero F32.one a) = true.
Proof.
  intros Ha. unfold jlimit.
  destruct (flt a F32.zero); [reflexivity |].
  destruct (flt F32.one a); [reflexivity | exact Ha].
Qed.

Lemma loadPreset_valid_new (name : string) :
  forallb (fun h => F32.valid (amplitude h)) (harmonics (loadPreset name HarmonicState.new))
  = true.
Proof.
  unfold loadPreset.
  destruct (String.eqb name "Saw"); [now vm_compute |].
  destruct (String.eqb name "Square"); [now vm_compute |].
  destruct (String.eqb name "Triangle"); [now vm_compute |].
  destruct (String.eqb name "Sine"); [now vm_compute |].
  destruct (String.eqb name "Organ"); now vm_compute.
Qed.

(** The amplitudes stay binary32 numbers under every operation of the
    spectrum, as a C++ [float] does. *)
Lemma amplitudes_valid_preserved (st other : HarmonicState.t) (i : Z) (a ph : float)
    (name : string) :
  amplitudes_valid (clear st)
  /\ (wf st -> amplitudes_valid (loadPreset name st))
  /\ (amplitudes_valid st -> F32.valid a = true ->
      amplitudes_valid (setHarmonic i a ph st)
      /\ amplitudes_valid (setHarmonicAmplitude i a st))
  /\ (amplitudes_valid other -> amplitudes_valid (copyFrom other st)).
Proof.
  split; [| split; [| split]].
  - unfold amplitudes_valid, clear. cbn [harmonics].
    apply Forall_fmap, Forall_true. intros h. reflexivity.
  - intros Hwf. rewrite (loadPreset_from_new _ st Hwf).
    apply (forallb_Forall (fun h => F32.valid (amplitude h))).
    apply loadPreset_valid_new.
  - intros Hst Ha. unfold setHarmonic, setHarmonicAmplitude.
    destruct (in_range i); [| split; exact Hst].
    split; unfold amplitudes_valid, update; cbn [harmonics];
      (apply Forall_alter; [exact Hst |]); intros h _ _;
      unfold with_enabled, with_phase, with_amplitude; cbn [amplitude];
      now apply jlimit_valid.
  - intros Ho. now rewrite copyFrom_eq.
Qed.

(** X10.  [morphTo] keeps the amplitudes in [0,1]: when the amplitudes of
    both spectra are binary32 numbers of the unit interval and the amount is
    a binary32 number other than NaN, every amplitude of the result is again
    a binary32 number of the unit interval, the rounding of each of the four
    operations of [self * (1.0f - amount) + target * amount] included. *)
Theorem morphTo_keeps_unit_interval (target : HarmonicState.t) (amount : float)
    (st : HarmonicState.t) :
  wf st ->
  amplitudes_valid st -> amplitudes_in_unit st ->
  amplitudes_valid target -> amplitudes_in_unit target ->
  F32.valid amount = true -> is_nan amount = false ->
  amplitudes_valid (morphTo target amount st)
  /\ amplitudes_in_unit (morphTo target amount st).
Proof.
  intros Hwf Hvs Hus Hvt Hut Hva Hna.
  pose proof (jlimit_valid amount Hva) as Hvj.
  pose proof (in_unit_jlimit amount Hna) as Huj.
  pose proof (morphTo_wf target amount st Hwf) as Hwf'.
  assert (Hcell : forall i h, harmonics (morphTo target amount st) !! i = Some h ->
            F32.valid (amplitude h) = true /\ in_unit (amplitude h) = true).
  { intros i h Hi.
    assert (Hlt : (i < Z.to_nat Constants.MAX_HARMONICS)%nat).
    { rewrite <- Hwf'. eapply lookup_lt_Some. exact Hi. }
    pose proof (morphTo_at target amount st i Hwf Hlt) as Hat.
    unfold at_ in Hat at 1. rewrite Hi in Hat. cbn [default from_option id] in Hat. subst h.
    unfold morph_cell, with_phase, with_amplitude. cbn [amplitude].
    destruct (lookup_lt_is_Some_2 (harmonics st) i) as [hs Hs]; [now rewrite Hwf |].
    assert (Hself : F32.valid (amplitude (at_ st i)) = true
                    /\ in_unit (amplitude (at_ st i)) = true).
    { unfold at_. rewrite Hs. cbn [default from_option id]. split.
      - exact (proj1 (Forall_lookup _ _) Hvs i hs Hs).
      - exact (proj1 (Forall_lookup _ _) Hus i hs Hs). }
    assert (Htar : F32.valid (amplitude (at_ target i)) = true
                   /\ in_unit (amplitude (at_ target i)) = true).
    { unfold at_. destruct (harmonics target !! i) as [ht |] eqn:Ht; cbn [default from_option id].
      - split.
        + exact (proj1 (Forall_lookup _ _) Hvt i ht Ht).
        + exact (proj1 (Forall_lookup _ _) Hut i ht Ht).
      - split; reflexivity. }
    destruct Hself, Htar. now apply blend_in_unit. }
  split; apply Forall_lookup; intros i h Hi; apply (Hcell i h Hi).
Qed.

Lemma rounded_valid (R : float) (m e e' : Z) :
  rounded R m e e' -> F32.valid R = true /\ nonneg R = true.
Proof. intros (q' & Hs & _). exact (stands_for_valid _ _ _ Hs). Qed.

(** The sum of two numbers of the unit interval is a non-negative binary32
    number. *)
Lemma add_unit_nonneg (x y : float) :
  F32.valid x = true -> in_unit x = true ->
  F32.valid y = true -> in_unit y = true ->
  F32.valid (F32.add x y) = true /\ nonneg (F32.add x y) = true.
Proof.
  intros Hvx Hux Hvy Huy.
  destruct (in_unit_inv x Hvx Hux) as [Hnx Hlx].
  destruct (in_unit_inv y Hvy Huy) as [Hny Hly].
  destruct x as [sx | sx | | [|] mx ex]; try discriminate;
    destruct y as [sy | sy | | [|] my ey]; try discriminate.
  - destruct sx, sy; split; reflexivity.
  - split; assumption.
  - split; assumption.
  - pose proof (bounded_range _ _ Hvx) as (Hrx & _).
    pose proof (bounded_range _ _ Hvy) as (Hry & _).
    cbn [value] in Hlx, Hly.
    unfold F32.add, SFadd, F32.prec, F32.emax. cbn [cond_Zopp].
    set (ez := Z.min ex ey).
    rewrite !shl_align_value by (unfold ez; lia).
    pose proof (pow2_pos (ez + 298) ltac:(unfold ez; lia)) as HA.
    pose proof (pow2_pos (ex - ez) ltac:(unfold ez; lia)) as HX.
    pose proof (pow2_pos (ey - ez) ltac:(unfold ez; lia)) as HY.
    assert (Hex : 2 ^ (ex + 298) = 2 ^ (ex - ez) * 2 ^ (ez + 298)).
    { rewrite <- pow2_split by (unfold ez; lia). f_equal. lia. }
    assert (Hey : 2 ^ (ey + 298) = 2 ^ (ey - ez) * 2 ^ (ez + 298)).
    { rewrite <- pow2_split by (unfold ez; lia). f_equal. lia. }
    rewrite Hex in Hlx. rewrite Hey in Hly.
    destruct (Z.pos mx * 2 ^ (ex - ez) + Z.pos my * 2 ^ (ey - ez)) as [| S | S] eqn:HS;
      try lia.
    cbn [binary_normalize].
    assert (HSv : Z.pos S * 2 ^ (ez + 298) <= 2 * 2 ^ 298) by (rewrite <- HS; lia).
    assert (Hez : -149 <= ez) by (unfold ez; lia).
    pose proof (digits_exponent_le S ez 2 ltac:(lia) ltac:(lia)) as Hd.
    specialize (Hd ltac:(change (2 ^ (2 + 298)) with (4 * 2 ^ 298);
                         pose proof (pow2_pos 298 ltac:(lia)); lia)).
    apply (rounded_valid _ (Z.pos S) ez (fexp 24 128 (Z.pos (digits2_pos S) + ez))).
    apply binary_round_value; [lia |]. rewrite fexp_alt. lia.
Qed.

Lemma fle_nonpos_nonneg (x c : float) :
  nonpos x = true -> nonneg c = true -> fle x c = true.
Proof.
  destruct x as [[|] | [|] | | [|] mx ex]; try discriminate;
    destruct c as [sc | sc | | [|] mc ec]; try discriminate; reflexivity.
Qed.

Lemma shr_fexp_nonneg (m e : Z) :
  0 <= m -> 0 <= shr_m (fst (shr_fexp 24 128 m e loc_Exact)).
Proof.
  intros Hm. unfold shr_fexp. cbn [shr_record_of_loc].
  destruct (Z.lt_ge_cases 0 (fexp 24 128 (Zdigits2 m + e) - e)) as [Hn | Hn].
  - rewrite shr_positive by assumption. cbn [fst shr_m].
    apply Z.div_pos; [exact Hm | apply pow2_pos; lia].
  - destruct (fexp 24 128 (Zdigits2 m + e) - e); try lia; exact Hm.
Qed.

Lemma round_nearest_even_nonneg (q : Z) (l : location) :
  0 <= q -> 0 <= round_nearest_even q l.
Proof.
  intros Hq. destruct l as [| []]; cbn [round_nearest_even]; try lia.
  destruct (Z.even q); lia.
Qed.

(** Rounding keeps the sign: a negative exact value rounds to a negative
    number, to minus infinity or to the negative zero, never to NaN. *)
Lemma binary_round_negative (m : positive) (e : Z) :
  nonpos (binary_round 24 128 true m e) = true.
Proof.
  unfold binary_round.
  destruct (shl_align m e (fexp 24 128 (Z.pos (digits2_pos m) + e))) as [mz ez].
  unfold binary_round_aux.
  pose proof (shr_fexp_nonneg (Z.pos mz) ez ltac:(lia)) as H1.
  destruct (shr_fexp 24 128 (Z.pos mz) ez loc_Exact) as [mrs' e'].
  cbn [fst] in H1.
  pose proof (shr_fexp_nonneg
                (round_nearest_even (shr_m mrs') (loc_of_shr_record mrs')) e'
                (round_nearest_even_nonneg _ _ H1)) as H2.
  destruct (shr_fexp 24 128 (round_nearest_even (shr_m mrs') (loc_of_shr_record mrs')) e'
              loc_Exact) as [mrs'' e''].
  cbn [fst] in H2.
  destruct (shr_m mrs'') as [| p | p]; [reflexivity | | lia].
  destruct (e'' <=? 128 - 24); reflexivity.
Qed.

(** The difference of two numbers of the unit interval: a binary32 number
    between 0 and the minuend, or a non-positive number. *)
Lemma sub_unit (x r : float) :
  F32.valid x = true -> in_unit x = true ->
  F32.valid r = true -> in_unit r = true ->
  (F32.valid (F32.sub x r) = true /\ nonneg (F32.sub x r) = true
   /\ value (F32.sub x r) <= value x)
  \/ nonpos (F32.sub x r) = true.
Proof.
  intros Hvx Hux Hvr Hur.
  destruct (in_unit_inv x Hvx Hux) as [Hnx Hlx].
  destruct (in_unit_inv r Hvr Hur) as [Hnr Hlr].
  destruct x as [sx | sx | | [|] mx ex]; try discriminate;
    destruct r as [sr | sr | | [|] mr er]; try discriminate.
  - left. destruct sx, sr; repeat split; cbn; lia.
  - right. reflexivity.
  - left. change (F32.sub (S754_finite false mx ex) (S754_zero sr))
      with (S754_finite false mx ex).
    repeat split; try assumption. lia.
  - pose proof (bounded_range _ _ Hvx) as (Hrx & _).
    pose proof (bounded_range _ _ Hvr) as (Hrr & _).
    unfold F32.sub, SFsub, F32.prec, F32.emax. cbn [cond_Zopp].
    set (ez := Z.min ex er).
    rewrite !shl_align_value by (unfold ez; lia).
    pose proof (pow2_pos (ez + 298) ltac:(unfold ez; lia)) as HA.
    assert (Hex : 2 ^ (ex + 298) = 2 ^ (ex - ez) * 2 ^ (ez + 298)).
    { rewrite <- pow2_split by (unfold ez; lia). f_equal. lia. }
    destruct (Z.pos mx * 2 ^ (ex - ez) - Z.pos mr * 2 ^ (er - ez)) as [| D | D] eqn:HD;
      cbn [binary_normalize].
    + left. repeat split. apply value_nonneg.
    + left. apply (rounded_le _ D ez mx ex).
      * apply binary_round_value; [unfold ez; lia |].
        pose proof (value_below_digits mx ex ltac:(lia)) as Hb.
        pose proof (pow2_pos (er - ez) ltac:(unfold ez; lia)) as HR.
        assert (Hle : Z.pos D * 2 ^ (ez + 298) <= Z.pos mx * 2 ^ (ex + 298))
          by (rewrite Hex; nia).
        pose proof (digits_exponent_le D ez (Z.pos (digits2_pos mx) + ex)
                      ltac:(unfold ez; lia) ltac:(lia) ltac:(lia)) as Hd.
        pose proof Hvx as [Hfx _]%bounded_alt.
        pose proof (in_unit_exponent _ _ Hux) as Hx23.
        rewrite fexp_alt in *. lia.
      * unfold ez; lia.
      * exact Hvx.
      * pose proof (pow2_pos (er - ez) ltac:(unfold ez; lia)) as HR.
        rewrite Hex. nia.
    + right. apply binary_round_negative.
Qed.
End UnitInterval.

Section EnvelopeInterval.
Import Binary32 HarmonicStateInv EnvelopeProcessor EnvelopeRun.

Lemma nonneg_fle_zero (x : float) : nonneg x = true -> fle F32.zero x = true.
Proof. destruct x as [s | s | | [|] m e]; try discriminate; reflexivity. Qed.

Lemma nonneg_not_nan (x : float) : nonneg x = true -> is_nan x = false.
Proof. destruct x as [s | s | | [|] m e]; try discriminate; reflexivity. Qed.

Lemma not_fge_fle (x y : float) :
  is_nan x = false -> is_nan y = false -> fge x y = false -> fle x y = true.
Proof.
  intros Hx Hy Hge.
  destruct (flt y x) eqn:Hlt.
  - apply flt_fle in Hlt. unfold fge in Hge. unfold fle in Hlt. congruence.
  - exact (not_flt_fge y x Hy Hx Hlt).
Qed.

Lemma unit_value_zero : unit_value F32.zero.
Proof. split; reflexivity. Qed.

Lemma unit_value_one : unit_value F32.one.
Proof. split; reflexivity. Qed.

Lemma levels_with_state_level (s : State) (level : float) (e : EnvelopeProcessor.t) :
  unit_value level -> levels_in_unit e -> levels_in_unit (with_state_level s level e).
Proof. intros Hl (_ & H). exact (conj Hl H). Qed.

(** One call of [getNextSample] keeps the level in the unit interval. *)
Lemma getNextSample_in_unit (e : EnvelopeProcessor.t) :
  levels_in_unit e ->
  unit_value (fst (getNextSample e)) /\ levels_in_unit (snd (getNextSample e)).
Proof.
  intros He. pose proof He as ([Hvl Hul] & Hs & Ha & Hd & Hr).
  assert (Hout : forall s level, unit_value level ->
            unit_value (currentLevel (with_state_level s level e))
            /\ levels_in_unit (with_state_level s level e)).
  { intros s level Hl. split; [exact Hl | now apply levels_with_state_level]. }
  unfold getNextSample.
  destruct (currentState e) eqn:Hst; cbv zeta.
  - split; [exact unit_value_zero | exact He].
  - destruct Ha as [Hva Hua].
    destruct (add_unit_nonneg _ _ Hvl Hul Hva Hua) as [Hv Hn].
    destruct (fge (F32.add (currentLevel e) (attackRate e)) F32.one) eqn:Hge;
      cbn [fst snd]; apply Hout; [exact unit_value_one |].
    split; [exact Hv |]. unfold in_unit. apply andb_true_iff. split.
    + now apply nonneg_fle_zero.
    + apply not_fge_fle; [now apply nonneg_not_nan | reflexivity | exact Hge].
  - destruct Hd as [Hvd Hud]. pose proof Hs as [Hvs Hus].
    destruct (in_unit_inv _ Hvs Hus) as [Hns _].
    destruct (in_unit_inv _ Hvl Hul) as [_ Hll].
    destruct (fle (F32.sub (currentLevel e) (decayRate e)) (sustainLevel e)) eqn:Hle;
      cbn [fst snd]; apply Hout; [exact Hs |].
    destruct (sub_unit _ _ Hvl Hul Hvd Hud) as [(Hv & Hn & Hl) | Hneg].
    + split; [exact Hv |]. apply in_unit_of_value; [exact Hv | exact Hn | lia].
    + rewrite (fle_nonpos_nonneg _ _ Hneg Hns) in Hle. discriminate.
  - cbn [fst snd]. apply Hout. exact Hs.
  - destruct Hr as [Hvr Hur].
    destruct (in_unit_inv _ Hvl Hul) as [_ Hll].
    destruct (fle (F32.sub (currentLevel e) (releaseRate e)) F32.zero) eqn:Hle;
      cbn [fst snd]; apply Hout; [exact unit_value_zero |].
    destruct (sub_unit _ _ Hvl Hul Hvr Hur) as [(Hv & Hn & Hl) | Hneg].
    + split; [exact Hv |]. apply in_unit_of_value; [exact Hv | exact Hn | lia].
    + rewrite (fle_nonpos_nonneg _ F32.zero Hneg eq_refl) in Hle. discriminate.
Qed.

(** X23.  The envelope stays in [0,1]: when the level, the sustain level and
    the three rates are binary32 numbers of the unit interval, so is every
    one of [n] successive outputs of [getNextSample], rounding included, and
    the envelope is in the same condition afterwards; [noteOn], [noteOff]
    and [setSustain] with a binary32 number other than NaN keep it so. *)
Theorem envelope_output_in_unit (n : nat) (e : EnvelopeProcessor.t) (level : float) :
  levels_in_unit e ->
  Forall unit_value (fst (run n e))
  /\ levels_in_unit (snd (run n e))
  /\ levels_in_unit (noteOn e) /\ levels_in_unit (noteOff e)
  /\ (F32.valid level = true -> is_nan level = false ->
      levels_in_unit (setSustain level e)).
Proof.
  intros He. split; [| split; [| split; [| split]]].
  - revert e He. induction n as [| n IH]; intros e He; [constructor |].
    cbn [run]. destruct (getNextSample_in_unit e He) as [Hx He'].
    destruct (getNextSample e) as [x e1]. cbn [fst snd] in Hx, He'.
    specialize (IH e1 He'). destruct (run n e1) as [xs e2]. cbn [fst] in *.
    constructor; assumption.
  - revert e He. induction n as [| n IH]; intros e He; [exact He |].
    cbn [run]. destruct (getNextSample_in_unit e He) as [_ He'].
    destruct (getNextSample e) as [x e1]. cbn [snd] in He'.
    specialize (IH e1 He'). destruct (run n e1) as [xs e2]. exact IH.
  - apply levels_with_state_level; [exact unit_value_zero | exact He].
  - apply levels_with_state_level; [apply He | exact He].
  - intros Hv Hn. destruct He as (Hl & _ & Hr).
    split; [exact Hl |]. split; [| exact Hr].
    split; [now apply jlimit_valid | now apply in_unit_jlimit].
Qed.
End EnvelopeInterval.

(* ===================================================================== *)
(** ** The further properties on concrete inputs                          *)
(* ===================================================================== *)

Lemma setHarmonic_then_get_witness :
  HarmonicState.getHarmonic 5
    (HarmonicState.setHarmonic 5 (F32.of_int 2) F32.half HarmonicState.new)
  = HarmonicData.mk F32.one F32.half true.
Proof.
  apply (setHarmonic_then_get HarmonicState.new 5 (F32.of_int 2) F32.half).
  - reflexivity.
  - unfold Constants.MAX_HARMONICS. lia.
Defined.

Lemma setters_touch_one_slot_witness :
  HarmonicState.getHarmonic 4 (HarmonicState.setHarmonicAmplitude 3 F32.one spectrum_half)
  = HarmonicState.getHarmonic 4 spectrum_half.
Proof.
  destruct (setters_touch_one_slot spectrum_half 3 4 F32.one F32.zero) as [_ Hother].
  - reflexivity.
  - unfold Constants.MAX_HARMONICS. lia.
  - apply Hother. lia.
Defined.

Lemma loadPreset_Saw_witness :
  HarmonicState.getHarmonic 31 (HarmonicState.loadPreset "Saw" spectrum_half)
  = HarmonicData.mk (F32.div F32.one (F32.of_int 32)) F32.zero true.
Proof.
  apply (loadPreset_Saw spectrum_half 31).
  - reflexivity.
  - unfold Constants.MAX_HARMONICS. lia.
Defined.

Lemma loadPreset_Square_witness :
  HarmonicState.getHarmonic 3 (HarmonicState.loadPreset "Square" spectrum_half)
  = HarmonicData.new.
Proof.
  apply (loadPreset_Square spectrum_half 3).
  - reflexivity.
  - unfold Constants.MAX_HARMONICS. lia.
Defined.

Lemma loadPreset_unknown_name_witness :
  HarmonicState.loadPreset "Pulse" spectrum_half = HarmonicState.new.
Proof.
  apply (loadPreset_unknown_name "Pulse" spectrum_half); [reflexivity | ..];
    discriminate.
Defined.

Lemma enabled_consistent_preserved_witness :
  HarmonicStateInv.enabled_consistent
    (HarmonicState.setHarmonicAmplitude 3 F32.one (HarmonicState.clear spectrum_half)).
Proof.
  destruct (enabled_consistent_preserved (HarmonicState.clear spectrum_half)
              HarmonicState.new 3 F32.one F32.zero "Saw") as (_ & _ & Hset & _).
  destruct (enabled_consistent_preserved spectrum_half
              HarmonicState.new 3 F32.one F32.zero "Saw") as (Hclear & _).
  exact (proj2 (Hset Hclear)).
Defined.

Lemma amplitudes_in_unit_preserved_witness :
  HarmonicStateInv.amplitudes_in_unit
    (HarmonicState.setHarmonicAmplitude 3 (F32.of_int 7) (HarmonicState.clear spectrum_half))
  /\ HarmonicStateInv.amplitudes_in_unit (HarmonicState.loadPreset "Organ" spectrum_half).
Proof.
  split.
  - destruct (amplitudes_in_unit_preserved (HarmonicState.clear spectrum_half)
                HarmonicState.new 3 (F32.of_int 7) F32.zero "Organ") as (_ & _ & Hset & _).
    destruct (amplitudes_in_unit_preserved spectrum_half HarmonicState.new 3 F32.one
                F32.zero "Organ") as (Hclear & _).
    exact (proj2 (Hset Hclear eq_refl)).
  - destruct (amplitudes_in_unit_preserved spectrum_half HarmonicState.new 3 F32.one
                F32.zero "Organ") as (_ & Hload & _).
    apply Hload; [reflexivity | discriminate].
Defined.

Lemma MorphingEngine_query_after_setters_witness :
  HarmonicData.amplitude
    (HarmonicState.getHarmonic 0
       (fst (MorphingEngine.getCurrentState
               (MorphingEngine.setMorphAmount (F32.of_int 3)
                  (MorphingEngine.setTargetState spectrum_half
                     (MorphingEngine.setSourceState HarmonicState.new MorphingEngine.new))))))
  = HarmonicState.blend F32.zero F32.half F32.one.
Proof.
  destruct (MorphingEngine_query_after_setters MorphingEngine.new HarmonicState.new
              spectrum_half (F32.of_int 3) 0) as (_ & _ & Hamp & _).
  - reflexivity.
  - unfold Constants.MAX_HARMONICS. lia.
  - exact Hamp.
Defined.

Lemma setAmplitude_audibility_witness :
  SineWaveGenerator.getNextSample sin_poly
    (SineWaveGenerator.setAmplitude (F32.neg F32.one) generator_100kHz)
  = (F32.zero, SineWaveGenerator.setAmplitude (F32.neg F32.one) generator_100kHz).
Proof.
  destruct (setAmplitude_audibility sin_poly generator_100kHz (F32.neg F32.one))
    as [_ Hsilent].
  apply Hsilent. reflexivity.
Defined.

Lemma morphTo_keeps_unit_interval_witness :
  HarmonicStateInv.amplitudes_valid
    (HarmonicState.morphTo (HarmonicState.loadPreset "Saw" HarmonicState.new) F32.half
       spectrum_half)
  /\ HarmonicStateInv.amplitudes_in_unit
       (HarmonicState.morphTo (HarmonicState.loadPreset "Saw" HarmonicState.new) F32.half
          spectrum_half).
Proof.
  apply (morphTo_keeps_unit_interval (HarmonicState.loadPreset "Saw" HarmonicState.new)
           F32.half spectrum_half).
  - reflexivity.
  - apply (forallb_Forall (fun h => F32.valid (HarmonicData.amplitude h))). vm_compute.
    reflexivity.
  - apply (forallb_Forall (fun h => HarmonicStateInv.in_unit (HarmonicData.amplitude h))).
    vm_compute. reflexivity.
  - apply (forallb_Forall (fun h => F32.valid (HarmonicData.amplitude h))). vm_compute.
    reflexivity.
  - apply (forallb_Forall (fun h => HarmonicStateInv.in_unit (HarmonicData.amplitude h))).
    vm_compute. reflexivity.
  - reflexivity.
  - reflexivity.
Defined.

Lemma HarmonicOscillator_getNextSample_spec_witness :
  fst (HarmonicOscillator.getNextSample sin_poly bank_sounding)
  = F32.mul (HarmonicOscillatorSum.summed sin_poly
               (HarmonicOscillator.oscillators bank_sounding))
            (HarmonicOscillator.masterGain bank_sounding).
Proof.
  rewrite (HarmonicOscillator_getNextSample_spec sin_poly bank_sounding); reflexivity.
Defined.

Lemma oscillator_turn_without_contribution_witness :
  HarmonicOscillator.oscillators
    (snd (HarmonicOscillator.getNextSample sin_poly bank_sine)) !! 0%nat
  = Some (SineWaveGenerator.advance (HarmonicOscillator.at_ bank_sine 0))
  /\ HarmonicOscillator.oscillators
       (snd (HarmonicOscillator.getNextSample sin_poly bank_sine)) !! 1%nat
     = Some (HarmonicOscillator.at_ bank_sine 1).
Proof.
  split.
  - destruct (oscillator_turn_without_contribution sin_poly bank_sine 0
                (HarmonicOscillator.at_ bank_sine 0)) as [_ Hzero];
      [reflexivity | reflexivity |].
    apply Hzero; reflexivity.
  - destruct (oscillator_turn_without_contribution sin_poly bank_sine 1
                (HarmonicOscillator.at_ bank_sine 1)) as [Hsilent _];
      [reflexivity | reflexivity |].
    apply Hsilent; reflexivity.
Defined.

Lemma silent_bank_unchanged_witness :
  HarmonicOscillator.getNextSample sin_poly HarmonicOscillator.new
  = (F32.zero, HarmonicOscillator.new).
Proof.
  apply (silent_bank_unchanged sin_poly HarmonicOscillator.new).
  - reflexivity.
  - apply (forallb_Forall
             (fun o => flt (SineWaveGenerator.amplitude o) F32.thousandth)).
    reflexivity.
Defined.

Lemma HarmonicOscillator_getNextSample_frame_witness :
  HarmonicOscillator.masterGain (snd (HarmonicOscillator.getNextSample sin_poly bank_sounding))
  = F32.half.
Proof.
  destruct (HarmonicOscillator_getNextSample_frame sin_poly bank_sounding 0
              (HarmonicOscillator.at_ bank_sounding 0)) as (_ & _ & Hgain & _).
  - reflexivity.
  - reflexivity.
  - rewrite Hgain. reflexivity.
Defined.

Lemma setHarmonicState_oscillator_witness :
  exists o',
    HarmonicOscillator.oscillators
      (HarmonicOscillator.setHarmonicState
         (HarmonicState.loadPreset "Triangle" HarmonicState.new) bank_sine) !! 2%nat
    = Some o'
    /\ SineWaveGenerator.amplitude o' = F32.zero.
Proof.
  destruct (setHarmonicState_oscillator sin_poly
              (HarmonicState.loadPreset "Triangle" HarmonicState.new) bank_sine 2
              (HarmonicOscillator.at_ bank_sine 2))
    as (o' & Ho' & Hamp & _); [reflexivity | reflexivity |].
  exists o'. split; [exact Ho' |]. rewrite Hamp. reflexivity.
Defined.

Lemma setHarmonicState_reads_amplitudes_only_witness :
  HarmonicOscillator.setHarmonicState spectrum_inf_phase bank_sine
  = HarmonicOscillator.setHarmonicState spectrum_half bank_sine.
Proof.
  apply (setHarmonicState_reads_amplitudes_only spectrum_inf_phase spectrum_half bank_sine).
  intros i _. apply getHarmonicAmplitude_ignores_phase.
Defined.

Lemma setFrequency_harmonic_series_witness :
  exists o',
    HarmonicOscillator.oscillators
      (HarmonicOscillator.setFrequency (F32.of_int 100) bank_sounding) !! 2%nat = Some o'
    /\ SineWaveGenerator.frequency o' = F32.of_int 300.
Proof.
  destruct (setFrequency_harmonic_series (F32.of_int 100) bank_sounding 2
              (HarmonicOscillator.at_ bank_sounding 2))
    as (_ & _ & o' & Ho' & Hfreq & _); [reflexivity | reflexivity |].
  exists o'. split; [exact Ho' |]. rewrite Hfreq. reflexivity.
Defined.

Lemma increments_consistent_invariant_witness :
  HarmonicOscillatorInv.increments_consistent
    (snd (HarmonicOscillator.getNextSample sin_poly
            (HarmonicOscillator.setFrequency (F32.of_int 440) HarmonicOscillator.new))).
Proof.
  destruct (increments_consistent_invariant sin_poly
              (HarmonicOscillator.setFrequency (F32.of_int 440) HarmonicOscillator.new)
              (F64.of_int 44100) F32.one F32.one HarmonicState.new)
    as (_ & _ & Hkeep); [reflexivity |].
  destruct (increments_consistent_invariant sin_poly HarmonicOscillator.new
              (F64.of_int 44100) (F32.of_int 440) F32.one HarmonicState.new)
    as (_ & Htuned & _); [reflexivity |].
  destruct (Hkeep Htuned) as (_ & _ & _ & Hnext). exact Hnext.
Defined.

Lemma rates_consistent_invariant_witness :
  EnvelopeRun.rates_consistent
    (snd (EnvelopeProcessor.getNextSample
            (EnvelopeProcessor.prepare (F64.of_int 44100) EnvelopeProcessor.new))).
Proof.
  destruct (rates_consistent_invariant
              (EnvelopeProcessor.prepare (F64.of_int 44100) EnvelopeProcessor.new)
              (F64.of_int 44100) F32.one) as (_ & _ & _ & _ & Hkeep).
  destruct (rates_consistent_invariant EnvelopeProcessor.new (F64.of_int 44100) F32.one)
    as (Hprepared & _).
  destruct (Hkeep Hprepared) as (_ & _ & Hnext). exact Hnext.
Defined.

Lemma envelope_step_witness :
  fgt (fst (EnvelopeProcessor.getNextSample
              (EnvelopeProcessor.noteOn
                 (EnvelopeProcessor.prepare (F64.of_int 44100) EnvelopeProcessor.new))))
      F32.one = false.
Proof.
  destruct (envelope_step
              (EnvelopeProcessor.noteOn
                 (EnvelopeProcessor.prepare (F64.of_int 44100) EnvelopeProcessor.new)))
    as (_ & _ & _ & Hattack & _).
  exact (proj1 (Hattack eq_refl)).
Defined.

Lemma idle_at_zero_invariant_witness :
  EnvelopeRun.idle_at_zero
    (snd (EnvelopeProcessor.getNextSample
            (EnvelopeProcessor.noteOff EnvelopeProcessor.new))).
Proof.
  destruct (idle_at_zero_invariant (EnvelopeProcessor.noteOff EnvelopeProcessor.new)
              (F64.of_int 44100) F32.one) as [_ Hkeep].
  assert (Hrel : EnvelopeRun.idle_at_zero (EnvelopeProcessor.noteOff EnvelopeProcessor.new))
    by discriminate.
  destruct (Hkeep Hrel) as (_ & _ & _ & _ & _ & _ & _ & Hnext). exact Hnext.
Defined.

Lemma envelope_output_in_unit_witness :
  Forall HarmonicStateInv.unit_value
    (fst (EnvelopeRun.run 64
            (EnvelopeProcessor.noteOn
               (EnvelopeProcessor.prepare (F64.of_int 44100) EnvelopeProcessor.new)))).
Proof.
  apply (envelope_output_in_unit 64
           (EnvelopeProcessor.noteOn
              (EnvelopeProcessor.prepare (F64.of_int 44100) EnvelopeProcessor.new))
           F32.half).
  repeat split; vm_compute; reflexivity.
Defined.

Lemma noteOff_while_idle_witness :
  EnvelopeProcessor.getNextSample (EnvelopeProcessor.noteOff EnvelopeProcessor.new)
  = (F32.zero, EnvelopeProcessor.new).
Proof.
  apply (noteOff_while_idle EnvelopeProcessor.new); reflexivity.
Defined.

Lemma sustain_holds_level_witness :
  fst (EnvelopeRun.run 3 envelope_sustaining)
  = [F32.lit 7 10; F32.lit 7 10; F32.lit 7 10].
Proof.
  destruct (sustain_holds_level 2 F32.half envelope_sustaining) as [Hrun _];
    [reflexivity |].
  rewrite Hrun. reflexivity.
Defined.

Lemma renderNextBlock_spec_witness :
  snd (AdditiveVoiceRender.renderNextBlock sin_poly buffer_stereo 1 2 voice_playing)
  = false
  /\ AdditiveVoiceRender.renderNextBlock sin_poly buffer_stereo 1 2 AdditiveVoice.new
     = (AdditiveVoice.new, buffer_stereo, true).
Proof.
  split.
  - destruct (renderNextBlock_spec sin_poly buffer_stereo 1 2 voice_playing)
      as [_ Hactive].
    rewrite Hactive; reflexivity.
  - apply (renderNextBlock_spec sin_poly buffer_stereo 1 2 AdditiveVoice.new).
    reflexivity.
Defined.

Lemma renderNextBlock_accumulates_witness :
  exists chan',
    snd (fst (AdditiveVoiceRender.renderNextBlock sin_poly buffer_stereo 1 2 voice_playing))
      !! 1%nat = Some chan'
    /\ length chan' = 4%nat
    /\ chan' !! 0%nat = Some F32.zero
    /\ chan' !! 3%nat = Some F32.zero.
Proof.
  destruct (renderNextBlock_accumulates sin_poly buffer_stereo 1 2 voice_playing 1
              (replicate 4 F32.zero))
    as (chan' & Hch & Hlen & _ & _ & Hout); [reflexivity | lia | reflexivity |].
  exists chan'. split; [exact Hch |]. split; [exact Hlen |].
  split; rewrite Hout; try reflexivity; cbn; lia.
Defined.

Lemma stopNote_spec_witness :
  AdditiveVoiceRender.renderNextBlock sin_poly buffer_stereo 0 2
    (fst (AdditiveVoiceRender.stopNote false voice_playing))
  = AdditiveVoiceRender.renderNextBlock sin_poly buffer_stereo 0 2 voice_playing.
Proof.
  destruct (stopNote_spec sin_poly voice_playing buffer_stereo 0 2) as [_ Hhard].
  cbn [AdditiveVoiceRender.stopNote fst] in *.
  destruct Hhard as (_ & _ & Hrender).
  rewrite Hrender by reflexivity. reflexivity.
Defined.

Lemma processor_setHarmonicState_witness :
  AdditiveSynthAudioProcessor.harmonicState
    (AdditiveSynthAudioProcessor.setHarmonicState spectrum_half
       AdditiveSynthAudioProcessor.new)
  = spectrum_half
  /\ length (AdditiveSynthAudioProcessor.voices
               (AdditiveSynthAudioProcessor.setHarmonicState spectrum_half
                  AdditiveSynthAudioProcessor.new)) = 16%nat.
Proof.
  destruct (processor_setHarmonicState sin_poly spectrum_half
              AdditiveSynthAudioProcessor.new 0
              (AdditiveVoice.setHarmonicState
                 (HarmonicState.loadPreset "Saw" HarmonicState.new) AdditiveVoice.new)
              0 (SineWaveGenerator.setAmplitude F32.one SineWaveGenerator.new))
    as (Hstate & Hlen & _); [reflexivity | reflexivity | reflexivity |].
  split; [exact Hstate |]. rewrite Hlen. reflexivity.
Defined.

Lemma processor_derived_values_witness :
  exists v',
    AdditiveSynthAudioProcessor.voices
      (AdditiveSynthAudioProcessor.setEnvelopeParameters F32.half F32.half F32.two F32.one
         AdditiveSynthAudioProcessor.new) !! 15%nat = Some v'
    /\ EnvelopeProcessor.sustainLevel (AdditiveVoice.envelope v') = F32.one.
Proof.
  destruct (processor_derived_values sin_poly AdditiveSynthAudioProcessor.new
              (F64.of_int 44100) 512 F32.half F32.half F32.two F32.one 15
              (AdditiveVoice.setHarmonicState
                 (HarmonicState.loadPreset "Saw" HarmonicState.new) AdditiveVoice.new))
    as [_ (v' & Hv' & _ & _ & _ & Hsus & _)]; [reflexivity | reflexivity |].
  exists v'. split; [exact Hv' |]. rewrite Hsus. reflexivity.
Defined.
